(** * Chromatic objects of GalSim ([galsim/chromatic.py]): a shallow embedding

    The development follows [chromatic.py] class by class.  Python floats and
    numpy [float64] values are modelled by exact rationals ([Qc]); a division
    by zero, which yields [nan]/[inf] on numpy floats and an exception on
    Python floats, ends the computation with [NotFinite].  Python exceptions
    are values of [PyError]; a method that may raise returns a [Result], and a
    method that also touches the process-wide caches, creates new Python
    objects (whose identity matters as dictionary and cache key) or calls the
    renderer runs in the state monad [M].

    What [chromatic.py] imports from the rest of GalSim (profiles and their
    renderer, spectra, bandpasses, integrators, the LRU cache) is not part of
    this file of the repository: profiles are the terms [GSObject] that the
    chromatic code builds, and what the collaborators compute is a field of
    the record [External]. *)

From Stdlib Require Import QArith Qcanon ZArith List Bool String Lia Permutation Arith Sorted.
Import ListNotations.

#[local] Set Warnings "-register-all".

(** ** Numbers *)

Definition Qcltb (x y : Qc) : bool :=
  match (x ?= y)%Qc with Lt => true | _ => false end.

Definition Qcleb (x y : Qc) : bool := negb (Qcltb y x).

Definition Qceqb (x y : Qc) : bool :=
  match (x ?= y)%Qc with Eq => true | _ => false end.

(** An integer wavelength, flux or weight as a rational. *)
Definition qz (n : Z) : Qc := Q2Qc (inject_Z n).

Definition half : Qc := Q2Qc (1 # 2).

(** ** Exceptions *)

(** The [ValueError]s the constructors raise on an invalid composition, one
    per message of the source. *)
Inductive Composition : Type :=
| SecondSEDAttached     (* "Cannot attach more than one SED to ChromaticObject." *)
| MixedSum              (* "Can only add ChromaticObjects with all SEDs None or no SEDs None." *)
| TwoSEDsConvolved      (* "Cannot convolve multiple SED'd ChromaticObjects." *)
| SEDDeconvolved        (* "Cannot deconvolve by ChromaticObject with SED." *)
| SEDAutoConvolved      (* "Cannot autoconvolve ChromaticObject with SED." *)
| SEDAutoCorrelated     (* "Cannot autocorrelate ChromaticObject with SED." *)
| SEDFourierSqrt.       (* "Cannot take fourier sqrt of ChromaticObject with SED." *)

Inductive PyError : Type :=
| MissingSED                    (* ValueError("Can only draw ChromaticObjects with SEDs.") *)
| InvalidComposition (c : Composition)
| OutOfRange                    (* RuntimeError("Requested wavelength ... is outside the allowed range") *)
| NoFiducialWavelength          (* ValueError("Could not locate fiducial wavelength ...") *)
| UnknownIntegrator             (* TypeError("Unrecognized integration rule"), TypeError("Unknown integrator") *)
| InvalidIntegratorType         (* TypeError("Invalid type passed in for integrator!") *)
| MultipleSEDs                  (* RuntimeError("Encountered convolution of more than one SEDed ...") *)
| NoArguments                   (* ValueError("Must provide at least one GSObject or ChromaticObject") *)
| InvalidArgument               (* TypeError: an argument of the wrong type *)
| MissingAttribute              (* AttributeError: the object has no such attribute *)
| IndexOutOfBounds              (* IndexError *)
| EmptyReduction                (* ValueError: zero-size array to reduction operation *)
| ShapeMismatch                 (* ValueError: operands could not be broadcast together *)
| NoneOperand                   (* TypeError: unsupported operand type(s) ... 'NoneType' *)
| MathDomain                    (* ValueError("math domain error") *)
| NotFinite                     (* a division by zero: no finite float results *)
| RecursionDepth                (* RuntimeError: maximum recursion depth exceeded *)
| ExternalFailure (code : nat). (* an exception raised inside a collaborator *)

Inductive Result (A : Type) : Type :=
| Ok (a : A)
| Raise (e : PyError).

Arguments Ok {A} a.
Arguments Raise {A} e.

Definition rbind {A B : Type} (r : Result A) (k : A -> Result B) : Result B :=
  match r with
  | Ok a => k a
  | Raise e => Raise e
  end.

Declare Scope result_scope.
Delimit Scope result_scope with result.
Notation "'try' x <- r ; k" := (rbind r (fun x => k))
  (at level 10, x name, r at level 100, k at level 200) : result_scope.
Notation "'try' ' p <- r ; k" := (rbind r (fun x => match x with p => k end))
  (at level 10, p pattern, r at level 100, k at level 200) : result_scope.

Section Rmap.
Context {A B : Type} (f : A -> Result B).

(** [[f(a) for a in l]], where [f] may raise. *)
Fixpoint rmap (l : list A) : Result (list B) :=
  match l with
  | [] => Ok []
  | a :: l' =>
      (try b <- f a;
       try bs <- rmap l';
       Ok (b :: bs))%result
  end.
End Rmap.

(** Float division, on exact numbers.  A division by zero has no value
    here: Python's floats refuse it, and numpy's answer it with [inf] or
    [nan], which are not numbers of this development. *)
Definition fdiv (x y : Qc) : Result Qc :=
  if Qceqb y 0%Qc then Raise NotFinite else Ok (x / y)%Qc.

(** ** numpy *)

(** [a[i]]: a negative index counts from the end. *)
Definition item {A : Type} (a : list A) (i : Z) : Result A :=
  let j := if (i <? 0)%Z then (Z.of_nat (List.length a) + i)%Z else i in
  if (j <? 0)%Z then Raise IndexOutOfBounds
  else match nth_error a (Z.to_nat j) with
       | Some x => Ok x
       | None => Raise IndexOutOfBounds
       end.

Fixpoint fold_min (m : Qc) (l : list Qc) : Qc :=
  match l with
  | [] => m
  | x :: l' => fold_min (if Qcltb x m then x else m) l'
  end.

Fixpoint fold_max (m : Qc) (l : list Qc) : Qc :=
  match l with
  | [] => m
  | x :: l' => fold_max (if Qcltb m x then x else m) l'
  end.

Definition np_min (a : list Qc) : Result Qc :=
  match a with
  | [] => Raise EmptyReduction
  | x :: l => Ok (fold_min x l)
  end.

Definition np_max (a : list Qc) : Result Qc :=
  match a with
  | [] => Raise EmptyReduction
  | x :: l => Ok (fold_max x l)
  end.

Fixpoint insert_sorted (x : Qc) (l : list Qc) : list Qc :=
  match l with
  | [] => [x]
  | y :: l' => if Qcleb x y then x :: l else y :: insert_sorted x l'
  end.

Definition np_sort (a : list Qc) : list Qc := fold_right insert_sorted [] a.

Fixpoint insert_unique (x : Qc) (l : list Qc) : list Qc :=
  match l with
  | [] => [x]
  | y :: l' =>
      if Qceqb x y then l
      else if Qcltb x y then x :: l
      else y :: insert_unique x l'
  end.

(** [np.union1d]: the sorted array of the distinct values of both arrays. *)
Definition np_union1d (a b : list Qc) : list Qc :=
  fold_right insert_unique [] (a ++ b).

(** [np.searchsorted(a, v)] (side 'left') on a sorted array: the number of
    entries strictly below [v]. *)
Fixpoint np_searchsorted (a : list Qc) (v : Qc) : Z :=
  match a with
  | [] => 0%Z
  | x :: a' => if Qcltb x v then (1 + np_searchsorted a' v)%Z else 0%Z
  end.

(** [np.trapz(y, x)] for the samples [(x, y)]. *)
Fixpoint np_trapz (xy : list (Qc * Qc)) : Qc :=
  match xy with
  | (x0, y0) :: (((x1, y1) :: _) as rest) =>
      ((x1 - x0) * (y0 + y1) * half + np_trapz rest)%Qc
  | _ => 0%Qc
  end.

(** ** Images *)

(** The pixel array of a [galsim.Image], row after row; its shape is its
    length. *)
Definition Image : Type := list Qc.

Definition img_scale (c : Qc) (im : Image) : Image := map (Qcmult c) im.

Fixpoint img_add (a b : Image) : Result Image :=
  match a, b with
  | [], [] => Ok []
  | x :: a', y :: b' =>
      match img_add a' b' with
      | Ok r => Ok ((x + y)%Qc :: r)
      | Raise e => Raise e
      end
  | _, _ => Raise ShapeMismatch
  end.

(** [sum(ims)] for a non-empty list of images (Python starts from [0], to
    which the first image is added). *)
Fixpoint img_sum_from (acc : Image) (ims : list Image) : Result Image :=
  match ims with
  | [] => Ok acc
  | im :: rest =>
      match img_add acc im with
      | Ok acc' => img_sum_from acc' rest
      | Raise e => Raise e
      end
  end.

Definition img_sum (ims : list Image) : Result Image :=
  match ims with
  | [] => Raise NoneOperand
  | im :: rest => img_sum_from im rest
  end.

(** ** Collaborators' data *)

Definition GSParams : Type := option nat.

(** A Jacobian [[dudx, dudy], [dvdx, dvdy]] and an offset [(dx, dy)]. *)
Definition Jac : Type := (Qc * Qc * Qc * Qc)%type.
Definition Offset : Type := (Qc * Qc)%type.

Definition identity2 : Jac := (1%Qc, 0%Qc, 0%Qc, 1%Qc).
Definition origin : Offset := (0%Qc, 0%Qc).

(** [jac2.dot(jac1)] and [jac2.dot(off1) + off2]. *)
Definition jac_dot (j2 j1 : Jac) : Jac :=
  let '(a, b, c, d) := j2 in
  let '(e, f, g, h) := j1 in
  (a * e + b * g, a * f + b * h, c * e + d * g, c * f + d * h)%Qc.

Definition jac_apply (j : Jac) (o : Offset) : Offset :=
  let '(a, b, c, d) := j in
  let '(x, y) := o in
  (a * x + b * y, c * x + d * y)%Qc.

Definition offset_add (o1 o2 : Offset) : Offset :=
  ((fst o1 + fst o2)%Qc, (snd o1 + snd o2)%Qc).

(** The monochromatic profiles ([galsim.GSObject]) the chromatic code builds:
    one constructor per factory it calls. *)
Inductive GSObject : Type :=
| GSProfile (name : nat)
| GSScaled (p : GSObject) (c : Qc)                               (* c * p *)
| GSAdd (l : list GSObject) (g : GSParams)                       (* galsim.Add *)
| GSConvolve (l : list GSObject) (g : GSParams)                  (* galsim.Convolve *)
| GSDeconvolve (p : GSObject) (kwargs : nat)                     (* galsim.Deconvolve *)
| GSAutoConvolve (p : GSObject) (kwargs : nat)                   (* galsim.AutoConvolve *)
| GSAutoCorrelate (p : GSObject) (kwargs : nat)                  (* galsim.AutoCorrelate *)
| GSFourierSqrt (p : GSObject) (kwargs : nat)                    (* galsim.FourierSqrt *)
| GSTransformation (p : GSObject) (jac : Jac) (offset : Offset)
    (flux_ratio : Qc) (g : GSParams)                             (* galsim.Transformation *)
| GSInterpolatedImage (im : Image) (force_stepk force_maxk : option Qc)
    (g : GSParams).                                              (* galsim.InterpolatedImage *)

(** [p / c]. *)
Definition gs_div (p : GSObject) (c : Qc) : Result GSObject :=
  (try r <- fdiv 1%Qc c; Ok (GSScaled p r))%result.

(** A scalar, or a function of wavelength ([hasattr(x, '__call__')]); a
    function is a Python object with an identity, and a call of it may raise. *)
Inductive WFun (A : Type) : Type :=
| WConst (a : A)
| WCall (id : nat) (f : Qc -> Result A).

Arguments WConst {A} a.
Arguments WCall {A} id f.

Definition is_callable {A : Type} (x : WFun A) : bool :=
  match x with WConst _ => false | WCall _ _ => true end.

Definition at_wave {A : Type} (x : WFun A) (w : Qc) : Result A :=
  match x with WConst a => Ok a | WCall _ f => f w end.

(** [galsim.SED]: a callable with a list of knots and an identity. *)
Record galsim_SED : Type := mkSED {
  sed_id : nat;
  sed_call : Qc -> Result Qc;
  sed_wave_list : list Qc
}.

(** [galsim.Bandpass]. *)
Record Bandpass : Type := mkBandpass {
  bp_id : nat;
  bp_call : Qc -> Qc;
  blue_limit : Qc;
  red_limit : Qc;
  effective_wavelength : Qc;
  bp_wave_list : list Qc
}.

(** The [flux_ratio] argument of a transformation: a scalar, a function of
    wavelength, or an SED. *)
Inductive FluxRatio : Type :=
| FRValue (x : WFun Qc)
| FRSED (s : galsim_SED).

(** The keyword arguments [drawImage] passes on to the renderer. *)
Record Kwargs : Type := mkKwargs {
  kw_add_to_image : option bool;
  kw_dtype : option nat;
  kw_scale : option Qc;
  kw_wcs : option nat;
  kw_nx : option Qc;
  kw_ny : option Qc;
  kw_bounds : option nat;
  kw_wmult : option Qc;
  kw_method : option string;
  kw_iimult : option Qc;
  kw_rest : list (string * Qc)
}.

Definition no_kwargs : Kwargs :=
  mkKwargs None None None None None None None None None None [].

(** [add_to_image=b, **kwargs], and [kwargs.pop('add_to_image', ...)]. *)
Definition set_add_to_image (b : option bool) (k : Kwargs) : Kwargs :=
  mkKwargs b (kw_dtype k) (kw_scale k) (kw_wcs k) (kw_nx k) (kw_ny k)
           (kw_bounds k) (kw_wmult k) (kw_method k) (kw_iimult k) (kw_rest k).

(** [iimult=x, **kwargs], and the keywords left once [iimult] is bound. *)
Definition set_iimult (x : option Qc) (k : Kwargs) : Kwargs :=
  mkKwargs (kw_add_to_image k) (kw_dtype k) (kw_scale k) (kw_wcs k) (kw_nx k) (kw_ny k)
           (kw_bounds k) (kw_wmult k) (kw_method k) x (kw_rest k).

(** [_remove_setup_kwargs]. *)
Definition _remove_setup_kwargs (k : Kwargs) : Kwargs :=
  mkKwargs (kw_add_to_image k) None None None None None None
           (kw_wmult k) (kw_method k) (kw_iimult k) (kw_rest k).

(** The [integrator] argument of [drawImage]: a string, one of the integrator
    objects of [galsim.integ] (with its rule), or anything else. *)
Inductive Rule : Type := np_trapz_rule | midpt_rule.

Inductive Integrator : Type :=
| IString (s : string)
| SampleIntegrator (rule : Rule)
| ContinuousIntegrator (rule : Rule) (N : nat)
| IOther (tag : nat).

(** ** Chromatic objects *)

(** The attributes every chromatic object carries. *)
Record Attrs : Type := mkAttrs {
  separable : bool;
  interpolated : bool;
  SED : option galsim_SED;
  _norm : option (WFun Qc);
  wave_list : list Qc
}.

(** What an [InterpolatedChromaticObject] stores besides its attributes and
    its original: the sorted wavelengths, the oversampling factor, and for
    each wavelength the image drawn there with its [stepK] and [maxK]. *)
Record Interpolation : Type := mkInterpolation {
  waves : list Qc;
  oversample : Qc;
  stepK_vals : list Qc;
  maxK_vals : list Qc;
  ims : list Image
}.

(** The three built-in chromatic PSF classes. *)
Inductive PSFClass : Type := Atmosphere | OpticalPSF | Airy.

(** One constructor per class.  The class [ChromaticObject] itself wraps a
    [GSObject] or another chromatic object; [ChromaticPSF] stands for
    [ChromaticAtmosphere], [ChromaticOpticalPSF] and [ChromaticAiry], whose
    attributes are initialised alike and whose monochromatic profile [mono] is
    computed by the collaborators they wrap. *)
Inductive ChromaticObject : Type :=
| ChromaticObject_gs (a : Attrs) (obj : GSObject)
| ChromaticObject_co (a : Attrs) (obj : ChromaticObject)
| InterpolatedChromaticObject (a : Attrs) (original : ChromaticObject)
    (tab : Interpolation)
| ChromaticPSF (a : Attrs) (cls : PSFClass) (mono : Qc -> GSObject)
| Chromatic (a : Attrs) (obj : GSObject)
| ChromaticTransformation (a : Attrs) (chromatic : bool) (original : ChromaticObject)
    (_jac : WFun Jac) (_offset : WFun Offset) (_flux_ratio : FluxRatio) (g : GSParams)
| ChromaticSum (a : Attrs) (objlist : list ChromaticObject) (g : GSParams)
| ChromaticConvolution (a : Attrs) (objlist : list ChromaticObject) (g : GSParams)
| ChromaticDeconvolution (a : Attrs) (obj : ChromaticObject) (kwargs : nat)
| ChromaticAutoConvolution (a : Attrs) (obj : ChromaticObject) (kwargs : nat)
| ChromaticAutoCorrelation (a : Attrs) (obj : ChromaticObject) (kwargs : nat)
| ChromaticFourierSqrtProfile (a : Attrs) (obj : ChromaticObject) (kwargs : nat).

Definition attrs (o : ChromaticObject) : Attrs :=
  match o with
  | ChromaticObject_gs a _ | ChromaticObject_co a _
  | InterpolatedChromaticObject a _ _ | ChromaticPSF a _ _
  | Chromatic a _ | ChromaticTransformation a _ _ _ _ _ _
  | ChromaticSum a _ _ | ChromaticConvolution a _ _
  | ChromaticDeconvolution a _ _ | ChromaticAutoConvolution a _ _
  | ChromaticAutoCorrelation a _ _ | ChromaticFourierSqrtProfile a _ _ => a
  end.

(** [isinstance(obj, galsim.ChromaticSum)] and the like. *)
Definition is_ChromaticSum (o : ChromaticObject) : bool :=
  match o with ChromaticSum _ _ _ => true | _ => false end.

Definition is_ChromaticConvolution (o : ChromaticObject) : bool :=
  match o with ChromaticConvolution _ _ _ => true | _ => false end.

Definition is_InterpolatedChromaticObject (o : ChromaticObject) : bool :=
  match o with InterpolatedChromaticObject _ _ _ => true | _ => false end.

Definition is_ChromaticTransformation (o : ChromaticObject) : bool :=
  match o with ChromaticTransformation _ _ _ _ _ _ _ => true | _ => false end.

(** ** The interpreter's state *)

(** The key of the multiplier cache: the SED and the bandpass (by identity)
    and [tuple(wave_list)]. *)
Definition MKey : Type := (nat * nat * list Qc)%type.

(** The key of the effective-profile cache:
    [(insep_obj, bandpass, iimult, wmult, integrator, gsparams)]. *)
Record EKey : Type := mkEKey {
  ek_obj : ChromaticObject;
  ek_bandpass : nat;
  ek_iimult : option Qc;
  ek_wmult : Qc;
  ek_integrator : Integrator;
  ek_gsparams : GSParams
}.

(** Modelled from the spec: [galsim.utilities.LRU_Cache] is not in these
    files.  A bounded memoization table, most recently used entry first; on a
    miss the function is called and its value stored, the least recently used
    entry leaving when the table is full. *)
Record LRU_Cache (K V : Type) : Type := mkCache {
  cache_entries : list (K * V);
  maxsize : nat
}.

Arguments mkCache {K V} cache_entries maxsize.
Arguments cache_entries {K V} l.
Arguments maxsize {K V} l.

(** A call of the renderer, [prof.drawImage(image=image, setup_only=..., **kwargs)]. *)
Record DrawCall : Type := mkDrawCall {
  dc_prof : GSObject;
  dc_image : option Image;
  dc_setup_only : bool;
  dc_kwargs : Kwargs
}.

Record St : Type := mkSt {
  next_id : nat;                                   (* the next fresh object identity *)
  _multiplier_cache : LRU_Cache MKey Qc;           (* ChromaticObject._multiplier_cache *)
  _effective_prof_cache : LRU_Cache EKey GSObject; (* ChromaticConvolution._effective_prof_cache *)
  draw_log : list DrawCall                         (* the renderer calls made so far, latest first *)
}.

(** The state of a new process: empty caches of size 10 and no drawing yet.
    The identities below 1000 are left to the objects that exist before, such
    as the spectra and bandpasses of the samples below. *)
Definition initial_state : St :=
  mkSt 1000 (mkCache [] 10) (mkCache [] 10) [].

Definition M (A : Type) : Type := St -> Result A * St.

Definition ret {A : Type} (a : A) : M A := fun st => (Ok a, st).

Definition raise {A : Type} (e : PyError) : M A := fun st => (Raise e, st).

Definition bind {A B : Type} (m : M A) (k : A -> M B) : M B :=
  fun st =>
    match m st with
    | (Ok a, st') => k a st'
    | (Raise e, st') => (Raise e, st')
    end.

Definition lift {A : Type} (r : Result A) : M A := fun st => (r, st).

Declare Scope monad_scope.
Delimit Scope monad_scope with monad.
Notation "x <- m ;; k" := (bind m (fun x => k))
  (at level 61, m at next level, right associativity) : monad_scope.
Notation "' p <- m ;; k" := (bind m (fun x => match x with p => k end))
  (at level 61, p pattern, m at next level, right associativity) : monad_scope.

(** The identity of a newly created Python object. *)
Definition fresh : M nat :=
  fun st =>
    (Ok (next_id st),
     mkSt (S (next_id st)) (_multiplier_cache st) (_effective_prof_cache st) (draw_log st)).

Definition log_draw (c : DrawCall) : M unit :=
  fun st =>
    (Ok tt,
     mkSt (next_id st) (_multiplier_cache st) (_effective_prof_cache st) (c :: draw_log st)).

Section Loops.
Context {A B : Type}.

Section Map.
Context (f : A -> M B).

(** [[f(a) for a in l]]. *)
Fixpoint mmap (l : list A) : M (list B) :=
  match l with
  | [] => ret []
  | a :: l' =>
      (b <- f a;;
       bs <- mmap l';;
       ret (b :: bs))%monad
  end.
End Map.

Section Fold.
Context (f : A -> B -> M A).

(** [for b in l: acc = f(acc, b)]. *)
Fixpoint mfold (l : list B) (acc : A) : M A :=
  match l with
  | [] => ret acc
  | b :: l' => (acc' <- f acc b;; mfold l' acc')%monad
  end.
End Fold.
End Loops.

(** *** The LRU cache *)

Fixpoint cache_find {K V : Type} (eqb : K -> K -> bool) (k : K) (l : list (K * V))
  : option V :=
  match l with
  | [] => None
  | (k', v) :: l' => if eqb k k' then Some v else cache_find eqb k l'
  end.

Fixpoint cache_remove {K V : Type} (eqb : K -> K -> bool) (k : K) (l : list (K * V))
  : list (K * V) :=
  match l with
  | [] => []
  | (k', v) :: l' => if eqb k k' then l' else (k', v) :: cache_remove eqb k l'
  end.

Definition cache_store {K V : Type} (eqb : K -> K -> bool) (k : K) (v : V)
  (c : LRU_Cache K V) : LRU_Cache K V :=
  mkCache (firstn (maxsize c) ((k, v) :: cache_remove eqb k (cache_entries c)))
          (maxsize c).

(** A call of the cached function at the key [k]. *)
Definition cache_call {K V : Type} (eqb : K -> K -> bool)
  (get : St -> LRU_Cache K V) (set : LRU_Cache K V -> St -> St)
  (k : K) (compute : M V) : M V :=
  fun st =>
    match cache_find eqb k (cache_entries (get st)) with
    | Some v => (Ok v, set (cache_store eqb k v (get st)) st)
    | None =>
        match compute st with
        | (Ok v, st') => (Ok v, set (cache_store eqb k v (get st')) st')
        | (Raise e, st') => (Raise e, st')
        end
    end.

Definition set_multiplier_cache (c : LRU_Cache MKey Qc) (st : St) : St :=
  mkSt (next_id st) c (_effective_prof_cache st) (draw_log st).

Definition set_effective_prof_cache (c : LRU_Cache EKey GSObject) (st : St) : St :=
  mkSt (next_id st) (_multiplier_cache st) c (draw_log st).

(** [resize_multiplier_cache] and [resize_effective_prof_cache]. *)
Definition cache_resize {K V : Type} (n : nat) (c : LRU_Cache K V) : LRU_Cache K V :=
  mkCache (firstn n (cache_entries c)) n.

Definition resize_multiplier_cache (n : nat) : M unit :=
  fun st => (Ok tt, set_multiplier_cache (cache_resize n (_multiplier_cache st)) st).

Definition resize_effective_prof_cache (n : nat) : M unit :=
  fun st => (Ok tt, set_effective_prof_cache (cache_resize n (_effective_prof_cache st)) st).

(** Equality of keys. *)
Fixpoint list_Qc_eqb (a b : list Qc) : bool :=
  match a, b with
  | [], [] => true
  | x :: a', y :: b' => Qceqb x y && list_Qc_eqb a' b'
  | _, _ => false
  end.

Definition MKey_eqb (k1 k2 : MKey) : bool :=
  let '(s1, b1, w1) := k1 in
  let '(s2, b2, w2) := k2 in
  Nat.eqb s1 s2 && Nat.eqb b1 b2 && list_Qc_eqb w1 w2.

Definition option_eqb {A : Type} (eqb : A -> A -> bool) (x y : option A) : bool :=
  match x, y with
  | None, None => true
  | Some a, Some b => eqb a b
  | _, _ => false
  end.

Definition Rule_eqb (r1 r2 : Rule) : bool :=
  match r1, r2 with
  | np_trapz_rule, np_trapz_rule | midpt_rule, midpt_rule => true
  | _, _ => false
  end.

Definition Integrator_eqb (i1 i2 : Integrator) : bool :=
  match i1, i2 with
  | IString s1, IString s2 => String.eqb s1 s2
  | SampleIntegrator r1, SampleIntegrator r2 => Rule_eqb r1 r2
  | ContinuousIntegrator r1 n1, ContinuousIntegrator r2 n2 => Rule_eqb r1 r2 && Nat.eqb n1 n2
  | IOther t1, IOther t2 => Nat.eqb t1 t2
  | _, _ => false
  end.

(** ** The collaborators *)

(** What the chromatic code asks of the rest of GalSim. *)
Record External : Type := mkExternal {
  gs_flux : GSObject -> Qc;                          (* prof.flux, prof.getFlux() *)
  gs_nyquistScale : GSObject -> Qc;                  (* prof.nyquistScale() *)
  gs_getGoodImageSize : GSObject -> Qc -> Qc;        (* prof.SBProfile.getGoodImageSize(scale, 1.0) *)
  gs_stepK : GSObject -> Qc;                         (* prof.stepK() *)
  gs_maxK : GSObject -> Qc;                          (* prof.maxK() *)
  (* prof.drawImage(image=image, setup_only=..., **kwargs) *)
  gs_drawImage : GSObject -> option Image -> bool -> Kwargs -> Result Image;
  (* galsim.integ.int1d(f, a, b) *)
  integ_int1d : (Qc -> Result Qc) -> Qc -> Qc -> Result Qc;
  (* integrator(evaluateAtWavelength, bandpass, image, kwargs) and integrator.last_n_eval *)
  integ_call : Integrator -> (Qc -> Result GSObject) -> Bandpass -> Image -> Kwargs
               -> Result (Image * nat);
  (* galsim.Bandpass(galsim.LookupTable(x, f, interpolant='linear'), 'nm'), a new object *)
  lookup_bandpass : nat -> list Qc -> list Qc -> Bandpass;
  math_sqrt : Qc -> Qc;                              (* math.sqrt on a non-negative float *)
  (* == on chromatic objects, as the effective-profile cache compares its keys *)
  chromatic_eqb : ChromaticObject -> ChromaticObject -> bool
}.

(** *** Spectra and functions of wavelength *)

(** Modelled from the spec: [galsim.SED] is not in these files.  The spec
    gives a spectral density an evaluation at a wavelength, a list of knots
    and a scaling by a multiplier; every arithmetic operation returns a new
    object. *)
Definition sed_mul (s : galsim_SED) (x : WFun Qc) : M galsim_SED :=
  (id <- fresh;;
   ret (mkSED id (fun w => (try a <- sed_call s w; try b <- at_wave x w; Ok (a * b)%Qc)%result)
              (sed_wave_list s)))%monad.

Definition sed_add (s1 s2 : galsim_SED) : M galsim_SED :=
  (id <- fresh;;
   ret (mkSED id
          (fun w => (try a <- sed_call s1 w; try b <- sed_call s2 w; Ok (a + b)%Qc)%result)
          (np_union1d (sed_wave_list s1) (sed_wave_list s2))))%monad.

(** [SED * x] and [x * SED] when either side may be [None]. *)
Definition sed_mul_opt (s : option galsim_SED) (x : option (WFun Qc)) : M galsim_SED :=
  match s, x with
  | Some s', Some x' => sed_mul s' x'
  | _, _ => raise NoneOperand
  end.

(** Modelled from the spec: [galsim.utilities.functionize] is not in these
    files.  A function of scalars lifted to arguments that are scalars or
    functions of wavelength: a scalar when every argument is one, a new
    function otherwise. *)
Definition functionize2 {A B C : Type} (f : A -> B -> C) (x : WFun A) (y : WFun B)
  : M (WFun C) :=
  match x, y with
  | WConst a, WConst b => ret (WConst (f a b))
  | _, _ =>
      (id <- fresh;;
       ret (WCall id (fun w =>
              (try a <- at_wave x w; try b <- at_wave y w; Ok (f a b))%result)))%monad
  end.

Definition functionize3 {A B C D : Type} (f : A -> B -> C -> D)
  (x : WFun A) (y : WFun B) (z : WFun C) : M (WFun D) :=
  match x, y, z with
  | WConst a, WConst b, WConst c => ret (WConst (f a b c))
  | _, _, _ =>
      (id <- fresh;;
       ret (WCall id (fun w =>
              (try a <- at_wave x w; try b <- at_wave y w; try c <- at_wave z w;
               Ok (f a b c))%result)))%monad
  end.

(** [lambda w: ...], a new function. *)
Definition lambda {B : Type} (f : Qc -> Result B) : M (WFun B) :=
  (id <- fresh;; ret (WCall id f))%monad.

(** Modelled from the spec: [galsim.utilities.combine_wave_list] is not in
    these files.  The set union of the wave lists of its arguments. *)
Definition combine_wave_list (ls : list (list Qc)) : list Qc :=
  fold_left np_union1d ls [].

(** ** Interpolation between stored images *)

(** [_findWave]: the index below [wave] in the sorted [wave_list], and the
    fraction of the way to the next entry. *)
Definition _findWave (wave_list : list Qc) (wave : Qc) : Result (Z * Qc) :=
  let len := Z.of_nat (List.length wave_list) in
  let lower_idx := (np_searchsorted wave_list wave - 1)%Z in
  let lower_idx := if (lower_idx <? 0)%Z then 0%Z else lower_idx in
  let lower_idx := if (lower_idx >? len - 1)%Z then (len - 1)%Z else lower_idx in
  (try below <- item wave_list lower_idx;
   try above <- item wave_list (lower_idx + 1);
   try frac <- fdiv (wave - below) (above - below);
   Ok (lower_idx, frac))%result.

(** [_linearInterp], for values with a scaling and a (possibly failing)
    addition: [frac*list[lower_idx+1] + (1.-frac)*list[lower_idx]]. *)
Definition _linearInterp {A : Type} (scale : Qc -> A -> A) (add : A -> A -> Result A)
  (list : list A) (frac : Qc) (lower_idx : Z) : Result A :=
  (try above <- item list (lower_idx + 1);
   try below <- item list lower_idx;
   add (scale frac above) (scale (1 - frac)%Qc below))%result.

Definition float_add (x y : Qc) : Result Qc := Ok (x + y)%Qc.

(** [InterpolatedChromaticObject._imageAtWavelength]. *)
Definition _imageAtWavelength (self : Interpolation) (wave : Qc)
  : Result (Image * Qc * Qc) :=
  (try lo <- np_min (waves self);
   if Qcltb wave lo then Raise OutOfRange
   else
     try hi <- np_max (waves self);
     if Qcltb hi wave then Raise OutOfRange
     else
       try ' (lower_idx, frac) <- _findWave (waves self) wave;
       try im <- _linearInterp img_scale img_add (ims self) frac lower_idx;
       try stepk <- _linearInterp Qcmult float_add (stepK_vals self) frac lower_idx;
       try maxk <- _linearInterp Qcmult float_add (maxK_vals self) frac lower_idx;
       Ok (im, stepk, maxk))%result.

(** [InterpolatedChromaticObject.evaluateAtWavelength]. *)
Definition Interpolated_evaluateAtWavelength (self : Interpolation) (wave : Qc)
  : Result GSObject :=
  (try ' (im, stepk, maxk) <- _imageAtWavelength self wave;
   Ok (GSInterpolatedImage im (Some stepk) (Some maxk) None))%result.

(** ** [evaluateAtWavelength] *)

(** [ChromaticTransformation._getTransformations]. *)
Definition flux_ratio_at (f : FluxRatio) (wave : Qc) : Result Qc :=
  match f with
  | FRValue x => at_wave x wave
  | FRSED s => sed_call s wave
  end.

Definition _getTransformations (_jac : WFun Jac) (_offset : WFun Offset)
  (_flux_ratio : FluxRatio) (wave : Qc) : Result (Jac * Offset * Qc) :=
  (try jac <- at_wave _jac wave;
   try offset <- at_wave _offset wave;
   try flux_ratio <- flux_ratio_at _flux_ratio wave;
   Ok (jac, offset, flux_ratio))%result.

(** The method each class defines; the class [ChromaticObject] itself
    delegates to the object it wraps, and a monochromatic profile is its own
    evaluation at every wavelength. *)
Fixpoint evaluateAtWavelength (self : ChromaticObject) (wave : Qc) : Result GSObject :=
  match self with
  | ChromaticObject_gs _ obj => Ok obj
  | ChromaticObject_co _ obj => evaluateAtWavelength obj wave
  | InterpolatedChromaticObject _ _ tab => Interpolated_evaluateAtWavelength tab wave
  | ChromaticPSF _ _ mono => Ok (mono wave)
  | Chromatic a obj =>
      match SED a with
      | Some sed => (try c <- sed_call sed wave; Ok (GSScaled obj c))%result
      | None => Raise NoneOperand
      end
  | ChromaticTransformation _ _ original _jac _offset _flux_ratio g =>
      (try ret <- evaluateAtWavelength original wave;
       try ' (jac, offset, flux_ratio) <- _getTransformations _jac _offset _flux_ratio wave;
       Ok (GSTransformation ret jac offset flux_ratio g))%result
  | ChromaticSum _ objlist g =>
      (try l <- rmap (fun obj => evaluateAtWavelength obj wave) objlist;
       Ok (GSAdd l g))%result
  | ChromaticConvolution _ objlist g =>
      (try l <- rmap (fun obj => evaluateAtWavelength obj wave) objlist;
       Ok (GSConvolve l g))%result
  | ChromaticDeconvolution _ obj kwargs =>
      (try p <- evaluateAtWavelength obj wave; Ok (GSDeconvolve p kwargs))%result
  | ChromaticAutoConvolution _ obj kwargs =>
      (try p <- evaluateAtWavelength obj wave; Ok (GSAutoConvolve p kwargs))%result
  | ChromaticAutoCorrelation _ obj kwargs =>
      (try p <- evaluateAtWavelength obj wave; Ok (GSAutoCorrelate p kwargs))%result
  | ChromaticFourierSqrtProfile _ obj kwargs =>
      (try p <- evaluateAtWavelength obj wave; Ok (GSFourierSqrt p kwargs))%result
  end.

(** ** Constructors *)

(** [hasattr(obj, 'gsparams')]: the classes that store [gsparams]. *)
Definition gsparams_of (o : ChromaticObject) : GSParams :=
  match o with
  | ChromaticTransformation _ _ _ _ _ _ g
  | ChromaticSum _ _ g
  | ChromaticConvolution _ _ g => g
  | _ => None
  end.

Definition fr_as_wfun (f : FluxRatio) : WFun Qc :=
  match f with
  | FRValue x => x
  | FRSED s => WCall (sed_id s) (sed_call s)
  end.

(** The key under which [ChromaticSum.__init__] files a summand in
    [norm_dict]: its [SED] or its [_norm].  Modelled from the spec: SEDs and
    functions are keys by identity, floats by value. *)
Inductive NormKey : Type :=
| KNone
| KSED (s : galsim_SED)
| KNorm (x : WFun Qc).

Definition NormKey_eqb (k1 k2 : NormKey) : bool :=
  match k1, k2 with
  | KNone, KNone => true
  | KSED s1, KSED s2 => Nat.eqb (sed_id s1) (sed_id s2)
  | KNorm (WConst x), KNorm (WConst y) => Qceqb x y
  | KNorm (WCall i _), KNorm (WCall j _) => Nat.eqb i j
  | _, _ => false
  end.

Definition norm_key (isSEDed : bool) (obj : ChromaticObject) : NormKey :=
  if isSEDed
  then match SED (attrs obj) with Some s => KSED s | None => KNone end
  else match _norm (attrs obj) with Some x => KNorm x | None => KNone end.

(** [norm_dict[key].append(obj)], creating the entry when [key] is new; the
    dictionary keeps its keys in the order they were first seen. *)
Fixpoint norm_dict_append (key : NormKey) (obj : ChromaticObject)
  (d : list (NormKey * list ChromaticObject)) : list (NormKey * list ChromaticObject) :=
  match d with
  | [] => [(key, [obj])]
  | (k, v) :: d' =>
      if NormKey_eqb key k then (k, v ++ [obj]) :: d'
      else (k, v) :: norm_dict_append key obj d'
  end.

(** The loop of [ChromaticSum.__init__] that sorts the summands: the
    dictionary of the separable ones and the list of the others. *)
Fixpoint sort_summands (isSEDed : bool) (args : list ChromaticObject)
  (norm_dict : list (NormKey * list ChromaticObject)) (objlist : list ChromaticObject)
  : list (NormKey * list ChromaticObject) * list ChromaticObject :=
  match args with
  | [] => (norm_dict, objlist)
  | obj :: rest =>
      if separable (attrs obj)
      then sort_summands isSEDed rest
             (norm_dict_append (norm_key isSEDed obj) obj norm_dict) objlist
      else sort_summands isSEDed rest norm_dict (objlist ++ [obj])
  end.

(** The arguments of [ChromaticSum(...)] and [ChromaticConvolution(...)]:
    the objects one by one, or one list of them.  (The keyword arguments
    other than [gsparams] are checked before anything else and play no part
    below: the model starts after that check.) *)
Inductive Args : Type :=
| Star (args : list ChromaticObject)
| OneList (l : list ChromaticObject).

Definition unpack_args (a : Args) : Result (list ChromaticObject) :=
  match a with
  | Star [] => Raise NoArguments
  | Star args => Ok args
  | OneList l => Ok l
  end.

(** What may be passed to [ChromaticObject(obj)]: a profile, a chromatic
    object, or any other Python object, which has the attributes
    [separable], [interpolated] and [wave_list] or lacks one of them. *)
Inductive PyObject : Type :=
| PyGSObject (g : GSObject)
| PyChromatic (c : ChromaticObject)
| PyOther (has_attributes : bool).

Section Init.
Context (ext : External).
(** The property [obj.deinterpolated]; it is defined with [_deinterpolate]
    below, which itself calls the constructors. *)
Context (deinterpolated : ChromaticObject -> M ChromaticObject).

(** [ChromaticObject.__init__]; a [GSObject] is separable, not interpolated
    and has no knots.  The attributes [separable], [interpolated] and
    [wave_list] of the argument are read before its type is tested. *)
Definition ChromaticObject_init (obj : PyObject) : M ChromaticObject :=
  match obj with
  | PyGSObject g =>
      if Qceqb (gs_flux ext g) 1%Qc
      then ret (ChromaticObject_gs (mkAttrs true false None (Some (WConst 1%Qc)) []) g)
      else
        (id <- fresh;;
         let sed := mkSED id (fun _ => Ok (gs_flux ext g)) [] in
         obj' <- lift (gs_div g (gs_flux ext g));;
         ret (ChromaticObject_gs (mkAttrs true false (Some sed) None []) obj'))%monad
  | PyChromatic c =>
      ret (ChromaticObject_co
             (mkAttrs (separable (attrs c)) (interpolated (attrs c))
                      (SED (attrs c)) (_norm (attrs c)) (wave_list (attrs c))) c)
  | PyOther has_attributes =>
      if has_attributes then raise InvalidArgument else raise MissingAttribute
  end.

(** [Chromatic.__init__]. *)
Definition Chromatic_init (gsobj : GSObject) (sed : galsim_SED) : M ChromaticObject :=
  (let flux := gs_flux ext gsobj in
   sed' <- sed_mul sed (WConst flux);;
   obj <- lift (gs_div gsobj flux);;
   ret (Chromatic (mkAttrs true false (Some sed') None (sed_wave_list sed)) obj))%monad.

(** The built-in PSF classes: [ChromaticAtmosphere.__init__],
    [ChromaticOpticalPSF.__init__], [ChromaticAiry.__init__]. *)
Definition ChromaticPSF_init (cls : PSFClass) (mono : Qc -> GSObject) : M ChromaticObject :=
  ret (ChromaticPSF (mkAttrs false false None (Some (WConst 1%Qc)) []) cls mono).

(** [InterpolatedChromaticObject.__init__]. *)
Definition InterpolatedChromaticObject_init_with (original : ChromaticObject)
  (waves : list Qc) (oversample_fac : Qc) : M ChromaticObject :=
  (let a := mkAttrs (separable (attrs original)) true (SED (attrs original))
                    (_norm (attrs original)) (wave_list (attrs original)) in
   original' <- deinterpolated original;;
   let waves := np_sort waves in
   objs <- lift (rmap (evaluateAtWavelength original) waves);;
   let nyquist_scale_vals := map (gs_nyquistScale ext) objs in
   smallest <- lift (np_min nyquist_scale_vals);;
   scale <- lift (fdiv smallest oversample_fac);;
   let possible_im_sizes := map (fun obj => gs_getGoodImageSize ext obj scale) objs in
   im_size <- lift (np_max possible_im_sizes);;
   let stepK_vals := map (gs_stepK ext) objs in
   let maxK_vals := map (gs_maxK ext) objs in
   let kw := mkKwargs None None (Some scale) None (Some im_size) (Some im_size)
                      None None (Some "no_pixel"%string) None [] in
   ims <- mmap (fun obj =>
                  _ <- log_draw (mkDrawCall obj None false kw);;
                  lift (gs_drawImage ext obj None false kw)) objs;;
   ret (InterpolatedChromaticObject a original'
          (mkInterpolation waves oversample_fac stepK_vals maxK_vals ims)))%monad.

(** [ChromaticTransformation.__init__].  [jac] and [offset] arrive as
    arrays or functions. *)
Definition ChromaticTransformation_init_with (obj : ChromaticObject)
  (jac : WFun Jac) (offset : WFun Offset) (flux_ratio : FluxRatio) (gsparams : GSParams)
  : M ChromaticObject :=
  (let chromatic := is_callable jac || is_callable offset
                    || is_callable (fr_as_wfun flux_ratio) in
   let separable' := separable (attrs obj) && negb chromatic in
   '(sed, norm) <-
      match flux_ratio with
      | FRSED s =>
          match SED (attrs obj) with
          | Some _ => raise (InvalidComposition SecondSEDAttached)
          | None =>
              match _norm (attrs obj) with
              | Some n => (sed' <- sed_mul s n;; ret (Some sed', None))
              | None => raise NoneOperand
              end
          end
      | FRValue x =>
          match SED (attrs obj) with
          | Some s => (sed' <- sed_mul s x;; ret (Some sed', None))
          | None =>
              match _norm (attrs obj) with
              | Some n => (n' <- functionize2 Qcmult n x;; ret (None, Some n'))
              | None => raise NoneOperand
              end
          end
      end;;
   obj <- (if interpolated (attrs obj) && chromatic then deinterpolated obj else ret obj);;
   let interpolated' := interpolated (attrs obj) in
   '(original, _jac, _offset, _flux_ratio) <-
      match obj with
      | ChromaticTransformation _ _ original1 jac1 off1 flx1 _ =>
          (_jac <- functionize2 (fun j1 j2 => jac_dot j2 j1) jac1 jac;;
           _offset <- functionize3 (fun j2 o1 o2 => offset_add (jac_apply j2 o1) o2)
                        jac off1 offset;;
           _flux_ratio <- functionize2 Qcmult (fr_as_wfun flx1) (fr_as_wfun flux_ratio);;
           ret (original1, _jac, _offset, FRValue _flux_ratio))
      | _ => ret (obj, jac, offset, flux_ratio)
      end;;
   let wave_list' :=
     match sed with
     | Some s => combine_wave_list [wave_list (attrs original); sed_wave_list s]
     | None => wave_list (attrs original)
     end in
   let gsparams' :=
     match gsparams with
     | None => gsparams_of original
     | Some _ => gsparams
     end in
   ret (ChromaticTransformation (mkAttrs separable' interpolated' sed norm wave_list')
          chromatic original _jac _offset _flux_ratio gsparams'))%monad.

(** The normalisation of a sum that is not separable, when no summand has
    an SED.  If every [_norm] is a scalar it is their sum.  Otherwise the
    source rebinds [self._norm] to [lambda w: self._norm(w) + ...] once per
    summand: the name [self._norm] is looked up when the function is called,
    by which time it is the last of these functions itself, so that every
    call of the function stored ends in the recursion limit. *)
Definition sum_of_norms (objlist : list ChromaticObject) : M (WFun Qc) :=
  if existsb (fun obj => match _norm (attrs obj) with
                         | Some n => is_callable n
                         | None => false
                         end) objlist
  then lambda (fun _ => Raise RecursionDepth)
  else
    (norms <- lift (rmap (fun obj => match _norm (attrs obj) with
                                      | Some (WConst x) => Ok x
                                      | _ => Raise NoneOperand
                                      end) objlist);;
     ret (WConst (fold_left Qcplus norms 0%Qc)))%monad.

(** [self.SED = self.objlist[0].SED; for obj in self.objlist[1:]: self.SED += obj.SED]. *)
Definition sum_of_SEDs (objlist : list ChromaticObject) : M (option galsim_SED) :=
  match objlist with
  | [] => raise IndexOutOfBounds
  | first :: rest =>
      mfold (fun acc obj =>
               match acc, SED (attrs obj) with
               | Some s1, Some s2 => (s <- sed_add s1 s2;; ret (Some s))
               | _, _ => raise NoneOperand
               end) rest (SED (attrs first))
  end%monad.

(** [ChromaticSum.__init__]; [fuel] bounds the depth of the nested
    [ChromaticSum(v)] calls. *)
Fixpoint ChromaticSum_init_fuel (fuel : nat) (args : Args) (gsparams : GSParams)
  : M ChromaticObject :=
  match fuel with
  | O => raise RecursionDepth
  | S fuel' =>
      (args <- lift (unpack_args args);;
       let interpolated' := existsb (fun arg => interpolated (attrs arg)) args in
       let isSEDed := existsb (fun a =>
                        match SED (attrs a) with Some _ => true | None => false end) args in
       let isNormed := existsb (fun a =>
                        match _norm (attrs a) with Some _ => true | None => false end) args in
       if isSEDed && isNormed then raise (InvalidComposition MixedSum)
       else
         let '(norm_dict, objlist) := sort_summands isSEDed args [] [] in
         let separable' := Nat.eqb (List.length objlist) 0
                           && Nat.eqb (List.length norm_dict) 1 in
         '(objlist, sed, norm) <-
            (if separable'
             then
               match norm_dict with
               | (the_one_norm, v) :: _ =>
                   let n := qz (Z.of_nat (List.length v)) in
                   if isSEDed
                   then match the_one_norm with
                        | KSED s => (sed <- sed_mul s (WConst n);; ret (v, Some sed, None))
                        | _ => raise NoneOperand
                        end
                   else match the_one_norm with
                        | KNorm (WCall _ f) =>
                            (norm <- lambda (fun w => (try x <- f w; Ok (x * n)%Qc)%result);;
                             ret (v, None, Some norm))
                        | KNorm (WConst x) =>
                            ret (v, None, Some (WConst (x * n)%Qc))
                        | _ => raise NoneOperand
                        end
               | [] => raise IndexOutOfBounds
               end
             else
               (partial <- mmap (fun kv : NormKey * list ChromaticObject =>
                                   match snd kv with
                                   | [v0] => ret v0
                                   | v => ChromaticSum_init_fuel fuel' (OneList v) None
                                   end) norm_dict;;
                let objlist := objlist ++ partial in
                if isSEDed
                then (sed <- sum_of_SEDs objlist;; ret (objlist, sed, None))
                else (norm <- sum_of_norms objlist;; ret (objlist, None, Some norm))));;
         let wave_list' := fold_left (fun acc obj => np_union1d acc (wave_list (attrs obj)))
                                     objlist [] in
         ret (ChromaticSum (mkAttrs separable' interpolated' sed norm wave_list')
                objlist gsparams))%monad
  end.

Definition ChromaticSum_init : Args -> GSParams -> M ChromaticObject :=
  ChromaticSum_init_fuel 2.

(** [ChromaticObject.__add__]. *)
Definition __add__ (self other : ChromaticObject) : M ChromaticObject :=
  ChromaticSum_init (OneList [self; other]) None.

(** The first loop of [ChromaticConvolution.__init__]: the SED and the
    product of the [_norm]s of the convolutants. *)
Definition accumulate_norms (args : list ChromaticObject)
  : M (option galsim_SED * WFun Qc) :=
  mfold (fun (acc : option galsim_SED * WFun Qc) obj =>
           let '(sed, norm) := acc in
           match SED (attrs obj) with
           | Some s =>
               match sed with
               | None => ret (Some s, norm)
               | Some _ => raise (InvalidComposition TwoSEDsConvolved)
               end
           | None =>
               match _norm (attrs obj) with
               | Some n => (norm' <- functionize2 Qcmult norm n;; ret (sed, norm'))
               | None => raise NoneOperand
               end
           end%monad) args (None, WConst 1%Qc).

(** "Unfold convolution of convolution." *)
Definition unfold_convolutions (args : list ChromaticObject) : list ChromaticObject :=
  flat_map (fun obj => match obj with
                       | ChromaticConvolution _ objlist _ => objlist
                       | _ => [obj]
                       end) args.

(** [ChromaticConvolution.__init__]. *)
Definition ChromaticConvolution_init (args : Args) (gsparams : GSParams)
  : M ChromaticObject :=
  (args <- lift (unpack_args args);;
   '(sed, norm) <- accumulate_norms args;;
   '(sed, norm) <-
      match sed with
      | Some s => (s' <- sed_mul s norm;; ret (Some s', None))
      | None => ret (None, Some norm)
      end;;
   let objlist := unfold_convolutions args in
   let separable' := forallb (fun obj => separable (attrs obj)) objlist in
   let interpolated' := existsb (fun obj => interpolated (attrs obj)) objlist in
   let wave_list' := combine_wave_list (map (fun obj => wave_list (attrs obj)) objlist) in
   ret (ChromaticConvolution (mkAttrs separable' interpolated' sed norm wave_list')
          objlist gsparams))%monad.

(** The attributes [ChromaticDeconvolution], [ChromaticAutoConvolution],
    [ChromaticAutoCorrelation] and [ChromaticFourierSqrtProfile] set, given
    what each does to a [_norm] value and the exception it raises when the
    object has an SED. *)
Definition unary_attrs (fault : Composition) (on_norm : Qc -> Result Qc)
  (obj : ChromaticObject) : M Attrs :=
  match SED (attrs obj) with
  | Some _ => raise (InvalidComposition fault)
  | None =>
      (norm <-
         match _norm (attrs obj) with
         | Some (WCall _ f) => lambda (fun w => (try x <- f w; on_norm x)%result)
         | Some (WConst x) => (y <- lift (on_norm x);; ret (WConst y))
         | None => raise NoneOperand
         end;;
       ret (mkAttrs (separable (attrs obj)) (interpolated (attrs obj)) None
                    (Some norm) (wave_list (attrs obj))))%monad
  end.

(** [ChromaticDeconvolution.__init__]. *)
Definition ChromaticDeconvolution_init (obj : ChromaticObject) (kwargs : nat)
  : M ChromaticObject :=
  (a <- unary_attrs SEDDeconvolved (fdiv 1%Qc) obj;;
   ret (ChromaticDeconvolution a obj kwargs))%monad.

(** [ChromaticAutoConvolution.__init__]. *)
Definition ChromaticAutoConvolution_init (obj : ChromaticObject) (kwargs : nat)
  : M ChromaticObject :=
  (a <- unary_attrs SEDAutoConvolved (fun x => Ok (x * x)%Qc) obj;;
   ret (ChromaticAutoConvolution a obj kwargs))%monad.

(** [ChromaticAutoCorrelation.__init__]. *)
Definition ChromaticAutoCorrelation_init (obj : ChromaticObject) (kwargs : nat)
  : M ChromaticObject :=
  (a <- unary_attrs SEDAutoCorrelated (fun x => Ok (x * x)%Qc) obj;;
   ret (ChromaticAutoCorrelation a obj kwargs))%monad.

(** [ChromaticFourierSqrtProfile.__init__]. *)
Definition ChromaticFourierSqrtProfile_init (obj : ChromaticObject) (kwargs : nat)
  : M ChromaticObject :=
  (a <- unary_attrs SEDFourierSqrt
          (fun x => if Qcltb x 0%Qc then Raise MathDomain else Ok (math_sqrt ext x)) obj;;
   ret (ChromaticFourierSqrtProfile a obj kwargs))%monad.
End Init.

(** ** Deinterpolation and flux scaling *)

(** [_deinterpolate], one case per class; [fuel] bounds the depth of the
    calls, as the interpreter's recursion limit does. *)
Fixpoint _deinterpolate (ext : External) (fuel : nat) (self : ChromaticObject)
  : M ChromaticObject :=
  match fuel with
  | O => raise RecursionDepth
  | S fuel' =>
      let deinterpolated := _deinterpolate ext fuel' in
      match self with
      | ChromaticObject_gs _ _ => ret self
      | ChromaticObject_co _ obj => deinterpolated obj
      | InterpolatedChromaticObject _ original _ => ret original
      | ChromaticPSF _ _ _ | Chromatic _ _ => ret self
      | ChromaticTransformation a _ original _jac _offset _flux_ratio g =>
          if interpolated a
          then (original' <- deinterpolated original;;
                ChromaticTransformation_init_with deinterpolated original'
                  _jac _offset _flux_ratio g)%monad
          else ret self
      | ChromaticSum a objlist g =>
          if interpolated a
          then (l <- mmap deinterpolated objlist;; ChromaticSum_init (OneList l) g)%monad
          else ret self
      | ChromaticConvolution a objlist g =>
          if interpolated a
          then (l <- mmap deinterpolated objlist;;
                ChromaticConvolution_init (OneList l) g)%monad
          else ret self
      | ChromaticDeconvolution a obj kwargs =>
          if interpolated a
          then (obj' <- deinterpolated obj;; ChromaticDeconvolution_init obj' kwargs)%monad
          else ret self
      | ChromaticAutoConvolution a obj kwargs =>
          if interpolated a
          then (obj' <- deinterpolated obj;; ChromaticAutoConvolution_init obj' kwargs)%monad
          else ret self
      | ChromaticAutoCorrelation a obj kwargs =>
          if interpolated a
          then (obj' <- deinterpolated obj;; ChromaticAutoCorrelation_init obj' kwargs)%monad
          else ret self
      | ChromaticFourierSqrtProfile a obj kwargs =>
          if interpolated a
          then (obj' <- deinterpolated obj;;
                ChromaticFourierSqrtProfile_init ext obj' kwargs)%monad
          else ret self
      end
  end.

(** The interpreter's default recursion limit. *)
Definition recursion_limit : nat := 1000.

(** The property [deinterpolated]. *)
Definition deinterpolated (ext : External) : ChromaticObject -> M ChromaticObject :=
  _deinterpolate ext recursion_limit.

Definition InterpolatedChromaticObject_init (ext : External)
  : ChromaticObject -> list Qc -> Qc -> M ChromaticObject :=
  InterpolatedChromaticObject_init_with ext (deinterpolated ext).

Definition ChromaticTransformation_init (ext : External)
  : ChromaticObject -> WFun Jac -> WFun Offset -> FluxRatio -> GSParams -> M ChromaticObject :=
  ChromaticTransformation_init_with (deinterpolated ext).

(** [interpolate]. *)
Definition interpolate (ext : External) (self : ChromaticObject) (waves : list Qc)
  (oversample_fac : Qc) : M ChromaticObject :=
  InterpolatedChromaticObject_init ext self waves oversample_fac.

(** [withScaledFlux], and with it [__mul__]: [galsim.Transform(self,
    flux_ratio=flux_ratio)], except for a sum, which scales its summands. *)
Fixpoint withScaledFlux (ext : External) (self : ChromaticObject) (flux_ratio : FluxRatio)
  : M ChromaticObject :=
  match self with
  | ChromaticSum _ objlist _ =>
      (l <- mmap (fun obj => withScaledFlux ext obj flux_ratio) objlist;;
       ChromaticSum_init (OneList l) None)%monad
  | _ =>
      ChromaticTransformation_init ext self (WConst identity2) (WConst origin)
        flux_ratio None
  end.

Definition __mul__ := withScaledFlux.

(** ** Drawing *)

Section Draw.
Context (ext : External).

(** A call of the renderer, [prof.drawImage(image=image, setup_only=...,
    **kwargs)], recorded in the log. *)
Definition gs_draw (prof : GSObject) (image : option Image) (setup_only : bool)
  (kwargs : Kwargs) : M Image :=
  (_ <- log_draw (mkDrawCall prof image setup_only kwargs);;
   lift (gs_drawImage ext prof image setup_only kwargs))%monad.

(** [ChromaticObject._get_multiplier]. *)
Definition _get_multiplier (sed : galsim_SED) (bandpass : Bandpass) (wave_list : list Qc)
  : Result Qc :=
  if (0 <? List.length wave_list)%nat
  then
    (try y <- rmap (fun w => try s <- sed_call sed w; Ok (s * bp_call bandpass w)%Qc)
                   wave_list;
     Ok (np_trapz (combine wave_list y)))%result
  else
    integ_int1d ext
      (fun w => (try s <- sed_call sed w; Ok (s * bp_call bandpass w)%Qc)%result)
      (blue_limit bandpass) (red_limit bandpass).

(** [ChromaticObject._multiplier_cache(sed, bandpass, tuple(wave_list))]. *)
Definition _multiplier_cache_call (sed : galsim_SED) (bandpass : Bandpass)
  (wave_list : list Qc) : M Qc :=
  cache_call MKey_eqb _multiplier_cache set_multiplier_cache
    (sed_id sed, bp_id bandpass, wave_list)
    (lift (_get_multiplier sed bandpass wave_list)).

Definition Qcabs (x : Qc) : Qc := if Qcltb x 0%Qc then (- x)%Qc else x.

(** [a[np.argsort(np.abs(a - c))]]; candidates at the same distance keep the
    order they have in [a], as in numpy's sort of a short array. *)
Fixpoint insert_by_distance (c x : Qc) (l : list Qc) : list Qc :=
  match l with
  | [] => [x]
  | y :: l' =>
      if Qcltb (Qcabs (y - c)) (Qcabs (x - c)) then y :: insert_by_distance c x l'
      else x :: l
  end.

Definition sort_by_distance (c : Qc) (a : list Qc) : list Qc :=
  fold_right (insert_by_distance c) [] a.

(** The loop of [_fiducial_profile] over the candidate wavelengths. *)
Fixpoint first_nonzero (self : ChromaticObject) (candidate_waves : list Qc)
  : Result (Qc * GSObject) :=
  match candidate_waves with
  | [] => Raise NoFiducialWavelength
  | w :: rest =>
      (try prof0 <- evaluateAtWavelength self w;
       if negb (Qceqb (gs_flux ext prof0) 0%Qc) then Ok (w, prof0)
       else first_nonzero self rest)%result
  end.

(** [ChromaticObject._fiducial_profile]. *)
Definition _fiducial_profile (self : ChromaticObject) (bandpass : Bandpass)
  : Result (Qc * GSObject) :=
  (let bpwave := effective_wavelength bandpass in
   try prof0 <- evaluateAtWavelength self bpwave;
   if negb (Qceqb (gs_flux ext prof0) 0%Qc) then Ok (bpwave, prof0)
   else
     let candidate_waves :=
       [(half * (blue_limit bandpass + red_limit bandpass))%Qc]
         ++ bp_wave_list bandpass ++ wave_list (attrs self) in
     first_nonzero self (sort_by_distance bpwave candidate_waves))%result.

(** The integrator [ChromaticObject.drawImage] settles on. *)
Definition choose_integrator (integrator : Integrator) (wave_list : list Qc)
  : Result Integrator :=
  (try integrator <-
     match integrator with
     | IString s =>
         try rule <-
           (if String.eqb s "trapezoidal" then Ok np_trapz_rule
            else if String.eqb s "midpoint" then Ok midpt_rule
            else Raise UnknownIntegrator);
         if (0 <? List.length wave_list)%nat then Ok (SampleIntegrator rule)
         else Ok (ContinuousIntegrator rule 250)
     | _ => Ok integrator
     end;
   match integrator with
   | SampleIntegrator _ | ContinuousIntegrator _ _ => Ok integrator
   | _ => Raise InvalidIntegratorType
   end)%result.

(** [ChromaticObject.drawImage], the base implementation.  (The number of
    evaluations the integrator reports, kept in [_last_n_eval] for
    profiling, is dropped.) *)
Definition ChromaticObject_drawImage (self : ChromaticObject) (bandpass : Bandpass)
  (image : option Image) (integrator : Integrator) (kwargs : Kwargs) : M Image :=
  match SED (attrs self) with
  | None => raise MissingSED
  | Some sed =>
      ('(wave0, prof0) <- lift (_fiducial_profile self bandpass);;
       image <- gs_draw prof0 image true kwargs;;
       let kwargs := _remove_setup_kwargs kwargs in
       let wave_list :=
         combine_wave_list [wave_list (attrs self); bp_wave_list bandpass] in
       if separable (attrs self)
       then
         (multiplier <- _multiplier_cache_call sed bandpass wave_list;;
          sed0 <- lift (sed_call sed wave0);;
          ratio <- lift (fdiv multiplier sed0);;
          gs_draw (GSScaled prof0 ratio) (Some image) false kwargs)
       else
         (integrator <- lift (choose_integrator integrator wave_list);;
          bandpass <-
            match integrator with
            | SampleIntegrator _ =>
                (id <- fresh;;
                 ret (lookup_bandpass ext id wave_list (map (bp_call bandpass) wave_list)))
            | _ => ret bandpass
            end;;
          let add_to_image :=
            match kw_add_to_image kwargs with Some b => b | None => false end in
          let kwargs := set_add_to_image None kwargs in
          '(integral, _) <-
             lift (integ_call ext integrator (evaluateAtWavelength self) bandpass
                              image kwargs);;
          let image := if add_to_image then image else img_scale 0%Qc image in
          lift (img_add image integral)))%monad
  end.

(** *** Interpolated objects *)

(** The widths [dw] of [_get_interp_image]. *)
Fixpoint inner_widths (wave_list : list Qc) : list Qc :=
  match wave_list with
  | a :: ((_ :: c :: _) as rest) => (half * (c - a))%Qc :: inner_widths rest
  | _ => []
  end.

Definition widths (wave_list : list Qc) : Result (list Qc) :=
  (try w1 <- item wave_list 1;
   try w0 <- item wave_list 0;
   let first := (w1 - w0)%Qc in
   let inner := inner_widths wave_list in
   try wlast <- item wave_list (-1);
   try wprev <- item wave_list (-2);
   Ok ([first] ++ inner ++ [(wlast - wprev)%Qc]))%result.

(** [a[i] += x]. *)
Definition add_at (a : list Qc) (i : Z) (x : Qc) : Result (list Qc) :=
  (try old <- item a i;
   let j := Z.to_nat (if (i <? 0)%Z then Z.of_nat (List.length a) + i else i)%Z in
   Ok (firstn j a ++ [(old + x)%Qc] ++ skipn (S j) a))%result.

(** The loop of [_get_interp_image] that accumulates the weight of each
    stored image; [idx] counts the samples already seen, [n] is
    [len(wave_list)]. *)
Fixpoint accumulate_weights (grid : list Qc) (bandpass : Bandpass) (midpoint : bool)
  (n : nat) (idx : nat) (samples : list (Qc * Qc)) (weight_fac : list Qc)
  : Result (list Qc) :=
  match samples with
  | [] => Ok weight_fac
  | (w, dw) :: rest =>
      (try ' (lower_idx, frac) <- _findWave grid w;
       let b := (bp_call bandpass w * dw)%Qc in
       try weight_fac <-
         (if ((0 <? idx)%nat && (idx <? n - 1)%nat) || midpoint
          then
            try wf <- add_at weight_fac lower_idx ((1 - frac) * b)%Qc;
            add_at wf (lower_idx + 1) (frac * b)%Qc
          else
            try wf <- add_at weight_fac lower_idx ((1 - frac) * b * half)%Qc;
            add_at wf (lower_idx + 1) (frac * b * half)%Qc);
       accumulate_weights grid bandpass midpoint n (S idx) rest weight_fac)%result
  end.

(** [np.array(vals)[weight_fac > 0]]. *)
Definition positive_weight (vals weight_fac : list Qc) : Result (list Qc) :=
  if Nat.eqb (List.length vals) (List.length weight_fac)
  then Ok (map fst (filter (fun vw => Qcltb 0%Qc (snd vw)) (combine vals weight_fac)))
  else Raise IndexOutOfBounds.

(** The weights of the stored images for a bandpass: the part of
    [_get_interp_image] between the range checks and the weighted sum. *)
Definition interp_weights (self : Interpolation) (bandpass : Bandpass)
  (integrator : Integrator) (wave_list : list Qc) : Result (list Qc) :=
  (try dw <- widths wave_list;
   let weight_fac := repeat 0%Qc (List.length (waves self)) in
   let midpoint :=
     match integrator with IString s => String.eqb s "midpoint" | _ => false end in
   accumulate_weights (waves self) bandpass midpoint (List.length wave_list) 0
     (combine wave_list dw) weight_fac)%result.

(** The part of [_get_interp_image] after the set-up of the image: the
    range checks, the weights, the weighted sum of the stored images and
    the bounds [stepk] and [maxk]. *)
Definition integrate_stored_images (tab : Interpolation) (bandpass : Bandpass)
  (integrator : Integrator) (wave_list : list Qc) : Result GSObject :=
  (try lo <- np_min wave_list;
   try grid_lo <- np_min (waves tab);
   if Qcltb lo grid_lo then Raise OutOfRange
   else
     try hi <- np_max wave_list;
     try grid_hi <- np_max (waves tab);
     if Qcltb grid_hi hi then Raise OutOfRange
     else
       try weight_fac <- interp_weights tab bandpass integrator wave_list;
       try integral <-
         img_sum (map (fun wi => img_scale (fst wi) (snd wi))
                      (combine weight_fac (ims tab)));
       try stepks <- positive_weight (stepK_vals tab) weight_fac;
       try stepk <- np_min stepks;
       try maxks <- positive_weight (maxK_vals tab) weight_fac;
       try maxk <- np_max maxks;
       Ok (GSInterpolatedImage integral (Some stepk) (Some maxk) None))%result.

(** [InterpolatedChromaticObject._get_interp_image]; [self] is the object,
    [a] and [tab] its attributes and its table. *)
Definition _get_interp_image (self : ChromaticObject) (a : Attrs) (tab : Interpolation)
  (bandpass : Bandpass) (image : option Image) (integrator : Integrator)
  (kwargs : Kwargs) : M GSObject :=
  match integrator with
  | IString s =>
      if String.eqb s "trapezoidal" || String.eqb s "midpoint"
      then
        ('(_, prof0) <- lift (_fiducial_profile self bandpass);;
         _ <- gs_draw prof0 image true kwargs;;
         let wave_list := combine_wave_list [wave_list a; bp_wave_list bandpass] in
         lift (integrate_stored_images tab bandpass integrator wave_list))%monad
      else raise UnknownIntegrator
  | _ => raise InvalidIntegratorType
  end.

(** [InterpolatedChromaticObject.drawImage]. *)
Definition Interpolated_drawImage (self : ChromaticObject) (a : Attrs)
  (tab : Interpolation) (bandpass : Bandpass) (image : option Image)
  (integrator : Integrator) (kwargs : Kwargs) : M Image :=
  match SED a with
  | None => raise MissingSED
  | Some _ =>
      (int_im <- _get_interp_image self a tab bandpass image integrator kwargs;;
       gs_draw int_im image false kwargs)%monad
  end.

(** [ChromaticTransformation.drawImage]. *)
Definition Transformation_drawImage (self : ChromaticObject) (a : Attrs)
  (original : ChromaticObject) (_jac : WFun Jac) (_offset : WFun Offset)
  (_flux_ratio : FluxRatio) (g : GSParams) (bandpass : Bandpass)
  (image : option Image) (integrator : Integrator) (kwargs : Kwargs) : M Image :=
  match SED a with
  | None => raise MissingSED
  | Some _ =>
      match original with
      | InterpolatedChromaticObject a' _ tab =>
          (int_im <- _get_interp_image original a' tab bandpass image integrator kwargs;;
           '(jac, offset, flux_ratio) <-
              lift (_getTransformations _jac _offset _flux_ratio (red_limit bandpass));;
           gs_draw (GSTransformation int_im jac offset flux_ratio g) image false kwargs)%monad
      | _ => ChromaticObject_drawImage self bandpass image integrator kwargs
      end
  end.
End Draw.

(** *** Sums and convolutions *)

(** The method [obj.drawImage] as the caller sees it:
    [obj.drawImage(bandpass, image=image, integrator=integrator, **kwargs)]. *)
Definition DrawMethod : Type :=
  ChromaticObject -> Bandpass -> option Image -> Integrator -> Kwargs -> M Image.

(** [kwargs.pop('add_to_image', False)]. *)
Definition pop_add_to_image (kwargs : Kwargs) : bool * Kwargs :=
  (match kw_add_to_image kwargs with Some b => b | None => false end,
   set_add_to_image None kwargs).

Definition default_integrator : Integrator := IString "trapezoidal".

(** [for i, obj in enumerate(objlist): if isinstance(obj, ChromaticSum)]: the
    first sum among the convolutants, with its summands and the other
    convolutants ([del tmplist[i]]). *)
Fixpoint first_sum (before objlist : list ChromaticObject)
  : option (list ChromaticObject * list ChromaticObject) :=
  match objlist with
  | [] => None
  | ChromaticSum _ summands _ :: rest => Some (summands, before ++ rest)
  | obj :: rest => first_sum (before ++ [obj]) rest
  end.

Definition EKey_eqb (ext : External) (k1 k2 : EKey) : bool :=
  chromatic_eqb ext (ek_obj k1) (ek_obj k2)
  && Nat.eqb (ek_bandpass k1) (ek_bandpass k2)
  && option_eqb Qceqb (ek_iimult k1) (ek_iimult k2)
  && Qceqb (ek_wmult k1) (ek_wmult k2)
  && Integrator_eqb (ek_integrator k1) (ek_integrator k2)
  && option_eqb Nat.eqb (ek_gsparams k1) (ek_gsparams k2).

Section DrawCompound.
Context (ext : External).
(** The method [drawImage] of the objects drawn on the way, bound late. *)
Context (drawImage : DrawMethod).

(** [ChromaticSum.drawImage]. *)
Definition Sum_drawImage (a : Attrs) (objlist : list ChromaticObject)
  (bandpass : Bandpass) (image : option Image) (integrator : Integrator)
  (kwargs : Kwargs) : M Image :=
  match SED a with
  | None => raise MissingSED
  | Some _ =>
      (let '(add_to_image, kwargs) := pop_add_to_image kwargs in
       first <- lift (item objlist 0);;
       image <- drawImage first bandpass image default_integrator
                  (set_add_to_image (Some add_to_image) kwargs);;
       let kwargs := _remove_setup_kwargs kwargs in
       mfold (fun image obj =>
                drawImage obj bandpass (Some image) default_integrator
                  (set_add_to_image (Some true) kwargs))
             (tl objlist) image)%monad
  end.

(** The reduced convolution of one summand, [ChromaticConvolution(tmplist)]
    with [tmplist] the other convolutants followed by the summand, and its
    image. *)
Definition draw_reduced (others : list ChromaticObject) (summand : ChromaticObject)
  (bandpass : Bandpass) (image : option Image) (integrator : Integrator)
  (iimult : option Qc) (add_to_image : bool) (kwargs : Kwargs) : M Image :=
  (tmpobj <- ChromaticConvolution_init (OneList (others ++ [summand])) None;;
   drawImage tmpobj bandpass image integrator
     (set_iimult iimult (set_add_to_image (Some add_to_image) kwargs)))%monad.

(** The loop of the atomic case that sorts the convolutants: the spatial
    profiles and the SEDs and [_norm]s of the separable ones, and the
    inseparable ones. *)
Fixpoint sort_convolutants (bandpass : Bandpass) (objlist : list ChromaticObject)
  (acc : list GSObject * list ChromaticObject * list galsim_SED * list (WFun Qc))
  : Result (list GSObject * list ChromaticObject * list galsim_SED * list (WFun Qc)) :=
  match objlist with
  | [] => Ok acc
  | obj :: rest =>
      let '(sep_profs, insep_profs, sep_SEDs, sep_norms) := acc in
      if separable (attrs obj)
      then
        (try ' (wave0, prof0) <- _fiducial_profile ext obj bandpass;
         match SED (attrs obj) with
         | Some sed =>
             try sed0 <- sed_call sed wave0;
             try p <- gs_div prof0 sed0;
             sort_convolutants bandpass rest
               (sep_profs ++ [p], insep_profs, sep_SEDs ++ [sed], sep_norms)
         | None =>
             match _norm (attrs obj) with
             | Some n =>
                 try x <- at_wave n wave0;
                 try p <- gs_div prof0 x;
                 sort_convolutants bandpass rest
                   (sep_profs ++ [p], insep_profs, sep_SEDs, sep_norms ++ [n])
             | None => Raise NoneOperand
             end
         end)%result
      else sort_convolutants bandpass rest
             (sep_profs, insep_profs ++ [obj], sep_SEDs, sep_norms)
  end.

(** [ChromaticConvolution._get_effective_prof]. *)
Definition _get_effective_prof (insep_obj : ChromaticObject) (bandpass : Bandpass)
  (iimult : option Qc) (wmult : Qc) (integrator : Integrator) (gsparams : GSParams)
  : M GSObject :=
  ('(_, prof0) <- lift (_fiducial_profile ext insep_obj bandpass);;
   let iiscale := gs_nyquistScale ext prof0 in
   iiscale <- match iimult with
              | Some m => lift (fdiv iiscale m)
              | None => ret iiscale
              end;;
   let kw := mkKwargs None None (Some iiscale) None None None None (Some wmult)
                      (Some "no_pixel"%string) None [] in
   effective_prof_image <-
     (if is_ChromaticConvolution insep_obj
      then ChromaticObject_drawImage ext insep_obj bandpass None integrator kw
      else drawImage insep_obj bandpass None integrator kw);;
   ret (GSInterpolatedImage effective_prof_image None None gsparams))%monad.

(** [ChromaticConvolution._effective_prof_cache(insep_obj, bandpass, iimult,
    wmult, integrator, gsparams)]. *)
Definition _effective_prof_cache_call (insep_obj : ChromaticObject) (bandpass : Bandpass)
  (iimult : option Qc) (wmult : Qc) (integrator : Integrator) (gsparams : GSParams)
  : M GSObject :=
  cache_call (EKey_eqb ext) _effective_prof_cache set_effective_prof_cache
    (mkEKey insep_obj (bp_id bandpass) iimult wmult integrator gsparams)
    (_get_effective_prof insep_obj bandpass iimult wmult integrator gsparams).

(** The atomic case of [ChromaticConvolution.drawImage]: no convolutant is
    a sum. *)
Definition draw_atomic (self : ChromaticObject) (objlist : list ChromaticObject)
  (g : GSParams) (bandpass : Bandpass) (image : option Image) (integrator : Integrator)
  (iimult : option Qc) (kwargs : Kwargs) : M Image :=
  ('(wave0, prof0) <- lift (_fiducial_profile ext self bandpass);;
   image <- gs_draw ext prof0 image true kwargs;;
   let kwargs := _remove_setup_kwargs kwargs in
   '(sep_profs, insep_profs, sep_SEDs, sep_norms) <-
      lift (sort_convolutants bandpass objlist ([], [], [], []));;
   sep_SED <- match sep_SEDs with
              | [] => ret None
              | [s] => ret (Some s)
              | _ => raise MultipleSEDs
              end;;
   let wmult := match kw_wmult kwargs with Some x => x | None => 1%Qc end in
   insep_obj <- (if (1 <? List.length insep_profs)%nat
                 then ChromaticConvolution_init (OneList insep_profs) g
                 else lift (item insep_profs 0));;
   insep_obj <- match sep_SED with
                | Some s => __mul__ ext insep_obj (FRSED s)
                | None => ret insep_obj
                end;;
   insep_obj <- mfold (fun o n => __mul__ ext o (FRValue n)) sep_norms insep_obj;;
   effective_prof <-
     _effective_prof_cache_call insep_obj bandpass iimult wmult integrator g;;
   let final_prof := GSConvolve (sep_profs ++ [effective_prof]) g in
   gs_draw ext final_prof (Some image) false kwargs)%monad.

(** [ChromaticConvolution.drawImage]. *)
Definition Convolution_drawImage (self : ChromaticObject) (a : Attrs)
  (objlist : list ChromaticObject) (g : GSParams) (bandpass : Bandpass)
  (image : option Image) (integrator : Integrator) (kwargs : Kwargs) : M Image :=
  let iimult := kw_iimult kwargs in
  let kwargs := set_iimult None kwargs in
  match SED a with
  | None => raise MissingSED
  | Some _ =>
      if separable a
      then ChromaticObject_drawImage ext self bandpass image default_integrator kwargs
      else
        match first_sum [] objlist with
        | Some (summands, others) =>
            (first <- lift (item summands 0);;
             let '(add_to_image, kwargs) := pop_add_to_image kwargs in
             image <- draw_reduced others first bandpass image integrator iimult
                        add_to_image kwargs;;
             (* _remove_setup_kwargs(kwargs), inside the loop, does the same
                at every pass *)
             let kwargs := _remove_setup_kwargs kwargs in
             mfold (fun image summand =>
                      draw_reduced others summand bandpass (Some image)
                        integrator iimult true kwargs)
                   (tl summands) image)%monad
        | None => draw_atomic self objlist g bandpass image integrator iimult kwargs
        end
  end.
End DrawCompound.

(** [obj.drawImage(bandpass, image=image, integrator=integrator, **kwargs)]:
    the method of the class of [obj]; [fuel] bounds the depth of the calls, as
    the interpreter's recursion limit does. *)
Fixpoint drawImage_fuel (ext : External) (fuel : nat) (self : ChromaticObject)
  (bandpass : Bandpass) (image : option Image) (integrator : Integrator)
  (kwargs : Kwargs) : M Image :=
  match fuel with
  | O => raise RecursionDepth
  | S fuel' =>
      match self with
      | InterpolatedChromaticObject a _ tab =>
          Interpolated_drawImage ext self a tab bandpass image integrator kwargs
      | ChromaticTransformation a _ original _jac _offset _flux_ratio g =>
          Transformation_drawImage ext self a original _jac _offset _flux_ratio g
            bandpass image integrator kwargs
      | ChromaticSum a objlist _ =>
          Sum_drawImage (drawImage_fuel ext fuel') a objlist bandpass image integrator kwargs
      | ChromaticConvolution a objlist g =>
          Convolution_drawImage ext (drawImage_fuel ext fuel') self a objlist g
            bandpass image integrator kwargs
      | _ => ChromaticObject_drawImage ext self bandpass image integrator kwargs
      end
  end.

Definition drawImage (ext : External) : DrawMethod := drawImage_fuel ext recursion_limit.

(** ** The constructors as one operation *)

(** A call of a constructor of the tree. *)
Inductive Request : Type :=
| NewChromaticObject (obj : PyObject)
| NewChromatic (gsobj : GSObject) (sed : galsim_SED)
| NewChromaticPSF (cls : PSFClass) (mono : Qc -> GSObject)
| NewInterpolatedChromaticObject (original : ChromaticObject) (waves : list Qc)
    (oversample_fac : Qc)
| NewChromaticTransformation (obj : ChromaticObject) (jac : WFun Jac)
    (offset : WFun Offset) (flux_ratio : FluxRatio) (gsparams : GSParams)
| NewChromaticSum (args : Args) (gsparams : GSParams)
| NewChromaticConvolution (args : Args) (gsparams : GSParams)
| NewChromaticDeconvolution (obj : ChromaticObject) (kwargs : nat)
| NewChromaticAutoConvolution (obj : ChromaticObject) (kwargs : nat)
| NewChromaticAutoCorrelation (obj : ChromaticObject) (kwargs : nat)
| NewChromaticFourierSqrtProfile (obj : ChromaticObject) (kwargs : nat).

Definition construct (ext : External) (r : Request) : M ChromaticObject :=
  match r with
  | NewChromaticObject obj => ChromaticObject_init ext obj
  | NewChromatic gsobj sed => Chromatic_init ext gsobj sed
  | NewChromaticPSF cls mono => ChromaticPSF_init cls mono
  | NewInterpolatedChromaticObject original waves oversample_fac =>
      InterpolatedChromaticObject_init ext original waves oversample_fac
  | NewChromaticTransformation obj jac offset flux_ratio gsparams =>
      ChromaticTransformation_init ext obj jac offset flux_ratio gsparams
  | NewChromaticSum args gsparams => ChromaticSum_init args gsparams
  | NewChromaticConvolution args gsparams => ChromaticConvolution_init args gsparams
  | NewChromaticDeconvolution obj kwargs => ChromaticDeconvolution_init obj kwargs
  | NewChromaticAutoConvolution obj kwargs => ChromaticAutoConvolution_init obj kwargs
  | NewChromaticAutoCorrelation obj kwargs => ChromaticAutoCorrelation_init obj kwargs
  | NewChromaticFourierSqrtProfile obj kwargs => ChromaticFourierSqrtProfile_init ext obj kwargs
  end.

Definition args_list (a : Args) : list ChromaticObject :=
  match a with Star l | OneList l => l end.

(** The chromatic objects a constructor is given. *)
Definition operands (r : Request) : list ChromaticObject :=
  match r with
  | NewChromaticObject (PyChromatic c) => [c]
  | NewChromaticObject _ | NewChromatic _ _ | NewChromaticPSF _ _ => []
  | NewInterpolatedChromaticObject obj _ _
  | NewChromaticTransformation obj _ _ _ _
  | NewChromaticDeconvolution obj _
  | NewChromaticAutoConvolution obj _
  | NewChromaticAutoCorrelation obj _
  | NewChromaticFourierSqrtProfile obj _ => [obj]
  | NewChromaticSum args _ | NewChromaticConvolution args _ => args_list args
  end.

(** The objects built by the constructors, from objects they built. *)
Inductive Built (ext : External) : ChromaticObject -> Prop :=
| Built_by (r : Request) (st st' : St) (o : ChromaticObject) :
    Forall (Built ext) (operands r) ->
    construct ext r st = (Ok o, st') ->
    Built ext o.

Definition has_SED (o : ChromaticObject) : bool :=
  match SED (attrs o) with Some _ => true | None => false end.

Definition has_norm (o : ChromaticObject) : bool :=
  match _norm (attrs o) with Some _ => true | None => false end.

(** "Exactly one of [SED] and [_norm] is not [None]." *)
Definition SED_xor_norm (o : ChromaticObject) : Prop :=
  xorb (has_SED o) (has_norm o) = true.

(** The invalid compositions, in the words of the spec: two SED-bearing
    children combined by convolution; deconvolution, autoconvolution,
    autocorrelation or Fourier square root of an SED-bearing child; a sum
    mixing SED-normalized and scalar-norm-normalized children. *)
Definition invalid_composition (r : Request) : option Composition :=
  match r with
  | NewChromaticConvolution args _ =>
      if (2 <=? List.length (filter has_SED (args_list args)))%nat
      then Some TwoSEDsConvolved else None
  | NewChromaticDeconvolution obj _ => if has_SED obj then Some SEDDeconvolved else None
  | NewChromaticAutoConvolution obj _ => if has_SED obj then Some SEDAutoConvolved else None
  | NewChromaticAutoCorrelation obj _ => if has_SED obj then Some SEDAutoCorrelated else None
  | NewChromaticFourierSqrtProfile obj _ => if has_SED obj then Some SEDFourierSqrt else None
  | NewChromaticSum args _ =>
      if existsb has_SED (args_list args) && existsb has_norm (args_list args)
      then Some MixedSum else None
  | _ => None
  end.

(** Two summands "share the same spectral density object (or the same
    scalar-norm value)". *)
Definition same_norm_value (x y : option (WFun Qc)) : Prop :=
  match x, y with
  | None, None => True
  | Some (WConst a), Some (WConst b) => a = b
  | Some (WCall i _), Some (WCall j _) => i = j
  | _, _ => False
  end.

Definition same_normalisation (c1 c2 : ChromaticObject) : Prop :=
  match SED (attrs c1), SED (attrs c2) with
  | Some s1, Some s2 => sed_id s1 = sed_id s2
  | None, None => same_norm_value (_norm (attrs c1)) (_norm (attrs c2))
  | _, _ => False
  end.

(** The spec's classification of a sum: "separable iff all children
    separable AND all children share the same spectral density object (or
    scalar norm value)". *)
Definition sum_separable_spec (children : list ChromaticObject) : Prop :=
  Forall (fun c => separable (attrs c) = true) children
  /\ (forall c1 c2, In c1 children -> In c2 children -> same_normalisation c1 c2).

(** A monochromatic profile that is the sum of the given profiles. *)
Definition monochromatic_sum (p : GSObject) (parts : list GSObject) : Prop :=
  exists l g, p = GSAdd l g /\ Permutation l parts.

(** ** The separable fast path, in the words of the spec *)

(** The objects whose [drawImage] draws one profile: all but a sum, which
    draws its summands one by one, and an interpolated object or a
    transformation of one, which integrate the stored images. *)
Definition drawn_in_one_piece (self : ChromaticObject) : bool :=
  match self with
  | ChromaticSum _ _ _ | InterpolatedChromaticObject _ _ _ => false
  | ChromaticTransformation _ _ (InterpolatedChromaticObject _ _ _) _ _ _ _ => false
  | _ => true
  end.

(** The keyword arguments that reach [ChromaticObject.drawImage]: [iimult]
    is a parameter of [ChromaticConvolution.drawImage] and stays there. *)
Definition base_kwargs (self : ChromaticObject) (kwargs : Kwargs) : Kwargs :=
  if is_ChromaticConvolution self then set_iimult None kwargs else kwargs.

(** The multiplier as the spec has it: the integral of
    [SED(lambda) * bandpass(lambda)], by the trapezoid rule on the knots when
    there are any, else by quadrature over [[blue_limit, red_limit]]. *)
Definition spec_multiplier (ext : External) (sed : galsim_SED) (bandpass : Bandpass)
  (knots : list Qc) : Result Qc :=
  let integrand := fun w => (try s <- sed_call sed w; Ok (s * bp_call bandpass w)%Qc)%result in
  match knots with
  | [] => integ_int1d ext integrand (blue_limit bandpass) (red_limit bandpass)
  | _ => (try values <- rmap integrand knots; Ok (np_trapz (combine knots values)))%result
  end.

(** "Memoized in a cache keyed by (SED, bandpass, knots)": the value at a
    key is the stored one, or else the newly computed one. *)
Definition memoized (ext : External) (st : St) (sed : galsim_SED) (bandpass : Bandpass)
  (knots : list Qc) : Result Qc :=
  match cache_find MKey_eqb (sed_id sed, bp_id bandpass, knots)
                   (cache_entries (_multiplier_cache st)) with
  | Some m => Ok m
  | None => spec_multiplier ext sed bandpass knots
  end.

(** The renders of the log: the calls of the renderer that are not set-up
    calls. *)
Definition renders (st : St) : list DrawCall :=
  filter (fun c => negb (dc_setup_only c)) (draw_log st).

(** ** The distribution of a convolution over a sum, in the words of the spec *)


(** The caller's [add_to_image] setting ([False] when it is not given). *)
Definition callers_add_to_image (kwargs : Kwargs) : bool :=
  match kw_add_to_image kwargs with Some b => b | None => false end.

Section Distributed.
Context (draw : DrawMethod).
Context (others : list ChromaticObject) (bandpass : Bandpass) (integrator : Integrator).


End Distributed.

(** Whatever [m1] returns, [m2] returns too; and the same of two [drawImage]
    methods, as of drawing with a smaller and with a larger depth of calls. *)
Definition mle {A : Type} (m1 m2 : M A) : Prop :=
  forall st a st', m1 st = (Ok a, st') -> m2 st = (Ok a, st').

Definition draw_le (d1 d2 : DrawMethod) : Prop :=
  forall o b i g k, mle (d1 o b i g k) (d2 o b i g k).

(** ** The shape of an interpolation table *)

(** The wavelengths of a table increase strictly: the grid is sorted and no
    wavelength occurs twice. *)
Definition increasing (grid : list Qc) : Prop := StronglySorted Qclt grid.

(** What [InterpolatedChromaticObject.__init__] establishes besides the
    order of the wavelengths: one image, one [stepK] and one [maxK] per
    wavelength, and images of one shape (all are drawn with the same [nx] and
    [ny]). *)
Record table_ok (tab : Interpolation) : Prop := mk_table_ok {
  ok_ims : List.length (ims tab) = List.length (waves tab);
  ok_stepK : List.length (stepK_vals tab) = List.length (waves tab);
  ok_maxK : List.length (maxK_vals tab) = List.length (waves tab);
  ok_shape : forall im1 im2, In im1 (ims tab) -> In im2 (ims tab) ->
                             List.length im1 = List.length im2
}.

(** ** A small instance of the collaborators

    Enough of a renderer to run the definitions on concrete objects: a
    profile is known by its flux, and an image has one pixel, to which a
    drawing adds the flux of the profile.  The bounds [stepK] and [maxK] of a
    profile are its flux and 1000 minus its flux, so that profiles of
    different flux have different bounds. *)

Fixpoint sample_flux (p : GSObject) : Qc :=
  match p with
  | GSProfile _ => 1%Qc
  | GSScaled p c => (c * sample_flux p)%Qc
  | GSAdd l _ => fold_right (fun p acc => (sample_flux p + acc)%Qc) 0%Qc l
  | GSConvolve l _ => fold_right (fun p acc => (sample_flux p * acc)%Qc) 1%Qc l
  | GSDeconvolve p _ => (/ sample_flux p)%Qc
  | GSAutoConvolve p _ | GSAutoCorrelate p _ => (sample_flux p * sample_flux p)%Qc
  | GSFourierSqrt p _ => sample_flux p
  | GSTransformation p _ _ flux_ratio _ => (flux_ratio * sample_flux p)%Qc
  | GSInterpolatedImage im _ _ _ => fold_right Qcplus 0%Qc im
  end.

Definition sample_drawImage (prof : GSObject) (image : option Image) (setup_only : bool)
  (kwargs : Kwargs) : Result Image :=
  let image := match image with Some im => im | None => [0%Qc] end in
  if setup_only then Ok image
  else
    match kw_add_to_image kwargs with
    | Some true => Ok (map (Qcplus (sample_flux prof)) image)
    | _ => Ok (map (fun _ => sample_flux prof) image)
    end.

Definition sample_ext : External :=
  mkExternal
    sample_flux
    (fun _ => 1%Qc)
    (fun _ _ => 1%Qc)
    sample_flux
    (fun p => (qz 1000 - sample_flux p)%Qc)
    sample_drawImage
    (fun f a b => (try y <- f (half * (a + b))%Qc; Ok (y * (b - a))%Qc)%result)
    (fun _ _ _ image _ => Ok (img_scale 0%Qc image, 0%nat))
    (fun id x f => mkBandpass id (fun _ => 1%Qc) 0%Qc 0%Qc 0%Qc x)
    (fun x => x)
    (fun _ _ => false).

(** A spectrum that is 1 at every wavelength, without knots, and two objects
    that are this spectrum: the same Python object, and another one that
    returns the same values. *)
Definition flat_sed (id : nat) : galsim_SED := mkSED id (fun _ => Ok 1%Qc) [].

(** A spectrum that grows with the wavelength: [SED(w) = w]. *)
Definition ramp_sed : galsim_SED := mkSED 3 (fun w => Ok w) [].

(** A leaf: a unit-flux profile with the spectrum [sed] attached. *)
Definition leaf (name : nat) (sed : galsim_SED) : ChromaticObject :=
  Chromatic (mkAttrs true false (Some sed) None (sed_wave_list sed)) (GSProfile name).

(** A chromatic PSF without an SED, as [ChromaticAiry] builds it. *)
Definition sample_psf : ChromaticObject :=
  ChromaticPSF (mkAttrs false false None (Some (WConst 1%Qc)) []) Airy
    (fun w => GSScaled (GSProfile 7) w).

(** A bandpass over [500, 600] nm with the given throughput and knots. *)
Definition sample_bandpass (throughput : Qc -> Qc) (knots : list Qc) : Bandpass :=
  mkBandpass 100 throughput (qz 500) (qz 600) (qz 550) knots.

(** A bandpass over the same range whose throughput is negative below
    550 nm. *)
Definition signed_bandpass : Bandpass :=
  sample_bandpass (fun w => if Qcltb w (qz 550) then (- (1))%Qc else 1%Qc)
                  [qz 500; qz 600].

(** A table with two stored images, on the grid [[500; 600]]. *)
Definition sample_table : Interpolation :=
  mkInterpolation [qz 500; qz 600] 1%Qc [qz 5; qz 6] [qz 50; qz 40] [[qz 1]; [qz 2]].



(** ** Weights that vanish *)

(** [np.array(vals)[weight_fac != 0]]: the selection that the comment in
    [_get_interp_image] describes ("that have nonzero weight"). *)
Definition nonzero_weight (vals weight_fac : list Qc) : Result (list Qc) :=
  if Nat.eqb (List.length vals) (List.length weight_fac)
  then Ok (map fst (filter (fun vw => negb (Qceqb (snd vw) 0%Qc)) (combine vals weight_fac)))
  else Raise IndexOutOfBounds.

(** A sorted array, as [np.union1d] returns it. *)
Definition nondecreasing (a : list Qc) : Prop := StronglySorted Qcle a.

(** ** The summands of a sum that is not mixed *)

(** What [ChromaticSum.__init__] can rely on for a summand once the test
    on [isSEDed] and [isNormed] has passed: it has an SED or a [_norm], and
    it has an SED exactly when [isSEDed] holds. *)
Definition summand_ok (isSEDed : bool) (c : ChromaticObject) : Prop :=
  SED_xor_norm c /\ has_SED c = isSEDed.

(** An entry of [norm_dict]: a non-empty list of separable summands filed
    under their common key. *)
Definition entry_ok (isSEDed : bool) (kv : NormKey * list ChromaticObject) : Prop :=
  snd kv <> []
  /\ Forall (fun c => summand_ok isSEDed c /\ separable (attrs c) = true
                      /\ NormKey_eqb (norm_key isSEDed c) (fst kv) = true) (snd kv).

(** ** Changes of size *)

(** [np.diag([s, s])]. *)
Definition diag2 (s : Qc) : Jac := (s, 0%Qc, 0%Qc, s).

(** [expand]: [galsim.Transform(self, jac=jac)] with the other arguments
    at their defaults, as in [withScaledFlux]. *)
Definition expand (ext : External) (self : ChromaticObject) (scale : WFun Qc)
  : M ChromaticObject :=
  (jac <- match scale with
          | WConst s => ret (WConst (diag2 s))
          | WCall _ f => lambda (fun w => (try s <- f w; Ok (diag2 s))%result)
          end;;
   ChromaticTransformation_init ext self jac (WConst origin) (FRValue (WConst 1%Qc))
     None)%monad.

(** [dilate]: [self.expand(scale).withScaledFlux(1./scale**2)]; the
    expansion is built before the flux ratio is computed.  [inverse_square]
    is the float arithmetic [1./x**2] of the interpreter, which raises on a
    Python float when [x**2] is zero (also by underflow) or overflows; what
    it returns and when it raises is left to the parameter. *)
Definition dilate (ext : External) (inverse_square : Qc -> Result Qc)
  (self : ChromaticObject) (scale : WFun Qc) : M ChromaticObject :=
  (expanded <- expand ext self scale;;
   flux_ratio <- match scale with
                 | WConst s => (r <- lift (inverse_square s);; ret (WConst r))
                 | WCall _ f => lambda (fun w => (try s <- f w; inverse_square s)%result)
                 end;;
   withScaledFlux ext expanded (FRValue flux_ratio))%monad.

(** [1./x**2] on exact numbers: no underflow and no overflow. *)
Definition exact_inverse_square (x : Qc) : Result Qc := fdiv 1%Qc (x * x)%Qc.

(** ** The summands of a sum, drawn one after the other *)

(** Each summand drawn with [draw] and the default rule of integration: the
    first one as the caller asks, onto the caller's image if there is one;
    every later one added onto the image so far, without the keywords that
    set up an image. *)
Definition draw_summands (draw : DrawMethod) (bandpass : Bandpass)
  (objlist : list ChromaticObject) (image : option Image) (kwargs : Kwargs) : M Image :=
  match objlist with
  | [] => raise IndexOutOfBounds
  | first :: rest =>
      (image <- draw first bandpass image default_integrator
                  (set_add_to_image (Some (callers_add_to_image kwargs)) kwargs);;
       mfold (fun image obj =>
                draw obj bandpass (Some image) default_integrator
                  (set_add_to_image (Some true) (_remove_setup_kwargs kwargs)))
             rest image)%monad
  end.

(** ** A renderer that sizes its images *)




(** * Properties

    ** Comparisons, reductions and indexing *)

Lemma Qcltb_lt x y : Qcltb x y = true <-> (x < y)%Qc.
Proof.
  unfold Qcltb. rewrite Qclt_alt. destruct (x ?= y)%Qc; split; congruence.
Qed.

Lemma Qcltb_ge x y : Qcltb x y = false <-> (y <= x)%Qc.
Proof.
  split; intro H.
  - apply Qcnot_lt_le. intro L. apply Qcltb_lt in L. congruence.
  - destruct (Qcltb x y) eqn:E; [|reflexivity].
    apply Qcltb_lt in E. exfalso. eapply Qcle_not_lt; eauto.
Qed.

Lemma Qceqb_eq x y : Qceqb x y = true <-> x = y.
Proof.
  unfold Qceqb. rewrite Qceq_alt. destruct (x ?= y)%Qc; split; congruence.
Qed.

Lemma Qceqb_refl x : Qceqb x x = true.
Proof. now apply Qceqb_eq. Qed.

Lemma Qceqb_neq x y : Qceqb x y = false <-> x <> y.
Proof.
  split; intro H.
  - intro E. apply Qceqb_eq in E. congruence.
  - destruct (Qceqb x y) eqn:E; [|reflexivity]. apply Qceqb_eq in E. contradiction.
Qed.

Lemma Qcltb_irrefl x : Qcltb x x = false.
Proof. apply Qcltb_ge. apply Qcle_refl. Qed.

Lemma Qclt_minus_neq (x y : Qc) : (x < y)%Qc -> (y - x)%Qc <> 0%Qc.
Proof.
  intros L E.
  assert (y = x) by (rewrite <- (Qcplus_0_l x), <- E; ring).
  subst. eapply Qclt_not_eq; eauto.
Qed.

(* fold_min on a list bounded below by m *)
Lemma fold_min_lower m l : Forall (fun x => (m <= x)%Qc) l -> fold_min m l = m.
Proof.
  induction 1 as [|x l Hx Hl IH]; simpl; [reflexivity|].
  assert (Qcltb x m = false) as -> by now apply Qcltb_ge.
  exact IH.
Qed.

Lemma np_min_increasing x l : increasing (x :: l) -> np_min (x :: l) = Ok x.
Proof.
  intro H. simpl. f_equal. apply fold_min_lower.
  apply StronglySorted_inv in H. destruct H as [_ H].
  eapply Forall_impl; [|exact H]. intros. now apply Qclt_le_weak.
Qed.

Lemma last_cons_default {A} (a : A) l d d' : last (a :: l) d = last (a :: l) d'.
Proof.
  revert a. induction l as [|b l IH]; intros a; [reflexivity|].
  change (last (b :: l) d = last (b :: l) d'). apply IH.
Qed.

(* maximum of sorted list is its last element *)
Lemma fold_max_sorted m l : increasing (m :: l) -> fold_max m l = last l m.
Proof.
  revert m. induction l as [|x l IH]; intros m H; [reflexivity|].
  cbn [fold_max].
  assert (Hmx: (m < x)%Qc).
  { apply StronglySorted_inv in H. destruct H as [_ H]. now inversion H. }
  assert (Qcltb m x = true) as -> by now apply Qcltb_lt.
  rewrite IH.
  - destruct l as [|y l]; [reflexivity|].
    change (last (y :: l) x = last (y :: l) m). apply last_cons_default.
  - now apply StronglySorted_inv in H.
Qed.




(** ** Interpolation at the ends of the grid *)

Section GridEnds.
Local Open Scope Z_scope.

Lemma item_nonneg {A} (l : list A) (i : nat) :
  item l (Z.of_nat i) = match nth_error l i with Some x => Ok x | None => Raise IndexOutOfBounds end.
Proof.
  unfold item.
  assert ((Z.of_nat i <? 0) = false) as E by (apply Z.ltb_ge; lia).
  rewrite E. cbv zeta. rewrite E. now rewrite Nat2Z.id.
Qed.

Lemma item_0 {A} (x : A) l : item (x :: l) 0 = Ok x.
Proof. exact (item_nonneg (x :: l) 0). Qed.

Lemma item_1 {A} (x y : A) l : item (x :: y :: l) 1 = Ok y.
Proof. exact (item_nonneg (x :: y :: l) 1). Qed.

Lemma item_app_last2_a {A} (pre : list A) a b :
  item (pre ++ [a; b]) (Z.of_nat (List.length pre)) = Ok a.
Proof.
  rewrite item_nonneg, nth_error_app2 by lia. now rewrite Nat.sub_diag.
Qed.

Lemma item_app_last2_b {A} (pre : list A) a b :
  item (pre ++ [a; b]) (Z.of_nat (List.length pre) + 1) = Ok b.
Proof.
  replace (Z.of_nat (List.length pre) + 1) with (Z.of_nat (S (List.length pre))) by lia.
  rewrite item_nonneg, nth_error_app2 by lia.
  now replace (S (List.length pre) - List.length pre)%nat with 1%nat by lia.
Qed.

Lemma item_last {A} (pre : list A) b : item (pre ++ [b]) (-1) = Ok b.
Proof.
  unfold item. change (-1 <? 0) with true. cbv iota zeta.
  rewrite length_app. cbn [List.length].
  replace (Z.of_nat (List.length pre + 1) + -1) with (Z.of_nat (List.length pre)) by lia.
  assert ((Z.of_nat (List.length pre) <? 0) = false) as -> by (apply Z.ltb_ge; lia).
  rewrite Nat2Z.id, nth_error_app2 by lia. now rewrite Nat.sub_diag.
Qed.

Lemma two_last {A} (l : list A) :
  (2 <= List.length l)%nat -> exists pre a b, l = pre ++ [a; b].
Proof.
  intro H.
  destruct (exists_last (l:=l)) as [l1 [b ->]]; [destruct l; simpl in *; [lia|congruence]|].
  rewrite length_app in H. simpl in H.
  destruct (exists_last (l:=l1)) as [pre [a ->]]; [destruct l1; simpl in *; [lia|congruence]|].
  exists pre, a, b. now rewrite <- app_assoc.
Qed.

Lemma Zgtb_false a b : a <= b -> (a >? b) = false.
Proof. intro H. rewrite Z.gtb_ltb. apply Z.ltb_ge. exact H. Qed.

Lemma searchsorted_all_below l v rest :
  Forall (fun x => (x < v)%Qc) l ->
  np_searchsorted (l ++ rest) v = Z.of_nat (List.length l) + np_searchsorted rest v.
Proof.
  induction 1 as [|x l Hx Hl IH]; [reflexivity|].
  cbn [app np_searchsorted List.length].
  assert (Qcltb x v = true) as -> by now apply Qcltb_lt.
  rewrite IH. lia.
Qed.

Lemma searchsorted_head_not_below x l v :
  (v <= x)%Qc -> np_searchsorted (x :: l) v = 0.
Proof.
  intro H. cbn. now assert (Qcltb x v = false) as -> by now apply Qcltb_ge.
Qed.

Lemma increasing_app_below pre a b :
  increasing (pre ++ [a; b]) -> Forall (fun x => (x < b)%Qc) (pre ++ [a]) /\ (a < b)%Qc.
Proof.
  induction pre as [|x pre IH]; cbn [app]; intro H.
  - apply StronglySorted_inv in H. destruct H as [_ H]. inversion H; subst.
    split; [constructor; [assumption|constructor]|assumption].
  - apply StronglySorted_inv in H. destruct H as [Hs Hf].
    destruct (IH Hs) as [Hb Hab]. split; [|assumption].
    constructor; [|assumption].
    rewrite Forall_forall in Hf. apply Hf. apply in_or_app. right. simpl. auto.
Qed.

Lemma findWave_at_min w0 w1 rest :
  (w0 < w1)%Qc -> _findWave (w0 :: w1 :: rest) w0 = Ok (0, 0%Qc).
Proof.
  intro H. unfold _findWave.
  rewrite searchsorted_head_not_below by apply Qcle_refl.
  cbn [List.length]. cbn -[item Z.of_nat fdiv].
  assert ((0 >? Z.of_nat (S (S (List.length rest))) - 1) = false) as ->.
  { apply Zgtb_false. lia. }
  rewrite item_0. change (0 + 1) with 1. rewrite item_1.
  cbn [rbind]. unfold fdiv.
  assert (Qceqb (w1 - w0) 0 = false) as -> by now apply Qceqb_neq, Qclt_minus_neq.
  cbn [rbind]. do 2 f_equal. field. now apply Qclt_minus_neq.
Qed.

Lemma searchsorted_at_max pre a b :
  increasing (pre ++ [a; b]) ->
  np_searchsorted (pre ++ [a; b]) b = Z.of_nat (List.length pre) + 1.
Proof.
  intro H. destruct (increasing_app_below _ _ _ H) as [Hb Hab].
  replace (pre ++ [a; b]) with ((pre ++ [a]) ++ [b]) by now rewrite <- app_assoc.
  rewrite searchsorted_all_below by assumption.
  rewrite searchsorted_head_not_below by apply Qcle_refl.
  rewrite length_app. cbn [List.length]. lia.
Qed.

Lemma findWave_at_max pre a b :
  increasing (pre ++ [a; b]) ->
  _findWave (pre ++ [a; b]) b = Ok (Z.of_nat (List.length pre), 1%Qc).
Proof.
  intro H. destruct (increasing_app_below _ _ _ H) as [Hb Hab].
  unfold _findWave.
  rewrite searchsorted_at_max by assumption.
  rewrite !length_app. cbn [List.length].
  set (n := List.length pre).
  replace (Z.of_nat n + 1 - 1) with (Z.of_nat n) by lia.
  cbv zeta.
  assert ((Z.of_nat n <? 0) = false) as -> by (apply Z.ltb_ge; lia).
  assert ((Z.of_nat n >? Z.of_nat (n + 2) - 1) = false) as ->.
  { apply Zgtb_false. lia. }
  subst n. rewrite item_app_last2_a, item_app_last2_b.
  cbn [rbind]. unfold fdiv.
  assert (Qceqb (b - a) 0 = false) as -> by now apply Qceqb_neq, Qclt_minus_neq.
  cbn [rbind]. do 2 f_equal. field. now apply Qclt_minus_neq.
Qed.

Lemma img_interp_0 (above below : Image) :
  List.length above = List.length below ->
  img_add (img_scale 0%Qc above) (img_scale (1 - 0)%Qc below) = Ok below.
Proof.
  revert below. induction above as [|x a IH]; intros [|y b] H; simpl in H; try discriminate.
  - reflexivity.
  - unfold img_scale in *. cbn [map img_add]. rewrite IH by congruence.
    cbv beta iota. assert (E : (0 * x + (1 - 0) * y)%Qc = y) by ring. now rewrite E.
Qed.

Lemma img_interp_1 (above below : Image) :
  List.length above = List.length below ->
  img_add (img_scale 1%Qc above) (img_scale (1 - 1)%Qc below) = Ok above.
Proof.
  revert below. induction above as [|x a IH]; intros [|y b] H; simpl in H; try discriminate.
  - reflexivity.
  - unfold img_scale in *. cbn [map img_add]. rewrite IH by congruence.
    cbv beta iota. assert (E : (1 * x + (1 - 1) * y)%Qc = x) by ring. now rewrite E.
Qed.

Lemma same_length_last2 {A B} (l : list A) (pre : list B) (a b : B) :
  List.length l = List.length (pre ++ [a; b]) ->
  exists lpre la lb, l = lpre ++ [la; lb] /\ List.length lpre = List.length pre.
Proof.
  intro H. rewrite length_app in H. cbn [List.length] in H.
  destruct (two_last l) as [lpre [la [lb ->]]]; [lia|].
  exists lpre, la, lb. split; [reflexivity|].
  rewrite length_app in H. cbn [List.length] in H. lia.
Qed.

Lemma last_last2 {A} (pre : list A) a b d : last (pre ++ [a; b]) d = b.
Proof.
  replace (pre ++ [a; b]) with ((pre ++ [a]) ++ [b]) by now rewrite <- app_assoc.
  apply last_last.
Qed.

Lemma np_max_last2 pre a b : increasing (pre ++ [a; b]) -> np_max (pre ++ [a; b]) = Ok b.
Proof.
  intro H. destruct pre as [|x pre].
  - cbn [app] in *. unfold np_max. rewrite fold_max_sorted by assumption. reflexivity.
  - cbn [app] in *. unfold np_max. rewrite fold_max_sorted by assumption.
    f_equal. apply last_last2.
Qed.

Lemma increasing_head_le x l y : increasing (x :: l) -> In y (x :: l) -> (x <= y)%Qc.
Proof.
  intros H [->|Hin]; [apply Qcle_refl|].
  apply StronglySorted_inv in H. destruct H as [_ H].
  rewrite Forall_forall in H. apply Qclt_le_weak. now apply H.
Qed.

Lemma float_interp_0 (l : list Qc) s0 s1 rest :
  l = s0 :: s1 :: rest -> _linearInterp Qcmult float_add l 0%Qc 0 = Ok s0.
Proof.
  intros ->. unfold _linearInterp. change (0 + 1) with 1.
  rewrite item_1, item_0. cbn [rbind]. unfold float_add. f_equal. ring.
Qed.

Lemma float_interp_1 (l : list Qc) pre a b :
  l = pre ++ [a; b] ->
  _linearInterp Qcmult float_add l 1%Qc (Z.of_nat (List.length pre)) = Ok b.
Proof.
  intros ->. unfold _linearInterp.
  rewrite item_app_last2_a, item_app_last2_b. cbn [rbind]. unfold float_add. f_equal. ring.
Qed.

Lemma imageAtWavelength_at_min tab w0 w1 rest i0 i1 irest s0 s1 srest m0 m1 mrest :
  waves tab = w0 :: w1 :: rest -> increasing (waves tab) ->
  ims tab = i0 :: i1 :: irest -> List.length i1 = List.length i0 ->
  stepK_vals tab = s0 :: s1 :: srest -> maxK_vals tab = m0 :: m1 :: mrest ->
  _imageAtWavelength tab w0 = Ok (i0, s0, m0).
Proof.
  intros Hw Hinc Hi Hshape Hs Hm. unfold _imageAtWavelength.
  rewrite Hw in *.
  rewrite np_min_increasing by assumption. cbn [rbind].
  rewrite Qcltb_irrefl.
  unfold np_max. cbn [rbind].
  assert (Qcltb (fold_max w0 (w1 :: rest)) w0 = false) as ->.
  { apply Qcltb_ge. rewrite fold_max_sorted by assumption.
    apply (increasing_head_le w0 (w1 :: rest)); [assumption|].
    right. destruct (exists_last (l:=w1 :: rest)) as [l' [z E]]; [congruence|].
    rewrite E. rewrite last_last. apply in_or_app. right. simpl. auto. }
  rewrite findWave_at_min.
  2:{ apply StronglySorted_inv in Hinc. destruct Hinc as [_ H]. now inversion H. }
  cbn [rbind]. rewrite Hi.
  unfold _linearInterp at 1. change (0 + 1) with 1. rewrite item_1, item_0. cbn [rbind].
  rewrite img_interp_0 by assumption. cbn [rbind].
  rewrite (float_interp_0 _ _ _ _ Hs), (float_interp_0 _ _ _ _ Hm). reflexivity.
Qed.

Lemma imageAtWavelength_at_max tab pre a b ipre ia ib spre sa sb mpre ma mb :
  waves tab = pre ++ [a; b] -> increasing (waves tab) ->
  ims tab = ipre ++ [ia; ib] -> List.length ipre = List.length pre ->
  List.length ib = List.length ia ->
  stepK_vals tab = spre ++ [sa; sb] -> List.length spre = List.length pre ->
  maxK_vals tab = mpre ++ [ma; mb] -> List.length mpre = List.length pre ->
  _imageAtWavelength tab b = Ok (ib, sb, mb).
Proof.
  intros Hw Hinc Hi Hil Hshape Hs Hsl Hm Hml. unfold _imageAtWavelength.
  rewrite Hw in *.
  assert (Hmin : exists lo, np_min (pre ++ [a; b]) = Ok lo /\ (lo <= b)%Qc).
  { destruct pre as [|x pre]; cbn [app] in *.
    - exists a. rewrite np_min_increasing by assumption. split; [reflexivity|].
      apply (increasing_head_le a [b]); simpl; auto.
    - exists x. rewrite np_min_increasing by assumption. split; [reflexivity|].
      apply (increasing_head_le x (pre ++ [a; b])); [assumption|].
      right. apply in_or_app. right. simpl. auto. }
  destruct Hmin as [lo [-> Hlo]]. cbn [rbind].
  assert (Qcltb b lo = false) as -> by now apply Qcltb_ge.
  rewrite np_max_last2 by assumption. cbn [rbind]. rewrite Qcltb_irrefl.
  rewrite findWave_at_max by assumption. cbn [rbind].
  rewrite Hi. unfold _linearInterp at 1. rewrite <- Hil.
  rewrite item_app_last2_a, item_app_last2_b. cbn [rbind].
  rewrite img_interp_1 by assumption. cbn [rbind].
  rewrite Hil, <- Hsl, (float_interp_1 _ _ _ _ Hs).
  rewrite Hsl, <- Hml, (float_interp_1 _ _ _ _ Hm). reflexivity.
Qed.

Lemma hd_decompose {A} (l : list A) :
  (2 <= List.length l)%nat -> exists x y rest, l = x :: y :: rest.
Proof.
  destruct l as [|x [|y rest]]; simpl; intro H; try lia. eauto.
Qed.

(** C10 (amended).  For an interpolated object whose grid has at least two
    wavelengths, none of them repeated, and whose table holds one image, one
    [stepK] and one [maxK] per wavelength, the images being of one shape:
    [evaluateAtWavelength] succeeds at the smallest and at the largest
    wavelength of the grid.  The range check is strict, so both pass it; the
    index found by [_findWave] is [0] at the minimum and [len - 2] at the
    maximum, so that [lower_idx] and [lower_idx + 1] are indices of the
    table; the fractions are 0 and 1, and the results are the first and the
    last stored image, with their own [stepK] and [maxK]. *)
Theorem interpolation_at_grid_ends (a : Attrs) (original : ChromaticObject)
  (tab : Interpolation) (lo hi : Qc) :
  increasing (waves tab) -> (2 <= List.length (waves tab))%nat -> table_ok tab ->
  np_min (waves tab) = Ok lo -> np_max (waves tab) = Ok hi ->
  let self := InterpolatedChromaticObject a original tab in
  _findWave (waves tab) lo = Ok (0, 0%Qc)
  /\ _findWave (waves tab) hi = Ok (Z.of_nat (List.length (waves tab)) - 2, 1%Qc)
  /\ evaluateAtWavelength self lo
     = Ok (GSInterpolatedImage (hd [] (ims tab)) (Some (hd 0%Qc (stepK_vals tab)))
             (Some (hd 0%Qc (maxK_vals tab))) None)
  /\ evaluateAtWavelength self hi
     = Ok (GSInterpolatedImage (last (ims tab) []) (Some (last (stepK_vals tab) 0%Qc))
             (Some (last (maxK_vals tab) 0%Qc)) None).
Proof.
  intros Hinc Hlen [Hi Hs Hm Hshape] Hlo Hhi self.
  destruct (hd_decompose _ Hlen) as [w0 [w1 [rest Hw]]].
  destruct (two_last _ Hlen) as [pre [wa [wb Hw']]].
  assert (lo = w0) as ->.
  { rewrite Hw in Hlo, Hinc. rewrite np_min_increasing in Hlo by assumption. congruence. }
  assert (hi = wb) as ->.
  { rewrite Hw' in Hhi, Hinc. rewrite np_max_last2 in Hhi by assumption. congruence. }
  destruct (hd_decompose (ims tab)) as [i0 [i1 [irest Hi0]]]; [lia|].
  destruct (hd_decompose (stepK_vals tab)) as [s0 [s1 [srest Hs0]]]; [lia|].
  destruct (hd_decompose (maxK_vals tab)) as [m0 [m1 [mrest Hm0]]]; [lia|].
  destruct (same_length_last2 (ims tab) pre wa wb) as [ipre [ia [ib [Hi1 Hil]]]];
    [now rewrite <- Hw'|].
  destruct (same_length_last2 (stepK_vals tab) pre wa wb) as [spre [sa [sb [Hs1 Hsl]]]];
    [now rewrite <- Hw'|].
  destruct (same_length_last2 (maxK_vals tab) pre wa wb) as [mpre [ma [mb [Hm1 Hml]]]];
    [now rewrite <- Hw'|].
  split; [|split; [|split]].
  - rewrite Hw. apply findWave_at_min.
    rewrite Hw in Hinc. apply StronglySorted_inv in Hinc.
    destruct Hinc as [_ H]. now inversion H.
  - rewrite Hw' at 1. rewrite findWave_at_max by (now rewrite <- Hw').
    rewrite Hw', length_app. cbn [List.length]. do 2 f_equal. lia.
  - subst self. cbn [evaluateAtWavelength]. unfold Interpolated_evaluateAtWavelength.
    rewrite (imageAtWavelength_at_min tab w0 w1 rest i0 i1 irest s0 s1 srest m0 m1 mrest);
      try assumption.
    + cbn [rbind]. rewrite Hi0, Hs0, Hm0. reflexivity.
    + apply Hshape; rewrite Hi0; simpl; auto.
  - subst self. cbn [evaluateAtWavelength]. unfold Interpolated_evaluateAtWavelength.
    rewrite (imageAtWavelength_at_max tab pre wa wb ipre ia ib spre sa sb mpre ma mb);
      try assumption.
    + cbn [rbind]. rewrite Hi1, Hs1, Hm1, !last_last2. reflexivity.
    + apply Hshape; rewrite Hi1; apply in_or_app; right; simpl; auto.
Qed.
End GridEnds.

(** The statement at the grid [[500; 600]] of [sample_table]. *)
Lemma interpolation_at_grid_ends_witness :
  let a := mkAttrs false true (Some (flat_sed 0)) None [] in
  let self := InterpolatedChromaticObject a sample_psf sample_table in
  increasing (waves sample_table)
  /\ (2 <= List.length (waves sample_table))%nat
  /\ table_ok sample_table
  /\ np_min (waves sample_table) = Ok (qz 500)
  /\ np_max (waves sample_table) = Ok (qz 600)
  /\ _findWave (waves sample_table) (qz 500) = Ok (0%Z, 0%Qc)
  /\ _findWave (waves sample_table) (qz 600)
     = Ok ((Z.of_nat (List.length (waves sample_table)) - 2)%Z, 1%Qc)
  /\ evaluateAtWavelength self (qz 500)
     = Ok (GSInterpolatedImage (hd [] (ims sample_table))
             (Some (hd 0%Qc (stepK_vals sample_table)))
             (Some (hd 0%Qc (maxK_vals sample_table))) None)
  /\ evaluateAtWavelength self (qz 600)
     = Ok (GSInterpolatedImage (last (ims sample_table) [])
             (Some (last (stepK_vals sample_table) 0%Qc))
             (Some (last (maxK_vals sample_table) 0%Qc)) None).
Proof.
  cbv zeta.
  refine ((fun H1 H2 H3 H4 H5 =>
             conj H1 (conj H2 (conj H3 (conj H4 (conj H5
               (interpolation_at_grid_ends
                  (mkAttrs false true (Some (flat_sed 0)) None []) sample_psf sample_table
                  (qz 500) (qz 600) H1 H2 H3 H4 H5)))))) _ _ _ _ _).
  all: first
         [ reflexivity
         | cbn; lia
         | constructor; try reflexivity;
           intros im1 im2 [<-|[<-|[]]] [<-|[<-|[]]]; reflexivity
         | repeat constructor ].
Defined.

(** C10, a grid outside the amended statement: the object built on the grid
    [[500; 500]] has two grid points, and at 500, the minimum of the grid,
    [_findWave] divides [500 - 500] by [500 - 500]: the fraction is not 0 and
    the evaluation does not return the first stored image. *)
Lemma repeated_wavelength_breaks_the_ends :
  exists o st' a original tab,
    InterpolatedChromaticObject_init sample_ext sample_psf [qz 500; qz 500] 1%Qc initial_state
    = (Ok o, st')
    /\ o = InterpolatedChromaticObject a original tab
    /\ List.length (waves tab) = 2%nat
    /\ np_min (waves tab) = Ok (qz 500)
    /\ _findWave (waves tab) (qz 500) = Raise NotFinite
    /\ evaluateAtWavelength o (qz 500) = Raise NotFinite.
Proof.
  do 5 eexists.
  split; [lazy; reflexivity|]. split; [reflexivity|]. split; [reflexivity|].
  split; [reflexivity|]. split; reflexivity.
Qed.


(** ** Outside the grid *)

Lemma drawImage_fuel_S ext fuel self bandpass image integrator kwargs :
  drawImage_fuel ext (S fuel) self bandpass image integrator kwargs
  = match self with
    | InterpolatedChromaticObject a _ tab =>
        Interpolated_drawImage ext self a tab bandpass image integrator kwargs
    | ChromaticTransformation a _ original _jac _offset _flux_ratio g =>
        Transformation_drawImage ext self a original _jac _offset _flux_ratio g
          bandpass image integrator kwargs
    | ChromaticSum a objlist _ =>
        Sum_drawImage (drawImage_fuel ext fuel) a objlist
          bandpass image integrator kwargs
    | ChromaticConvolution a objlist g =>
        Convolution_drawImage ext (drawImage_fuel ext fuel) self a objlist g
          bandpass image integrator kwargs
    | _ => ChromaticObject_drawImage ext self bandpass image integrator kwargs
    end.
Proof. reflexivity. Qed.

Lemma drawImage_unfold ext self bandpass image integrator kwargs :
  drawImage ext self bandpass image integrator kwargs
  = match self with
    | InterpolatedChromaticObject a _ tab =>
        Interpolated_drawImage ext self a tab bandpass image integrator kwargs
    | ChromaticTransformation a _ original _jac _offset _flux_ratio g =>
        Transformation_drawImage ext self a original _jac _offset _flux_ratio g
          bandpass image integrator kwargs
    | ChromaticSum a objlist _ =>
        Sum_drawImage (drawImage_fuel ext (pred recursion_limit)) a objlist
          bandpass image integrator kwargs
    | ChromaticConvolution a objlist g =>
        Convolution_drawImage ext (drawImage_fuel ext (pred recursion_limit)) self a objlist g
          bandpass image integrator kwargs
    | _ => ChromaticObject_drawImage ext self bandpass image integrator kwargs
    end.
Proof. exact (drawImage_fuel_S ext (pred recursion_limit) self bandpass image integrator kwargs). Qed.

Lemma imageAtWavelength_out_of_range tab lo hi w :
  np_min (waves tab) = Ok lo -> np_max (waves tab) = Ok hi ->
  (w < lo \/ hi < w)%Qc -> _imageAtWavelength tab w = Raise OutOfRange.
Proof.
  intros Hlo Hhi H. unfold _imageAtWavelength. rewrite Hlo. cbn [rbind].
  destruct (Qcltb w lo) eqn:E; [reflexivity|].
  rewrite Hhi. cbn [rbind].
  destruct H as [H|H].
  - apply Qcltb_lt in H. congruence.
  - apply Qcltb_lt in H. now rewrite H.
Qed.

Lemma integrate_out_of_range tab bandpass integrator wave_list lo hi wlo whi :
  np_min (waves tab) = Ok lo -> np_max (waves tab) = Ok hi ->
  np_min wave_list = Ok wlo -> np_max wave_list = Ok whi ->
  (wlo < lo \/ hi < whi)%Qc ->
  integrate_stored_images tab bandpass integrator wave_list = Raise OutOfRange.
Proof.
  intros Hlo Hhi Hwlo Hwhi H. unfold integrate_stored_images.
  rewrite Hwlo, Hlo. cbn [rbind].
  destruct (Qcltb wlo lo) eqn:E; [reflexivity|].
  rewrite Hwhi, Hhi. cbn [rbind].
  destruct H as [H|H]; apply Qcltb_lt in H; [congruence|now rewrite H].
Qed.

(** With a combined wavelength list that leaves the grid,
    [_get_interp_image] raises: [OutOfRange], unless an earlier step fails. *)
Lemma get_interp_image_out_of_range ext self a tab bandpass image integrator kwargs st
  lo hi wlo whi :
  np_min (waves tab) = Ok lo -> np_max (waves tab) = Ok hi ->
  np_min (combine_wave_list [wave_list a; bp_wave_list bandpass]) = Ok wlo ->
  np_max (combine_wave_list [wave_list a; bp_wave_list bandpass]) = Ok whi ->
  (wlo < lo \/ hi < whi)%Qc ->
  exists e st',
    _get_interp_image ext self a tab bandpass image integrator kwargs st = (Raise e, st')
    /\ (forall wave0 prof0 image0,
          integrator = IString "trapezoidal" \/ integrator = IString "midpoint" ->
          _fiducial_profile ext self bandpass = Ok (wave0, prof0) ->
          gs_drawImage ext prof0 image true kwargs = Ok image0 ->
          e = OutOfRange).
Proof.
  intros Hlo Hhi Hwlo Hwhi Hout. unfold _get_interp_image.
  destruct integrator as [s| | |];
    try (exists InvalidIntegratorType, st; split; [reflexivity|];
         intros ? ? ? [H|H]; discriminate).
  destruct (String.eqb s "trapezoidal" || String.eqb s "midpoint") eqn:Es.
  - cbv zeta.
    rewrite (integrate_out_of_range tab bandpass (IString s) _ lo hi wlo whi) by assumption.
    unfold bind, lift, gs_draw, log_draw.
    destruct (_fiducial_profile ext self bandpass) as [[w0 p0]|e0] eqn:Efid.
    + cbv beta iota. unfold bind. cbv beta iota.
      destruct (gs_drawImage ext p0 image true kwargs) as [im0|e1] eqn:Edraw.
      * eexists. eexists. split; reflexivity.
      * eexists. eexists. split; [reflexivity|]. intros ? ? ? _ H1 H2.
        injection H1 as <- <-. congruence.
    + eexists. eexists. split; [reflexivity|]. intros; congruence.
  - exists UnknownIntegrator, st. split; [reflexivity|].
    intros ? ? ? [H|H] _ _; injection H as ->; discriminate Es.
Qed.

(** C8 (amended).  For an interpolated object with grid minimum [lo] and
    maximum [hi]: [evaluateAtWavelength] raises [OutOfRange] at every
    wavelength below [lo] or above [hi]; and [drawImage] over a bandpass whose
    combined wavelength list goes below [lo] or above [hi] never returns an
    image.  The error is [OutOfRange] when the object has an SED, the
    integrator is ["trapezoidal"] or ["midpoint"] and the set-up of the image
    that precedes the range check (the fiducial profile and its set-up
    drawing) succeeds; otherwise the earlier step fails first. *)
Theorem interpolated_object_never_extrapolates (ext : External) (a : Attrs)
  (original : ChromaticObject) (tab : Interpolation) (lo hi : Qc) :
  np_min (waves tab) = Ok lo -> np_max (waves tab) = Ok hi ->
  let self := InterpolatedChromaticObject a original tab in
  (forall w, (w < lo \/ hi < w)%Qc -> evaluateAtWavelength self w = Raise OutOfRange)
  /\ (forall bandpass image integrator kwargs st wlo whi,
        np_min (combine_wave_list [wave_list a; bp_wave_list bandpass]) = Ok wlo ->
        np_max (combine_wave_list [wave_list a; bp_wave_list bandpass]) = Ok whi ->
        (wlo < lo \/ hi < whi)%Qc ->
        (exists e st', drawImage ext self bandpass image integrator kwargs st = (Raise e, st'))
        /\ (forall sed wave0 prof0 image0,
              SED a = Some sed ->
              integrator = IString "trapezoidal" \/ integrator = IString "midpoint" ->
              _fiducial_profile ext self bandpass = Ok (wave0, prof0) ->
              gs_drawImage ext prof0 image true kwargs = Ok image0 ->
              exists st', drawImage ext self bandpass image integrator kwargs st
                          = (Raise OutOfRange, st'))).
Proof.
  intros Hlo Hhi self. split.
  - intros w Hw. subst self. cbn [evaluateAtWavelength].
    unfold Interpolated_evaluateAtWavelength.
    now rewrite (imageAtWavelength_out_of_range tab lo hi w).
  - intros bandpass image integrator kwargs st wlo whi Hwlo Hwhi Hout.
    pose proof (get_interp_image_out_of_range ext self a tab bandpass image integrator
                  kwargs st lo hi wlo whi Hlo Hhi Hwlo Hwhi Hout) as (e & st' & Hrun & He).
    split.
    + rewrite drawImage_unfold. unfold self at 1. cbv beta iota.
      unfold Interpolated_drawImage. destruct (SED a) as [sed|].
      * exists e, st'. unfold bind. now rewrite Hrun.
      * exists MissingSED, st. reflexivity.
    + intros sed wave0 prof0 image0 Hsed Hint Hfid Hsetup.
      rewrite drawImage_unfold. unfold self at 1. cbv beta iota.
      unfold Interpolated_drawImage. rewrite Hsed.
      exists st'. unfold bind. rewrite Hrun.
      now rewrite (He wave0 prof0 image0).
Qed.

(** The statement at [sample_table], whose grid is [[500; 600]]. *)
Lemma interpolated_object_never_extrapolates_witness :
  let a := mkAttrs false true (Some (flat_sed 0)) None [] in
  let self := InterpolatedChromaticObject a sample_psf sample_table in
  np_min (waves sample_table) = Ok (qz 500)
  /\ np_max (waves sample_table) = Ok (qz 600)
  /\ (forall w, (w < qz 500 \/ qz 600 < w)%Qc -> evaluateAtWavelength self w = Raise OutOfRange)
  /\ (forall bandpass image integrator kwargs st wlo whi,
        np_min (combine_wave_list [wave_list a; bp_wave_list bandpass]) = Ok wlo ->
        np_max (combine_wave_list [wave_list a; bp_wave_list bandpass]) = Ok whi ->
        (wlo < qz 500 \/ qz 600 < whi)%Qc ->
        (exists e st', drawImage sample_ext self bandpass image integrator kwargs st
                       = (Raise e, st'))
        /\ (forall sed wave0 prof0 image0,
              SED a = Some sed ->
              integrator = IString "trapezoidal" \/ integrator = IString "midpoint" ->
              _fiducial_profile sample_ext self bandpass = Ok (wave0, prof0) ->
              gs_drawImage sample_ext prof0 image true kwargs = Ok image0 ->
              exists st', drawImage sample_ext self bandpass image integrator kwargs st
                          = (Raise OutOfRange, st'))).
Proof.
  cbv zeta.
  refine ((fun H1 H2 =>
             conj H1 (conj H2
               (interpolated_object_never_extrapolates sample_ext
                  (mkAttrs false true (Some (flat_sed 0)) None []) sample_psf sample_table
                  (qz 500) (qz 600) H1 H2))) _ _); reflexivity.
Defined.

(** C8, an object outside the amended statement: the interpolation of a
    chromatic PSF has no SED; drawn over a bandpass whose knots, 400 and 700,
    lie outside the grid [[500; 600]], it fails with [MissingSED], not with
    [OutOfRange]. *)
Lemma draw_without_SED_is_not_out_of_range :
  let band := sample_bandpass (fun _ => 1%Qc) [qz 400; qz 700] in
  exists o st1 a original tab,
    InterpolatedChromaticObject_init sample_ext sample_psf [qz 500; qz 600] 1%Qc initial_state
    = (Ok o, st1)
    /\ o = InterpolatedChromaticObject a original tab
    /\ waves tab = [qz 500; qz 600]
    /\ combine_wave_list [wave_list a; bp_wave_list band] = [qz 400; qz 700]
    /\ drawImage sample_ext o band None default_integrator no_kwargs st1
       = (Raise MissingSED, st1).
Proof.
  cbv zeta. do 5 eexists.
  split; [lazy; reflexivity|]. split; [reflexivity|].
  split; [reflexivity|]. split; [reflexivity|].
  lazy; reflexivity.
Qed.


(** ** Drawing needs an SED *)

(** C5.  [drawImage] of an object whose [SED] is [None] raises [MissingSED],
    whatever the class of the object, the bandpass and the other arguments;
    the state is the one before the call: nothing was rendered, no cache was
    touched. *)
Theorem drawImage_without_SED (ext : External) (self : ChromaticObject) (bandpass : Bandpass)
  (image : option Image) (integrator : Integrator) (kwargs : Kwargs) (st : St) :
  SED (attrs self) = None ->
  drawImage ext self bandpass image integrator kwargs st = (Raise MissingSED, st).
Proof.
  intro H. rewrite drawImage_unfold.
  destruct self; cbn [attrs] in H; cbv beta iota;
    unfold ChromaticObject_drawImage, Interpolated_drawImage, Transformation_drawImage,
           Sum_drawImage, Convolution_drawImage; cbn [attrs]; rewrite H; reflexivity.
Qed.

(** The statement at a chromatic PSF, which has no SED. *)
Lemma drawImage_without_SED_witness :
  SED (attrs sample_psf) = None
  /\ drawImage sample_ext sample_psf (sample_bandpass (fun _ => 1%Qc) []) None
       default_integrator no_kwargs initial_state
     = (Raise MissingSED, initial_state).
Proof.
  split; [reflexivity|]. apply drawImage_without_SED. reflexivity.
Defined.


(** ** Invalid compositions *)

Lemma functionize2_ok {A B C} (f : A -> B -> C) x y st :
  exists v st', functionize2 f x y st = (Ok v, st').
Proof.
  unfold functionize2, bind, fresh, ret. destruct x, y; cbn; eauto.
Qed.

Lemma accumulate_two_SEDs (l : list ChromaticObject) :
  Forall SED_xor_norm l ->
  forall sed norm st,
    (2 <= (match sed with Some _ => 1 | None => 0 end) + List.length (filter has_SED l))%nat ->
    exists st',
      mfold (fun (acc : option galsim_SED * WFun Qc) obj =>
             let '(sed, norm) := acc in
             match SED (attrs obj) with
             | Some s =>
                 match sed with
                 | None => ret (Some s, norm)
                 | Some _ => raise (InvalidComposition TwoSEDsConvolved)
                 end
             | None =>
                 match _norm (attrs obj) with
                 | Some n => (norm' <- functionize2 Qcmult norm n;; ret (sed, norm'))
                 | None => raise NoneOperand
                 end
             end%monad) l (sed, norm) st
      = (Raise (InvalidComposition TwoSEDsConvolved), st').
Proof.
  induction 1 as [|obj l Hx Hl IH]; intros sed norm st Hc.
  - simpl in Hc. destruct sed; simpl in Hc; lia.
  - cbn [mfold]. unfold bind at 1.
    cbn [filter] in Hc. unfold has_SED at 1 in Hc.
    unfold SED_xor_norm, has_SED, has_norm in Hx.
    destruct (SED (attrs obj)) as [s|] eqn:Es.
    + destruct sed as [s0|].
      * cbn. eauto.
      * cbn [ret]. apply IH. cbn [List.length] in Hc. lia.
    + destruct (_norm (attrs obj)) as [n|] eqn:En; [|discriminate].
      unfold bind at 1.
      destruct (functionize2_ok Qcmult norm n st) as [v [st1 ->]].
      cbn [ret]. apply IH. exact Hc.
Qed.

(** C6.  A constructor given an invalid composition raises the
    [InvalidComposition] of that composition, and returns no object: a
    convolution of two or more children with an SED, a deconvolution,
    autoconvolution, autocorrelation or Fourier square root of a child with
    an SED, a sum of children of which some have an SED and some a [_norm].
    The children are objects that have exactly one of [SED] and [_norm]. *)
Theorem invalid_composition_is_rejected (ext : External) (r : Request) (fault : Composition)
  (st : St) :
  Forall SED_xor_norm (operands r) ->
  invalid_composition r = Some fault ->
  exists st', construct ext r st = (Raise (InvalidComposition fault), st').
Proof.
  intros Hx Hinv.
  destruct r; cbn [invalid_composition] in Hinv; try discriminate; cbn [construct operands] in *.
  - (* sum *)
    destruct (existsb has_SED (args_list args) && existsb has_norm (args_list args)) eqn:E;
      [|discriminate].
    injection Hinv as <-. exists st.
    unfold ChromaticSum_init. cbn [ChromaticSum_init_fuel].
    destruct args as [[|x l]|l]; cbn [args_list] in E; [discriminate|..];
      cbn [unpack_args]; unfold bind, lift; cbn beta iota;
      unfold has_SED, has_norm in E; try (rewrite E; reflexivity).
  - (* convolution *)
    destruct (2 <=? List.length (filter has_SED (args_list args)))%nat eqn:E; [|discriminate].
    injection Hinv as <-. apply Nat.leb_le in E.
    unfold ChromaticConvolution_init.
    assert (Hu : unpack_args args = Ok (args_list args)).
    { destruct args as [[|x l]|l]; cbn in *; try reflexivity. lia. }
    rewrite Hu. unfold bind at 1. unfold lift. cbv beta iota.
    unfold bind at 1. unfold accumulate_norms.
    destruct (accumulate_two_SEDs (args_list args) Hx None (WConst 1%Qc) st) as [st' ->];
      [cbn; lia|].
    eauto.
  - unfold ChromaticDeconvolution_init, unary_attrs, bind.
    unfold has_SED in Hinv. destruct (SED (attrs obj)); [|discriminate].
    injection Hinv as <-. exists st. reflexivity.
  - unfold ChromaticAutoConvolution_init, unary_attrs, bind.
    unfold has_SED in Hinv. destruct (SED (attrs obj)); [|discriminate].
    injection Hinv as <-. exists st. reflexivity.
  - unfold ChromaticAutoCorrelation_init, unary_attrs, bind.
    unfold has_SED in Hinv. destruct (SED (attrs obj)); [|discriminate].
    injection Hinv as <-. exists st. reflexivity.
  - unfold ChromaticFourierSqrtProfile_init, unary_attrs, bind.
    unfold has_SED in Hinv. destruct (SED (attrs obj)); [|discriminate].
    injection Hinv as <-. exists st. reflexivity.
Qed.

(** The statement at the sum of a leaf with an SED and a chromatic PSF. *)
Lemma invalid_composition_is_rejected_witness :
  let r := NewChromaticSum (OneList [leaf 1 (flat_sed 0); sample_psf]) None in
  Forall SED_xor_norm (operands r)
  /\ invalid_composition r = Some MixedSum
  /\ exists st',
      construct sample_ext r initial_state = (Raise (InvalidComposition MixedSum), st').
Proof.
  cbv zeta.
  refine ((fun H1 H2 =>
             conj H1 (conj H2 (invalid_composition_is_rejected sample_ext _ _ initial_state
                                 H1 H2))) _ _).
  all: first [reflexivity | repeat constructor].
Defined.


(** ** Exactly one of SED and _norm *)

Lemma bind_Ok_inv {A B} (m : M A) (k : A -> M B) st b st' :
  bind m k st = (Ok b, st') ->
  exists a st1, m st = (Ok a, st1) /\ k a st1 = (Ok b, st').
Proof.
  unfold bind. destruct (m st) as [[a|e] st1]; intro H; [eauto|discriminate].
Qed.

Lemma lift_Ok_inv {A} (r : Result A) st a st' :
  lift r st = (Ok a, st') -> r = Ok a /\ st' = st.
Proof. unfold lift. intro H. injection H as -> ->. auto. Qed.

Lemma ret_Ok_inv {A} (x : A) st a st' :
  ret x st = (Ok a, st') -> a = x /\ st' = st.
Proof. unfold ret. intro H. injection H as -> ->. auto. Qed.

Lemma raise_Ok_inv {A} e st (a : A) st' : raise e st = (Ok a, st') -> False.
Proof. discriminate. Qed.

(** Inversion of a monadic run that ended well, one step at a time. *)
Ltac minv H :=
  lazymatch type of H with
  | bind _ _ _ = (Ok _, _) =>
      let a := fresh "a" in let st1 := fresh "st" in
      let H1 := fresh "Hm" in let H2 := fresh "Hk" in
      apply bind_Ok_inv in H; destruct H as [a [st1 [H1 H2]]]
  | lift _ _ = (Ok _, _) =>
      let E := fresh "E" in apply lift_Ok_inv in H; destruct H as [H E]; try subst
  | ret _ _ = (Ok _, _) =>
      let E := fresh "E" in apply ret_Ok_inv in H; destruct H as [H E]; try subst
  | raise _ _ = (Ok _, _) => exfalso; exact (raise_Ok_inv _ _ _ _ H)
  end.

Lemma Built_induction (ext : External) (P : ChromaticObject -> Prop) :
  (forall r st st' o,
      Forall (Built ext) (operands r) -> Forall P (operands r) ->
      construct ext r st = (Ok o, st') -> P o) ->
  forall o, Built ext o -> P o.
Proof.
  intro step. fix IH 2. intros o [r st st' o' Hops Hc].
  apply (step r st st' o' Hops); [|exact Hc].
  clear Hc. induction Hops as [|x l Hx Hl IHl]; constructor; [apply IH; exact Hx|exact IHl].
Qed.

Lemma xor_of_attrs (o : ChromaticObject) sep int sed norm wl :
  attrs o = mkAttrs sep int sed norm wl ->
  (match sed, norm with Some _, None | None, Some _ => True | _, _ => False end) ->
  SED_xor_norm o.
Proof.
  intros E H. unfold SED_xor_norm, has_SED, has_norm. rewrite E. cbn.
  destruct sed, norm; try contradiction; reflexivity.
Qed.

Lemma sort_summands_spec b l :
  forall d acc d' acc',
    sort_summands b l d acc = (d', acc') ->
    acc' = acc ++ filter (fun c => negb (separable (attrs c))) l.
Proof.
  induction l as [|c l IH]; intros d acc d' acc' H; cbn in H.
  - injection H as <- <-. now rewrite app_nil_r.
  - cbn [filter]. destruct (separable (attrs c)); cbn [negb].
    + now apply IH in H.
    + apply IH in H. now rewrite <- app_assoc in H.
Qed.

Lemma mmap_length {A B} (f : A -> M B) l st r st' :
  mmap f l st = (Ok r, st') -> List.length r = List.length l.
Proof.
  revert st r st'. induction l as [|a l IH]; intros st r st' H; cbn [mmap] in H.
  - minv H. reflexivity.
  - minv H. minv Hk. minv Hk0. cbn. f_equal. eauto.
Qed.

Lemma sum_of_SEDs_some objlist st sed st' :
  sum_of_SEDs objlist st = (Ok sed, st') ->
  (exists first, objlist = [first] /\ sed = SED (attrs first)) \/ (exists s, sed = Some s).
Proof.
  unfold sum_of_SEDs. destruct objlist as [|first rest]; [discriminate|].
  destruct rest as [|second rest].
  - cbn. intro H. injection H as <- <-. left. eauto.
  - intro H. right.
    assert (G : forall rest acc st sed st',
               mfold (fun acc obj =>
                 match acc, SED (attrs obj) with
                 | Some s1, Some s2 => (s <- sed_add s1 s2;; ret (Some s))%monad
                 | _, _ => raise NoneOperand
                 end) rest acc st = (Ok sed, st') ->
               rest <> [] -> exists s, sed = Some s).
    { clear. induction rest as [|o rest IH]; intros acc st sed st' H Hne; [congruence|].
      cbn [mfold] in H. minv H.
      destruct acc as [s1|]; [|discriminate].
      destruct (SED (attrs o)) as [s2|]; [|discriminate].
      minv Hm. minv Hk0.
      destruct rest as [|o' rest'].
      - cbn in Hk. injection Hk as <- <-. eauto.
      - eapply IH; [exact Hk|congruence]. }
    eapply G; [exact H|congruence].
Qed.

Lemma ChromaticSum_init_xor fuel args g st o st' :
  Forall SED_xor_norm (args_list args) ->
  ChromaticSum_init_fuel fuel args g st = (Ok o, st') ->
  SED_xor_norm o.
Proof.
  intros Hx H. destruct fuel as [|fuel]; [discriminate|].
  cbn [ChromaticSum_init_fuel] in H.
  minv H. minv Hm.
  assert (a = args_list args) as ->.
  { destruct args as [[|? ?]|?]; cbn in Hm |- *; congruence. }
  set (l := args_list args) in *.
  set (isSEDed := existsb _ l) in Hk.
  set (isNormed := existsb _ l) in Hk.
  destruct (isSEDed && isNormed) eqn:Emix; [discriminate|].
  destruct (sort_summands isSEDed l [] []) as [norm_dict insep] eqn:Esort.
  minv Hk. destruct a as [[objlist sed] norm]. minv Hk0.
  eapply xor_of_attrs; [reflexivity|].
  destruct (Nat.eqb (List.length insep) 0 && Nat.eqb (List.length norm_dict) 1) eqn:Esep.
  - destruct norm_dict as [|[k v] rest]; [discriminate|].
    destruct isSEDed.
    + destruct k; try discriminate.
      unfold bind, sed_mul, fresh, ret in Hm0. cbn in Hm0. inversion Hm0. exact I.
    + destruct k as [|s|[x|i f]]; try discriminate;
        unfold bind, lambda, fresh, ret in Hm0; cbn in Hm0; inversion Hm0; exact I.
  - apply bind_Ok_inv in Hm0. destruct Hm0 as [partial [st2 [Hpartial Hrest]]].
    destruct isSEDed eqn:EisS.
    + apply bind_Ok_inv in Hrest. destruct Hrest as [sed0 [st3 [Hsum Hret]]].
      unfold ret in Hret. inversion Hret; subst.
      destruct (sum_of_SEDs_some _ _ _ _ Hsum) as [[first [Hone ->]]|[s ->]]; [|exact I].
      (* a single object: it is an inseparable summand *)
      apply sort_summands_spec in Esort. cbn [app] in Esort.
      apply mmap_length in Hpartial.
      destruct insep as [|c insep'].
      * cbn [app] in Hone. subst partial. cbn [List.length] in Hpartial.
        rewrite <- Hpartial in Esep. cbn in Esep. discriminate.
      * destruct insep'; [|destruct insep'; discriminate].
        destruct partial; [|discriminate]. injection Hone as ->.
        assert (Hin : In first l).
        { assert (Hf : In first (filter (fun c => negb (separable (attrs c))) l))
            by (rewrite <- Esort; simpl; auto).
          now apply filter_In in Hf. }
        rewrite Forall_forall in Hx. specialize (Hx first Hin).
        subst isNormed. cbn in Emix.
        assert (Hn : _norm (attrs first) = None).
        { destruct (_norm (attrs first)) eqn:En; [|reflexivity].
          exfalso. rewrite (proj2 (existsb_exists _ l)) in Emix; [discriminate|].
          exists first. rewrite En. auto. }
        unfold SED_xor_norm, has_SED, has_norm in Hx. rewrite Hn in Hx.
        destruct (SED (attrs first)); [exact I|discriminate].
    + apply bind_Ok_inv in Hrest. destruct Hrest as [n0 [st3 [Hsum Hret]]].
      unfold ret in Hret. inversion Hret; subst. exact I.
Qed.

(** Inversion of a whole successful run. *)
Ltac minv_all :=
  repeat (cbv zeta in *;
          match goal with
          | H : bind _ _ _ = (Ok _, _) |- _ =>
              apply bind_Ok_inv in H; destruct H as (? & ? & ? & ?)
          | H : lift _ _ = (Ok _, _) |- _ => apply lift_Ok_inv in H; destruct H as [? ?]
          | H : ret _ _ = (Ok _, _) |- _ => apply ret_Ok_inv in H; destruct H as [? ?]
          | H : raise _ _ = (Ok _, _) |- _ => discriminate H
          | H : (_, _) = (_, _) |- _ => injection H as ? ?
          | H : (match ?x with (_, _) => _ end) _ = (Ok _, _) |- _ => destruct x
          end); subst.

Lemma unary_attrs_xor fault on_norm obj st a st' :
  unary_attrs fault on_norm obj st = (Ok a, st') ->
  SED a = None /\ exists n, _norm a = Some n.
Proof.
  unfold unary_attrs. destruct (SED (attrs obj)); [discriminate|].
  intro H. minv_all. cbn. eauto.
Qed.

Ltac unary_case :=
  minv_all;
  match goal with
  | Hm : unary_attrs _ _ _ _ = _ |- _ =>
      let E1 := fresh "E" in let E2 := fresh "E" in let n := fresh "n" in
      apply unary_attrs_xor in Hm; destruct Hm as [E1 [n E2]];
      unfold SED_xor_norm, has_SED, has_norm; cbn [attrs]; rewrite E1, E2; reflexivity
  end.

Lemma ChromaticObject_init_xor ext obj st o st' :
  Forall SED_xor_norm (operands (NewChromaticObject obj)) ->
  ChromaticObject_init ext obj st = (Ok o, st') -> SED_xor_norm o.
Proof.
  intros Hops H. destruct obj as [g|c|[|]]; cbn [ChromaticObject_init operands] in *.
  - destruct (Qceqb (gs_flux ext g) 1); minv_all; reflexivity.
  - minv_all. inversion Hops as [|? ? Hc _]; subst. exact Hc.
  - discriminate.
  - discriminate.
Qed.

Lemma Chromatic_init_xor ext gsobj sed st o st' :
  Chromatic_init ext gsobj sed st = (Ok o, st') -> SED_xor_norm o.
Proof. unfold Chromatic_init. intro H. minv_all. reflexivity. Qed.

Lemma InterpolatedChromaticObject_init_xor ext d original waves fac st o st' :
  SED_xor_norm original ->
  InterpolatedChromaticObject_init_with ext d original waves fac st = (Ok o, st') ->
  SED_xor_norm o.
Proof.
  unfold InterpolatedChromaticObject_init_with. intros Hc H. minv_all. exact Hc.
Qed.

Lemma ChromaticTransformation_init_xor d obj jac offset flux_ratio g st o st' :
  ChromaticTransformation_init_with d obj jac offset flux_ratio g st = (Ok o, st') ->
  SED_xor_norm o.
Proof.
  unfold ChromaticTransformation_init_with. intro H. minv_all.
  eapply xor_of_attrs; [reflexivity|].
  destruct flux_ratio as [y|s]; destruct (SED (attrs obj)); try discriminate;
    try (destruct (_norm (attrs obj)); [|discriminate]); minv_all; exact I.
Qed.

Lemma ChromaticConvolution_init_xor args g st o st' :
  ChromaticConvolution_init args g st = (Ok o, st') -> SED_xor_norm o.
Proof.
  unfold ChromaticConvolution_init. intro H.
  minv_all. eapply xor_of_attrs; [reflexivity|].
  match goal with
  | Hs : (match ?sed with Some _ => _ | None => _ end) _ = _ |- _ =>
      destruct sed; minv_all; exact I
  end.
Qed.

Lemma construct_interpolated ext original waves fac :
  construct ext (NewInterpolatedChromaticObject original waves fac)
  = InterpolatedChromaticObject_init_with ext (deinterpolated ext) original waves fac.
Proof. reflexivity. Qed.

Lemma construct_transformation ext obj jac offset flux_ratio g :
  construct ext (NewChromaticTransformation obj jac offset flux_ratio g)
  = ChromaticTransformation_init_with (deinterpolated ext) obj jac offset flux_ratio g.
Proof. reflexivity. Qed.

(** C4.  Every object built by the constructors, from objects they built,
    has exactly one of [SED] and [_norm]. *)
Theorem constructors_keep_SED_xor_norm (ext : External) (o : ChromaticObject) :
  Built ext o -> SED_xor_norm o.
Proof.
  revert o. apply Built_induction. intros r st st' o _ Hops H.
  destruct r.
  - exact (ChromaticObject_init_xor _ _ _ _ _ Hops H).
  - exact (Chromatic_init_xor _ _ _ _ _ _ H).
  - cbn [construct] in H. unfold ChromaticPSF_init in H. minv_all. reflexivity.
  - rewrite construct_interpolated in H.
    exact (InterpolatedChromaticObject_init_xor _ _ _ _ _ _ _ _ (Forall_inv Hops) H).
  - rewrite construct_transformation in H.
    exact (ChromaticTransformation_init_xor _ _ _ _ _ _ _ _ _ H).
  - exact (ChromaticSum_init_xor _ _ _ _ _ _ Hops H).
  - exact (ChromaticConvolution_init_xor _ _ _ _ _ H).
  - cbn [construct] in H. unfold ChromaticDeconvolution_init in H. unary_case.
  - cbn [construct] in H. unfold ChromaticAutoConvolution_init in H. unary_case.
  - cbn [construct] in H. unfold ChromaticAutoCorrelation_init in H. unary_case.
  - cbn [construct] in H. unfold ChromaticFourierSqrtProfile_init in H. unary_case.
Qed.

(** The statement at the object [Chromatic] builds from a profile and a
    spectrum. *)
Lemma constructors_keep_SED_xor_norm_witness :
  exists o st',
    construct sample_ext (NewChromatic (GSProfile 1) (flat_sed 0)) initial_state = (Ok o, st')
    /\ Built sample_ext o /\ SED_xor_norm o.
Proof.
  let r := eval lazy in (construct sample_ext (NewChromatic (GSProfile 1) (flat_sed 0))
                           initial_state) in
  lazymatch r with (Ok ?o, ?st') => exists o, st' end.
  refine ((fun H1 =>
             (fun H2 => conj H1 (conj H2 (constructors_keep_SED_xor_norm sample_ext _ H2)))
               (Built_by sample_ext (NewChromatic (GSProfile 1) (flat_sed 0))
                  initial_state _ _ (Forall_nil _) H1)) _).
  lazy; reflexivity.
Defined.


(** ** Separable sums *)

(** C2, at the empty list.  The constructor raises for [ChromaticSum()], and
    the comment of that guard has an empty list raise as well ("Could
    initialize with an empty list but draw then segfaults.  Raise an
    exception instead."); but the guard counts the arguments, and
    [ChromaticSum([])] has one.  That sum is built, and it is not separable,
    though each of its (no) summands is separable and has the SED of every
    other. *)
Lemma empty_sum_is_not_separable :
  ChromaticSum_init (Star []) None initial_state = (Raise NoArguments, initial_state)
  /\ exists o st',
      ChromaticSum_init (OneList []) None initial_state = (Ok o, st')
      /\ separable (attrs o) = false
      /\ sum_separable_spec (args_list (OneList [])).
Proof.
  split; [lazy; reflexivity|].
  do 2 eexists. split; [lazy; reflexivity|]. split; [reflexivity|].
  split; [constructor|]. intros c1 c2 [].
Qed.

(** *** The dictionary of the separable summands *)

Lemma NormKey_eqb_refl k : NormKey_eqb k k = true.
Proof.
  destruct k as [|s|[x|i f]]; cbn; auto using Nat.eqb_refl, Qceqb_refl.
Qed.

Lemma NormKey_eqb_sym k1 k2 : NormKey_eqb k1 k2 = true -> NormKey_eqb k2 k1 = true.
Proof.
  destruct k1 as [|s1|[x1|i1 f1]], k2 as [|s2|[x2|i2 f2]]; cbn; try discriminate; auto.
  - rewrite !Nat.eqb_eq. auto.
  - intro H. apply Qceqb_eq in H. subst. apply Qceqb_refl.
  - rewrite !Nat.eqb_eq. auto.
Qed.

Lemma NormKey_eqb_trans k1 k2 k3 :
  NormKey_eqb k1 k2 = true -> NormKey_eqb k2 k3 = true -> NormKey_eqb k1 k3 = true.
Proof.
  destruct k1 as [|s1|[x1|i1 f1]], k2 as [|s2|[x2|i2 f2]], k3 as [|s3|[x3|i3 f3]];
    cbn; try discriminate; auto.
  - rewrite !Nat.eqb_eq. congruence.
  - intros H1 H2. apply Qceqb_eq in H1, H2. subst. apply Qceqb_refl.
  - rewrite !Nat.eqb_eq. congruence.
Qed.

Lemma norm_dict_append_nonempty k o d : norm_dict_append k o d <> [].
Proof. destruct d as [|[k0 v0] d]; cbn; [|destruct (NormKey_eqb k k0)]; discriminate. Qed.

Lemma norm_dict_append_length k o d :
  (List.length d <= List.length (norm_dict_append k o d))%nat.
Proof.
  induction d as [|[k0 v0] d IH]; cbn; [lia|].
  destruct (NormKey_eqb k k0); cbn; lia.
Qed.

Lemma sort_summands_length b l :
  forall d acc,
    (List.length d <= List.length (fst (sort_summands b l d acc)))%nat.
Proof.
  induction l as [|c l IH]; intros d acc; cbn; [lia|].
  destruct (separable (attrs c)); [|apply IH].
  etransitivity; [apply norm_dict_append_length|apply IH].
Qed.

(** With one entry in the dictionary, one entry is left at the end exactly
    when every separable summand still to come has the key of that entry. *)
Lemma sort_summands_one_key b l :
  forall k0 v0 acc,
    List.length (fst (sort_summands b l [(k0, v0)] acc)) = 1%nat
    <-> (forall c, In c l -> separable (attrs c) = true ->
                   NormKey_eqb (norm_key b c) k0 = true).
Proof.
  induction l as [|c l IH]; intros k0 v0 acc; cbn [sort_summands].
  - cbn. split; [contradiction|reflexivity].
  - destruct (separable (attrs c)) eqn:Es.
    + cbn [norm_dict_append]. destruct (NormKey_eqb (norm_key b c) k0) eqn:Ek.
      * rewrite IH. split.
        -- intros H c' [<-|Hin] Hs; auto.
        -- intros H c' Hin Hs. apply H; [now right|exact Hs].
      * split.
        -- intro H.
           pose proof (sort_summands_length b l [(k0, v0); (norm_key b c, [c])] acc) as Hl.
           cbn [List.length] in Hl. lia.
        -- intro H. specialize (H c (or_introl eq_refl) Es). congruence.
    + rewrite IH. split.
      * intros H c' [<-|Hin] Hs; [congruence|auto].
      * intros H c' Hin Hs. apply H; [now right|exact Hs].
Qed.

(** *** Keys and the spec's "same spectral density object or norm value" *)

Lemma key_eqb_same (b : bool) (c1 c2 : ChromaticObject) :
  (if b then _norm (attrs c1) = None /\ _norm (attrs c2) = None
   else SED (attrs c1) = None /\ SED (attrs c2) = None) ->
  NormKey_eqb (norm_key b c1) (norm_key b c2) = true <-> same_normalisation c1 c2.
Proof.
  unfold norm_key, same_normalisation. destruct b; intros [E1 E2]; rewrite ?E1, ?E2.
  - destruct (SED (attrs c1)), (SED (attrs c2)); cbn;
      rewrite ?Nat.eqb_eq; intuition discriminate.
  - destruct (_norm (attrs c1)) as [[x|i f]|], (_norm (attrs c2)) as [[y|j h]|]; cbn;
      rewrite ?Nat.eqb_eq; try (intuition discriminate).
    split; [apply Qceqb_eq|intros ->; apply Qceqb_refl].
Qed.

Lemma existsb_false_all {A} (f : A -> bool) l x :
  existsb f l = false -> In x l -> f x = false.
Proof.
  intros H Hin. destruct (f x) eqn:E; [|reflexivity].
  rewrite (proj2 (existsb_exists f l)) in H; [discriminate|eauto].
Qed.

(** In a sum that is not refused, the keys compare as the spec says. *)
Lemma unmixed_keys (l : list ChromaticObject) :
  let isSEDed := existsb (fun a => match SED (attrs a) with Some _ => true | None => false end) l in
  let isNormed := existsb (fun a => match _norm (attrs a) with Some _ => true | None => false end) l in
  isSEDed && isNormed = false ->
  forall c1 c2, In c1 l -> In c2 l ->
    NormKey_eqb (norm_key isSEDed c1) (norm_key isSEDed c2) = true <-> same_normalisation c1 c2.
Proof.
  intros isSEDed isNormed Hmix c1 c2 H1 H2. apply key_eqb_same.
  destruct isSEDed eqn:Es.
  - cbn in Hmix. subst isNormed.
    pose proof (existsb_false_all _ _ c1 Hmix H1) as E1.
    pose proof (existsb_false_all _ _ c2 Hmix H2) as E2. cbn in E1, E2.
    destruct (_norm (attrs c1)), (_norm (attrs c2)); try discriminate; auto.
  - subst isSEDed.
    pose proof (existsb_false_all _ _ c1 Es H1) as E1.
    pose proof (existsb_false_all _ _ c2 Es H2) as E2. cbn in E1, E2.
    destruct (SED (attrs c1)), (SED (attrs c2)); try discriminate; auto.
Qed.

Lemma filter_nil_all {A} (f : A -> bool) l :
  filter f l = [] <-> Forall (fun x => f x = false) l.
Proof.
  induction l as [|x l IH]; cbn; [split; auto|].
  destruct (f x) eqn:E.
  - split; [discriminate|]. intro H. inversion H; congruence.
  - rewrite IH. split; [auto|]. intro H. now inversion H.
Qed.

(** The flag [separable] computed by [ChromaticSum.__init__] for a list of
    summands that is not empty. *)
Lemma sum_separable_flag (l : list ChromaticObject) :
  let isSEDed := existsb (fun a => match SED (attrs a) with Some _ => true | None => false end) l in
  let isNormed := existsb (fun a => match _norm (attrs a) with Some _ => true | None => false end) l in
  l <> [] ->
  isSEDed && isNormed = false ->
  forall norm_dict objlist,
    sort_summands isSEDed l [] [] = (norm_dict, objlist) ->
    (Nat.eqb (List.length objlist) 0 && Nat.eqb (List.length norm_dict) 1 = true
     <-> sum_separable_spec l).
Proof.
  intros isSEDed isNormed Hne Hmix norm_dict objlist Hsort.
  pose proof (unmixed_keys l Hmix) as Hkeys. fold isSEDed in Hkeys.
  pose proof (sort_summands_spec _ _ _ _ _ _ Hsort) as Hins. cbn [app] in Hins.
  rewrite andb_true_iff, !Nat.eqb_eq, length_zero_iff_nil.
  unfold sum_separable_spec.
  assert (Hall : objlist = [] <-> Forall (fun c => separable (attrs c) = true) l).
  { rewrite Hins, filter_nil_all. split; apply Forall_impl; intro c.
    - now destruct (separable (attrs c)).
    - now intros ->. }
  destruct l as [|c l']; [congruence|].
  split.
  - intros [Hnil Hone]. split; [now apply Hall|].
    apply Hall in Hnil. pose proof (Forall_inv Hnil) as Hc.
    cbn [sort_summands] in Hsort. rewrite Hc in Hsort. cbn [norm_dict_append] in Hsort.
    assert (Hlen : List.length (fst (sort_summands isSEDed l' [(norm_key isSEDed c, [c])] []))
                   = 1%nat) by now rewrite Hsort.
    rewrite sort_summands_one_key in Hlen.
    assert (Hk : forall c', In c' (c :: l') ->
                   NormKey_eqb (norm_key isSEDed c') (norm_key isSEDed c) = true).
    { intros c' [<-|Hin]; [apply NormKey_eqb_refl|].
      apply Hlen; [exact Hin|].
      rewrite Forall_forall in Hnil. apply Hnil. now right. }
    intros c1 c2 H1 H2. apply Hkeys; [exact H1|exact H2|].
    eapply NormKey_eqb_trans; [apply Hk, H1|apply NormKey_eqb_sym, Hk, H2].
  - intros [Hsep Hsame]. split; [now apply Hall|].
    pose proof (Forall_inv Hsep) as Hc.
    cbn [sort_summands] in Hsort. rewrite Hc in Hsort. cbn [norm_dict_append] in Hsort.
    change norm_dict with (fst (norm_dict, objlist)). rewrite <- Hsort.
    apply sort_summands_one_key. intros c' Hin _.
    apply Hkeys; [now right|now left|]. apply Hsame; [now right|now left].
Qed.

(** The classification of a sum of at least one object: it is separable
    exactly when every summand is separable and all summands have the same
    SED object or, without SEDs, the same [_norm] value. *)
Theorem sum_separable_iff_spec (args : Args) (g : GSParams) (st st' : St)
  (o : ChromaticObject) :
  args_list args <> [] ->
  ChromaticSum_init args g st = (Ok o, st') ->
  (separable (attrs o) = true <-> sum_separable_spec (args_list args)).
Proof.
  intros Hne H. unfold ChromaticSum_init in H. cbn [ChromaticSum_init_fuel] in H.
  apply bind_Ok_inv in H. destruct H as (l & st1 & Hl & H).
  apply lift_Ok_inv in Hl. destruct Hl as [Hl ->].
  assert (l = args_list args) as ->.
  { destruct args as [[|? ?]|?]; cbn in Hl |- *; congruence. }
  cbv zeta in H.
  match type of H with
  | (if ?m then _ else _) _ = _ => destruct m eqn:Hmix; [discriminate|]
  end.
  match type of H with
  | context [sort_summands ?b ?l [] []] =>
      destruct (sort_summands b l [] []) as [norm_dict objlist] eqn:Hsort
  end.
  apply bind_Ok_inv in H. destruct H as ([[objlist' sed] norm] & st2 & _ & H).
  apply ret_Ok_inv in H. destruct H as [-> _]. cbn [attrs separable].
  exact (sum_separable_flag (args_list args) Hne Hmix norm_dict objlist Hsort).
Qed.

(** The statement at the sum of two leaves with one and the same spectrum. *)
Lemma sum_separable_iff_spec_witness :
  let args := OneList [leaf 1 (flat_sed 0); leaf 2 (flat_sed 0)] in
  exists o st',
    args_list args <> []
    /\ ChromaticSum_init args None initial_state = (Ok o, st')
    /\ (separable (attrs o) = true <-> sum_separable_spec (args_list args)).
Proof.
  cbv zeta.
  let r := eval lazy in (ChromaticSum_init (OneList [leaf 1 (flat_sed 0); leaf 2 (flat_sed 0)])
                           None initial_state) in
  lazymatch r with (Ok ?o, ?st') => exists o, st' end.
  refine ((fun H1 H2 =>
             conj H1 (conj H2
               (sum_separable_iff_spec (OneList [leaf 1 (flat_sed 0); leaf 2 (flat_sed 0)])
                  None initial_state _ _ H1 H2))) _ _).
  all: first [cbn [args_list]; discriminate | lazy; reflexivity].
Defined.

(** X1.  The sum of two separable objects with SEDs is built, and it is
    separable exactly when the two SEDs are one and the same object: whatever
    the values of two distinct SED objects, their sum is not separable. *)
Theorem sum_of_two_separable_objects (A B : ChromaticObject) (sA sB : galsim_SED) (st : St) :
  separable (attrs A) = true -> separable (attrs B) = true ->
  SED (attrs A) = Some sA -> SED (attrs B) = Some sB ->
  _norm (attrs A) = None -> _norm (attrs B) = None ->
  exists S st',
    __add__ A B st = (Ok S, st')
    /\ separable (attrs S) = Nat.eqb (sed_id sA) (sed_id sB).
Proof.
  intros HA HB EA EB NA NB.
  unfold __add__, ChromaticSum_init. cbn [ChromaticSum_init_fuel unpack_args].
  unfold bind at 1, lift at 1. cbv beta iota zeta.
  cbn [existsb]. rewrite EA, EB, NA, NB. cbn [orb andb].
  cbn [sort_summands]. rewrite HA, HB. cbn [norm_dict_append].
  unfold norm_key. rewrite EA, EB. cbn [NormKey_eqb].
  rewrite (Nat.eqb_sym (sed_id sB) (sed_id sA)).
  destruct (Nat.eqb (sed_id sA) (sed_id sB)).
  - cbn. eexists. eexists. split; reflexivity.
  - cbn. unfold bind, ret, fresh, sed_add. cbn. rewrite EA, EB. cbn.
    eexists. eexists. split; reflexivity.
Qed.

(** The statement at two leaves with distinct flat spectra. *)
Lemma sum_of_two_separable_objects_witness :
  let A := leaf 1 (flat_sed 0) in
  let B := leaf 2 (flat_sed 1) in
  separable (attrs A) = true /\ separable (attrs B) = true
  /\ SED (attrs A) = Some (flat_sed 0) /\ SED (attrs B) = Some (flat_sed 1)
  /\ _norm (attrs A) = None /\ _norm (attrs B) = None
  /\ exists S st',
      __add__ A B initial_state = (Ok S, st')
      /\ separable (attrs S) = Nat.eqb (sed_id (flat_sed 0)) (sed_id (flat_sed 1)).
Proof.
  cbv zeta.
  refine ((fun H1 H2 H3 H4 H5 H6 =>
             conj H1 (conj H2 (conj H3 (conj H4 (conj H5 (conj H6
               (sum_of_two_separable_objects (leaf 1 (flat_sed 0)) (leaf 2 (flat_sed 1))
                  (flat_sed 0) (flat_sed 1) initial_state H1 H2 H3 H4 H5 H6)))))))
            _ _ _ _ _ _); reflexivity.
Defined.


(** ** The evaluation of a sum *)

(** The summands stored by [A + B]: the two objects, in one order or the
    other. *)
Lemma add_objlist (A B S : ChromaticObject) (st st' : St) :
  __add__ A B st = (Ok S, st') ->
  exists a l, S = ChromaticSum a l None /\ Permutation l [A; B].
Proof.
  unfold __add__, ChromaticSum_init. cbn [ChromaticSum_init_fuel unpack_args].
  intro H. apply bind_Ok_inv in H. destruct H as (l & st1 & Hl & H).
  apply lift_Ok_inv in Hl. destruct Hl as [Hl ->]. injection Hl as <-.
  cbv zeta in H.
  match type of H with
  | (if ?m then _ else _) _ = _ => destruct m eqn:Hmix; [discriminate|]
  end.
  match type of H with
  | context [sort_summands ?b ?l [] []] => set (isSEDed := b) in *
  end.
  cbn [sort_summands] in H.
  destruct (separable (attrs A)) eqn:EA, (separable (attrs B)) eqn:EB;
    cbn [norm_dict_append app] in H.
  - destruct (NormKey_eqb (norm_key isSEDed B) (norm_key isSEDed A)) eqn:Ek;
      cbn [List.length Nat.eqb andb app snd mmap] in H.
    + minv_all. eexists; eexists; split; [reflexivity|].
      destruct isSEDed; destruct (norm_key _ A) as [|s|[x|i f]]; try discriminate;
        minv_all; apply Permutation_refl.
    + minv_all. eexists; eexists; split; [reflexivity|].
      destruct isSEDed; minv_all; apply Permutation_refl.
  - cbn [List.length Nat.eqb andb app snd mmap] in H.
    minv_all. eexists; eexists; split; [reflexivity|].
    destruct isSEDed; minv_all; apply perm_swap.
  - cbn [List.length Nat.eqb andb app snd mmap] in H.
    minv_all. eexists; eexists; split; [reflexivity|].
    destruct isSEDed; minv_all; apply Permutation_refl.
  - cbn [List.length Nat.eqb andb app snd mmap] in H.
    minv_all. eexists; eexists; split; [reflexivity|].
    destruct isSEDed; minv_all; apply Permutation_refl.
Qed.

(** C7.  For two chromatic objects [A] and [B] and a wavelength [w] at which
    both evaluate, [(A + B).evaluateAtWavelength(w)] is the monochromatic sum
    [galsim.Add] of [A.evaluateAtWavelength(w)] and
    [B.evaluateAtWavelength(w)] (the sum lists an inseparable summand before
    a separable one). *)
Theorem evaluation_of_a_sum (A B S : ChromaticObject) (st st' : St) (w : Qc)
  (a b : GSObject) :
  __add__ A B st = (Ok S, st') ->
  evaluateAtWavelength A w = Ok a ->
  evaluateAtWavelength B w = Ok b ->
  exists p, evaluateAtWavelength S w = Ok p /\ monochromatic_sum p [a; b].
Proof.
  intros H Ha Hb. destruct (add_objlist A B S st st' H) as (at' & l & -> & Hp).
  cbn [evaluateAtWavelength]. unfold monochromatic_sum.
  assert (Hl : l = [A; B] \/ l = [B; A]).
  { pose proof (Permutation_length Hp) as Hlen.
    destruct l as [|x [|y [|z l]]]; try discriminate.
    apply Permutation_length_2_inv in Hp. destruct Hp as [Hp|Hp]; injection Hp as -> ->;
      auto. }
  destruct Hl as [-> | ->]; cbn [rmap]; rewrite Ha, Hb; cbn [rbind].
  - eexists; split; [reflexivity|]. eexists; eexists; split; [reflexivity|].
    apply Permutation_refl.
  - eexists; split; [reflexivity|]. eexists; eexists; split; [reflexivity|].
    apply perm_swap.
Qed.

(** The statement at two leaves and the wavelength 550. *)
Lemma evaluation_of_a_sum_witness :
  let A := leaf 1 (flat_sed 0) in
  let B := leaf 2 (flat_sed 1) in
  exists S st' a b,
    __add__ A B initial_state = (Ok S, st')
    /\ evaluateAtWavelength A (qz 550) = Ok a
    /\ evaluateAtWavelength B (qz 550) = Ok b
    /\ exists p, evaluateAtWavelength S (qz 550) = Ok p /\ monochromatic_sum p [a; b].
Proof.
  cbv zeta.
  let r := eval lazy in (__add__ (leaf 1 (flat_sed 0)) (leaf 2 (flat_sed 1)) initial_state) in
  let ra := eval lazy in (evaluateAtWavelength (leaf 1 (flat_sed 0)) (qz 550)) in
  let rb := eval lazy in (evaluateAtWavelength (leaf 2 (flat_sed 1)) (qz 550)) in
  lazymatch constr:((r, ra, rb)) with
  | ((Ok ?S, ?st'), Ok ?a, Ok ?b) => exists S, st', a, b
  end.
  refine ((fun H1 H2 H3 =>
             conj H1 (conj H2 (conj H3
               (evaluation_of_a_sum _ _ _ _ _ _ _ _ H1 H2 H3)))) _ _ _);
    lazy; reflexivity.
Defined.


(** ** The separable fast path *)

Lemma get_multiplier_spec ext sed bandpass knots :
  _get_multiplier ext sed bandpass knots = spec_multiplier ext sed bandpass knots.
Proof. unfold _get_multiplier, spec_multiplier. destruct knots; reflexivity. Qed.

Lemma list_Qc_eqb_refl l : list_Qc_eqb l l = true.
Proof. induction l as [|x l IH]; cbn; [reflexivity|]. now rewrite Qceqb_refl. Qed.

Lemma MKey_eqb_refl k : MKey_eqb k k = true.
Proof.
  destruct k as [[s b] w]. cbn. now rewrite !Nat.eqb_refl, list_Qc_eqb_refl.
Qed.

Lemma cache_store_find {V} (k : MKey) (v : V) c :
  (0 < maxsize c)%nat ->
  cache_find MKey_eqb k (cache_entries (cache_store MKey_eqb k v c)) = Some v.
Proof.
  intro H. unfold cache_store. cbn [cache_entries].
  destruct (maxsize c) as [|n]; [lia|]. cbn [firstn cache_find].
  now rewrite MKey_eqb_refl.
Qed.

(** The separable branch of [ChromaticObject.drawImage]. *)
Lemma base_fast_path ext self bandpass image integrator kwargs st sed wave0 prof0 image1
  m sed0 ratio :
  SED (attrs self) = Some sed ->
  separable (attrs self) = true ->
  _fiducial_profile ext self bandpass = Ok (wave0, prof0) ->
  gs_drawImage ext prof0 image true kwargs = Ok image1 ->
  let knots := combine_wave_list [wave_list (attrs self); bp_wave_list bandpass] in
  let kwargs' := _remove_setup_kwargs kwargs in
  memoized ext st sed bandpass knots = Ok m ->
  sed_call sed wave0 = Ok sed0 ->
  fdiv m sed0 = Ok ratio ->
  exists st',
    ChromaticObject_drawImage ext self bandpass image integrator kwargs st
    = (gs_drawImage ext (GSScaled prof0 ratio) (Some image1) false kwargs', st')
    /\ draw_log st' = [mkDrawCall (GSScaled prof0 ratio) (Some image1) false kwargs';
                       mkDrawCall prof0 image true kwargs] ++ draw_log st
    /\ ((0 < maxsize (_multiplier_cache st))%nat ->
        cache_find MKey_eqb (sed_id sed, bp_id bandpass, knots)
                   (cache_entries (_multiplier_cache st')) = Some m).
Proof.
  intros Hsed Hsep Hfid Hsetup knots kwargs' Hm Hsed0 Hratio.
  unfold ChromaticObject_drawImage. rewrite Hsed, Hfid, Hsep.
  unfold bind at 1. unfold lift at 1. cbv beta iota.
  unfold bind at 1. unfold gs_draw at 1. unfold bind at 1, log_draw at 1, lift at 1.
  cbv beta iota. rewrite Hsetup. cbv beta iota zeta.
  fold knots. fold kwargs'.
  unfold bind at 1. unfold _multiplier_cache_call, cache_call.
  cbn [_multiplier_cache cache_entries]. unfold memoized in Hm.
  rewrite get_multiplier_spec.
  destruct (cache_find MKey_eqb (sed_id sed, bp_id bandpass, knots)
              (cache_entries (_multiplier_cache st))) as [v|] eqn:Efind.
  - injection Hm as ->.
    unfold bind at 1, lift at 1. rewrite Hsed0. cbv beta iota.
    unfold bind at 1, lift at 1. rewrite Hratio. cbv beta iota.
    unfold gs_draw, bind, log_draw, lift. cbv beta iota.
    eexists. split; [reflexivity|]. cbn. split; [reflexivity|].
    intro Hpos. now apply cache_store_find.
  - unfold lift at 1. rewrite Hm. cbv beta iota.
    unfold bind at 1, lift at 1. rewrite Hsed0. cbv beta iota.
    unfold bind at 1, lift at 1. rewrite Hratio. cbv beta iota.
    unfold gs_draw, bind, log_draw, lift. cbv beta iota.
    eexists. split; [reflexivity|]. cbn. split; [reflexivity|].
    intro Hpos. now apply cache_store_find.
Qed.

(** C3 (amended).  For a separable object with an SED that is not a sum, not
    an interpolated object and not a transformation of one: [drawImage] takes
    the multiplier from the cache at the key (SED, bandpass, knots), the knots
    being the union of those of the object and of the bandpass; a value that
    is not stored is the integral of [SED * bandpass], by the trapezoid rule
    on the knots when there are any and else by [int1d] over [[blue_limit,
    red_limit]], and is stored at that key (when the cache has room).  The
    image is that of one render, of the fiducial profile scaled by
    [multiplier / SED(wave0)], after the one set-up call. *)
Theorem separable_fast_path (ext : External) (self : ChromaticObject) (bandpass : Bandpass)
  (image : option Image) (integrator : Integrator) (kwargs : Kwargs) (st : St)
  (sed : galsim_SED) (wave0 : Qc) (prof0 : GSObject) (image1 : Image) (m sed0 ratio : Qc) :
  drawn_in_one_piece self = true ->
  SED (attrs self) = Some sed ->
  separable (attrs self) = true ->
  let kwargs0 := base_kwargs self kwargs in
  let knots := combine_wave_list [wave_list (attrs self); bp_wave_list bandpass] in
  let kwargs' := _remove_setup_kwargs kwargs0 in
  _fiducial_profile ext self bandpass = Ok (wave0, prof0) ->
  gs_drawImage ext prof0 image true kwargs0 = Ok image1 ->
  memoized ext st sed bandpass knots = Ok m ->
  sed_call sed wave0 = Ok sed0 ->
  fdiv m sed0 = Ok ratio ->
  exists st',
    drawImage ext self bandpass image integrator kwargs st
    = (gs_drawImage ext (GSScaled prof0 ratio) (Some image1) false kwargs', st')
    /\ draw_log st' = [mkDrawCall (GSScaled prof0 ratio) (Some image1) false kwargs';
                       mkDrawCall prof0 image true kwargs0] ++ draw_log st
    /\ ((0 < maxsize (_multiplier_cache st))%nat ->
        cache_find MKey_eqb (sed_id sed, bp_id bandpass, knots)
                   (cache_entries (_multiplier_cache st')) = Some m).
Proof.
  intros Hone Hsed Hsep kwargs0 knots kwargs' Hfid Hsetup Hm Hsed0 Hratio.
  rewrite drawImage_unfold.
  destruct self; try discriminate Hone;
    try (subst kwargs0; unfold base_kwargs in *; cbn [is_ChromaticConvolution] in *;
         eapply base_fast_path; eassumption).
  - (* a transformation of an object that is not interpolated *)
    unfold Transformation_drawImage. cbn [attrs] in Hsed. rewrite Hsed.
    destruct self; try discriminate Hone;
      (subst kwargs0; unfold base_kwargs in *; cbn [is_ChromaticConvolution] in *;
       eapply base_fast_path; eassumption).
  - (* a separable convolution *)
    unfold Convolution_drawImage. cbn [attrs] in Hsed, Hsep. rewrite Hsed, Hsep.
    subst kwargs0. unfold base_kwargs in *. cbn [is_ChromaticConvolution] in *.
    eapply base_fast_path; try eassumption; assumption.
Qed.

(** The statement at a leaf with a flat spectrum, a bandpass with the knots
    500 and 600 and the empty cache. *)
Lemma separable_fast_path_witness :
  let self := leaf 1 (flat_sed 0) in
  let band := sample_bandpass (fun _ => 1%Qc) [qz 500; qz 600] in
  let knots := combine_wave_list [wave_list (attrs self); bp_wave_list band] in
  exists wave0 prof0 image1 m sed0 ratio,
    _fiducial_profile sample_ext self band = Ok (wave0, prof0)
    /\ gs_drawImage sample_ext prof0 None true no_kwargs = Ok image1
    /\ memoized sample_ext initial_state (flat_sed 0) band knots = Ok m
    /\ sed_call (flat_sed 0) wave0 = Ok sed0
    /\ fdiv m sed0 = Ok ratio
    /\ exists st',
        drawImage sample_ext self band None default_integrator no_kwargs initial_state
        = (gs_drawImage sample_ext (GSScaled prof0 ratio) (Some image1) false
             (_remove_setup_kwargs no_kwargs), st')
        /\ draw_log st'
           = [mkDrawCall (GSScaled prof0 ratio) (Some image1) false
                (_remove_setup_kwargs no_kwargs);
              mkDrawCall prof0 None true no_kwargs] ++ draw_log initial_state
        /\ ((0 < maxsize (_multiplier_cache initial_state))%nat ->
            cache_find MKey_eqb (sed_id (flat_sed 0), bp_id band, knots)
              (cache_entries (_multiplier_cache st')) = Some m).
Proof.
  cbv zeta.
  let fid := eval lazy in (_fiducial_profile sample_ext (leaf 1 (flat_sed 0))
                             (sample_bandpass (fun _ => 1%Qc) [qz 500; qz 600])) in
  lazymatch fid with
  | Ok (?wave0, ?prof0) =>
      let im := eval lazy in (gs_drawImage sample_ext prof0 None true no_kwargs) in
      let mu := eval lazy in
                  (memoized sample_ext initial_state (flat_sed 0)
                     (sample_bandpass (fun _ => 1%Qc) [qz 500; qz 600])
                     (combine_wave_list
                        [wave_list (attrs (leaf 1 (flat_sed 0)));
                         bp_wave_list (sample_bandpass (fun _ => 1%Qc) [qz 500; qz 600])])) in
      let s0 := eval lazy in (sed_call (flat_sed 0) wave0) in
      lazymatch constr:((im, mu, s0)) with
      | (Ok ?image1, Ok ?m, Ok ?sed0) =>
          let q := eval lazy in (fdiv m sed0) in
          lazymatch q with
          | Ok ?ratio => exists wave0, prof0, image1, m, sed0, ratio
          end
      end
  end.
  refine ((fun H1 H2 H3 H4 H5 =>
             conj H1 (conj H2 (conj H3 (conj H4 (conj H5
               (separable_fast_path sample_ext (leaf 1 (flat_sed 0))
                  (sample_bandpass (fun _ => 1%Qc) [qz 500; qz 600]) None default_integrator
                  no_kwargs initial_state (flat_sed 0) _ _ _ _ _ _
                  eq_refl eq_refl eq_refl H1 H2 H3 H4 H5)))))) _ _ _ _ _);
    lazy; reflexivity.
Defined.

(** C3, an object outside the amended statement: the sum of two leaves with
    one and the same spectrum is separable and has an SED, and [drawImage]
    renders twice, once per summand. *)
Lemma separable_sum_renders_each_summand :
  let s := flat_sed 0 in
  let band := sample_bandpass (fun _ => 1%Qc) [qz 500; qz 600] in
  exists node st1 im st2,
    __add__ (leaf 1 s) (leaf 2 s) initial_state = (Ok node, st1)
    /\ separable (attrs node) = true
    /\ has_SED node = true
    /\ drawn_in_one_piece node = false
    /\ drawImage sample_ext node band None default_integrator no_kwargs st1 = (Ok im, st2)
    /\ List.length (renders st2) = 2%nat.
Proof.
  cbv zeta. eexists. eexists. eexists. eexists.
  split; [lazy; reflexivity|].
  split; [reflexivity|]. split; [reflexivity|]. split; [reflexivity|].
  split; [lazy; reflexivity|].
  reflexivity.
Qed.


(** ** The distribution of a convolution over a sum *)






(** *** More depth never changes an image *)

Lemma mle_refl {A} (m : M A) : mle m m.
Proof. intros st a st' H. exact H. Qed.

Lemma mle_bind {A B} (m1 m2 : M A) (k1 k2 : A -> M B) :
  mle m1 m2 -> (forall a, mle (k1 a) (k2 a)) -> mle (bind m1 k1) (bind m2 k2).
Proof.
  intros Hm Hk st b st' H. apply bind_Ok_inv in H. destruct H as (a & st1 & H1 & H2).
  unfold bind. rewrite (Hm _ _ _ H1). now apply Hk.
Qed.

Lemma mle_mfold {A B} (f1 f2 : A -> B -> M A) :
  (forall acc b, mle (f1 acc b) (f2 acc b)) ->
  forall l acc, mle (mfold f1 l acc) (mfold f2 l acc).
Proof.
  intros Hf. induction l as [|b l IH]; intro acc; cbn [mfold].
  - apply mle_refl.
  - apply mle_bind; [apply Hf|exact IH].
Qed.

Lemma mle_cache_call {K V} eqb get set (k : K) (c1 c2 : M V) :
  mle c1 c2 -> mle (cache_call eqb get set k c1) (cache_call eqb get set k c2).
Proof.
  intros Hc st v st' H. unfold cache_call in *.
  destruct (cache_find eqb k (cache_entries (get st))); [exact H|].
  destruct (c1 st) as [[v1|e] st1] eqn:E1; [|discriminate].
  now rewrite (Hc _ _ _ E1).
Qed.

Ltac mle_step :=
  first
    [ apply mle_refl
    | apply mle_bind; [|intros]
    | apply mle_mfold; intros
    | apply mle_cache_call
    | match goal with
      | |- mle (match ?x with _ => _ end) (match ?x with _ => _ end) => destruct x
      | |- mle (if ?x then _ else _) (if ?x then _ else _) => destruct x
      | H : draw_le ?d1 ?d2 |- mle (?d1 _ _ _ _ _) (?d2 _ _ _ _ _) => apply H
      end ].

Lemma Sum_drawImage_le d1 d2 a objlist bandpass image integrator kwargs :
  draw_le d1 d2 ->
  mle (Sum_drawImage d1 a objlist bandpass image integrator kwargs)
      (Sum_drawImage d2 a objlist bandpass image integrator kwargs).
Proof.
  intro Hd. unfold Sum_drawImage, pop_add_to_image. repeat mle_step.
Qed.

Lemma draw_reduced_le d1 d2 others summand bandpass image integrator iimult add kwargs :
  draw_le d1 d2 ->
  mle (draw_reduced d1 others summand bandpass image integrator iimult add kwargs)
      (draw_reduced d2 others summand bandpass image integrator iimult add kwargs).
Proof. intro Hd. unfold draw_reduced. repeat mle_step. Qed.

Lemma draw_atomic_le ext d1 d2 self objlist g bandpass image integrator iimult kwargs :
  draw_le d1 d2 ->
  mle (draw_atomic ext d1 self objlist g bandpass image integrator iimult kwargs)
      (draw_atomic ext d2 self objlist g bandpass image integrator iimult kwargs).
Proof.
  intro Hd. unfold draw_atomic, _effective_prof_cache_call, _get_effective_prof.
  repeat mle_step.
Qed.

Lemma Convolution_drawImage_le ext d1 d2 self a objlist g bandpass image integrator kwargs :
  draw_le d1 d2 ->
  mle (Convolution_drawImage ext d1 self a objlist g bandpass image integrator kwargs)
      (Convolution_drawImage ext d2 self a objlist g bandpass image integrator kwargs).
Proof.
  intro Hd. unfold Convolution_drawImage, pop_add_to_image. cbv zeta.
  destruct (SED a); [|apply mle_refl].
  destruct (separable a); [apply mle_refl|].
  destruct (first_sum [] objlist) as [[summands others]|].
  - apply mle_bind; [apply mle_refl|intro first].
    apply mle_bind; [now apply draw_reduced_le|intro image1].
    apply mle_mfold. intros acc b. now apply draw_reduced_le.
  - now apply draw_atomic_le.
Qed.

Lemma drawImage_fuel_le ext fuel : draw_le (drawImage_fuel ext fuel) (drawImage_fuel ext (S fuel)).
Proof.
  induction fuel as [|fuel IH]; intros o b i g k.
  - intros st a st' H. discriminate H.
  - rewrite (drawImage_fuel_S ext (S fuel)), (drawImage_fuel_S ext fuel).
    destruct o; try apply mle_refl.
    + now apply Sum_drawImage_le.
    + now apply Convolution_drawImage_le.
Qed.



Lemma recursion_limit_S : recursion_limit = S (pred recursion_limit).
Proof. reflexivity. Qed.

Lemma drawImage_is_fuel ext : drawImage ext = drawImage_fuel ext (S (pred recursion_limit)).
Proof. reflexivity. Qed.





(** ** The bounds of an integrated image *)

Ltac qc_eq := apply Qceqb_eq; vm_compute; reflexivity.

(** Equality of computed values: rationals are compared by value. *)
Ltac solve_eq :=
  lazymatch goal with
  | |- @eq Qc _ _ => qc_eq
  | |- _ => first [reflexivity | (f_equal; solve_eq)]
  end.

(** C9.  The object interpolated from a leaf whose spectrum is [SED(w) = w], on
    the grid [[500; 600]], drawn over [signed_bandpass] with the trapezoidal
    rule.  The stored bounds are [stepK = 500, 600] and [maxK = 500, 400]; the
    weights of the two stored images are [-50] and [50], neither of them zero;
    and the profile rendered has [stepk = 600] and [maxk = 400], the bounds
    of the second image alone: the image with the negative weight is left
    out of the minimum and of the maximum. *)
Lemma bounds_skip_negative_weights :
  exists o st1 a original tab integral im st2,
    InterpolatedChromaticObject_init sample_ext (leaf 1 ramp_sed) [qz 500; qz 600] 1%Qc
      initial_state
    = (Ok o, st1)
    /\ o = InterpolatedChromaticObject a original tab
    /\ stepK_vals tab = [qz 500; qz 600]
    /\ maxK_vals tab = [qz 500; qz 400]
    /\ interp_weights tab signed_bandpass (IString "trapezoidal") [qz 500; qz 600]
       = Ok [(- qz 50)%Qc; qz 50]
    /\ drawImage sample_ext o signed_bandpass None (IString "trapezoidal") no_kwargs st1
       = (Ok im, st2)
    /\ hd_error (renders st2)
       = Some (mkDrawCall (GSInterpolatedImage integral (Some (qz 600)) (Some (qz 400)) None)
                 None false no_kwargs).
Proof.
  do 8 eexists.
  split; [lazy; reflexivity|].
  split; [reflexivity|].
  split; [cbn [stepK_vals]; solve_eq|].
  split; [cbn [maxK_vals]; solve_eq|].
  split; [lazy; solve_eq|].
  split; [lazy; reflexivity|].
  lazy; solve_eq.
Qed.

(** ** Interpolation inside the grid *)

Section Brackets.
Local Open Scope Z_scope.

Lemma item_app_mid {A} (pre : list A) x post :
  item (pre ++ x :: post) (Z.of_nat (List.length pre)) = Ok x.
Proof.
  rewrite item_nonneg, nth_error_app2 by lia. now rewrite Nat.sub_diag.
Qed.

Lemma item_app_mid_next {A} (pre : list A) x y post :
  item (pre ++ x :: y :: post) (Z.of_nat (List.length pre) + 1) = Ok y.
Proof.
  replace (Z.of_nat (List.length pre) + 1) with (Z.of_nat (S (List.length pre))) by lia.
  rewrite item_nonneg, nth_error_app2 by lia.
  now replace (S (List.length pre) - List.length pre)%nat with 1%nat by lia.
Qed.

Lemma increasing_split pre a b post :
  increasing (pre ++ a :: b :: post) -> Forall (fun x => (x < a)%Qc) pre /\ (a < b)%Qc.
Proof.
  induction pre as [|x pre IH]; cbn [app]; intro H.
  - apply StronglySorted_inv in H. destruct H as [_ H]. split; [constructor|].
    now inversion H.
  - apply StronglySorted_inv in H. destruct H as [Hs Hf].
    destruct (IH Hs) as [Hb Hab]. split; [|assumption].
    constructor; [|assumption].
    rewrite Forall_forall in Hf. apply Hf. apply in_or_app. right. now left.
Qed.

(** Between two neighbours of the grid, [_findWave] finds the lower one. *)
Lemma findWave_between pre a b post w :
  increasing (pre ++ a :: b :: post) -> (a < w)%Qc -> (w <= b)%Qc ->
  _findWave (pre ++ a :: b :: post) w
  = Ok (Z.of_nat (List.length pre), ((w - a) / (b - a))%Qc).
Proof.
  intros H Haw Hwb. destruct (increasing_split _ _ _ _ H) as [Hpre Hab].
  unfold _findWave.
  assert (Hs : np_searchsorted (pre ++ a :: b :: post) w = Z.of_nat (List.length pre) + 1).
  { replace (pre ++ a :: b :: post) with ((pre ++ [a]) ++ b :: post)
      by now rewrite <- app_assoc.
    rewrite searchsorted_all_below.
    - rewrite searchsorted_head_not_below by assumption.
      rewrite length_app. cbn [List.length]. lia.
    - apply Forall_app. split; [|constructor; [assumption|constructor]].
      eapply Forall_impl; [|exact Hpre]. intros x Hx. cbv beta in *.
      eapply Qclt_trans; eassumption. }
  rewrite Hs. rewrite !length_app. cbn [List.length].
  set (n := List.length pre).
  replace (Z.of_nat n + 1 - 1) with (Z.of_nat n) by lia.
  cbv zeta.
  assert ((Z.of_nat n <? 0) = false) as -> by (apply Z.ltb_ge; lia).
  assert ((Z.of_nat n >? Z.of_nat (n + S (S (List.length post))) - 1) = false) as ->.
  { apply Zgtb_false. lia. }
  subst n. rewrite item_app_mid, item_app_mid_next.
  cbn [rbind]. unfold fdiv.
  assert (Qceqb (b - a) 0 = false) as -> by now apply Qceqb_neq, Qclt_minus_neq.
  reflexivity.
Qed.

(** A wavelength above the first one and not above the last one lies
    between two neighbours. *)
Lemma bracket_exists l :
  forall x w,
    l <> [] -> (x < w)%Qc -> (w <= last l x)%Qc ->
    exists pre a b post, x :: l = pre ++ a :: b :: post /\ (a < w)%Qc /\ (w <= b)%Qc.
Proof.
  induction l as [|y l IH]; intros x w Hne Hxw Hlast; [congruence|].
  destruct (Qclt_le_dec y w) as [Hyw|Hwy].
  - destruct l as [|z l'].
    + cbn [last] in Hlast. exfalso. eapply Qclt_not_le; eassumption.
    + destruct (IH y w) as (pre & a & b & post & E & Ha & Hb).
      * discriminate.
      * exact Hyw.
      * rewrite (last_cons_default z l' y x). exact Hlast.
      * exists (x :: pre), a, b, post. cbn [app]. rewrite E. auto.
  - exists [], x, y, l. auto.
Qed.

Lemma frac_between (a b w : Qc) :
  (a < b)%Qc -> (a <= w)%Qc -> (w <= b)%Qc ->
  (0 <= (w - a) / (b - a))%Qc /\ ((w - a) / (b - a) <= 1)%Qc.
Proof.
  intros Hab Haw Hwb.
  assert (Hpos : (0 < b - a)%Qc).
  { apply Qclt_minus_iff in Hab. exact Hab. }
  assert (Hne : (b - a)%Qc <> 0%Qc) by now apply Qclt_minus_neq.
  assert (Hmul : ((w - a) / (b - a) * (b - a))%Qc = (w - a)%Qc) by (field; exact Hne).
  split.
  - apply Qcmult_lt_0_le_reg_r with (z := (b - a)%Qc); [exact Hpos|].
    rewrite Hmul, Qcmult_0_l. apply Qcle_minus_iff in Haw. exact Haw.
  - apply Qcmult_lt_0_le_reg_r with (z := (b - a)%Qc); [exact Hpos|].
    rewrite Hmul, Qcmult_1_l. unfold Qcminus. apply Qcplus_le_compat; [exact Hwb|].
    apply Qcle_refl.
Qed.

(** Inside the grid every wavelength has two neighbours, and [_findWave]
    finds them. *)
Lemma bracket_in_grid (grid : list Qc) (w lo hi : Qc) :
  increasing grid -> (2 <= List.length grid)%nat ->
  np_min grid = Ok lo -> np_max grid = Ok hi ->
  (lo <= w)%Qc -> (w <= hi)%Qc ->
  exists pre a b post,
    grid = pre ++ a :: b :: post
    /\ (a < b)%Qc /\ (a <= w)%Qc /\ (w <= b)%Qc
    /\ _findWave grid w = Ok (Z.of_nat (List.length pre), ((w - a) / (b - a))%Qc).
Proof.
  intros Hinc Hlen Hlo Hhi Hlow Hwhi.
  destruct grid as [|x [|y l]]; try (cbn in Hlen; lia).
  rewrite (np_min_increasing x (y :: l) Hinc) in Hlo. injection Hlo as <-.
  cbn [np_max] in Hhi. rewrite (fold_max_sorted x (y :: l) Hinc) in Hhi. injection Hhi as <-.
  destruct (Qc_eq_dec w x) as [->|Hne].
  - assert (Hxy : (x < y)%Qc).
    { apply StronglySorted_inv in Hinc. destruct Hinc as [_ Hf]. now inversion Hf. }
    exists [], x, y, l. cbn [app List.length].
    split; [reflexivity|]. split; [exact Hxy|]. split; [apply Qcle_refl|].
    split; [now apply Qclt_le_weak|].
    rewrite (findWave_at_min x y l Hxy). do 2 f_equal. unfold Qcdiv. ring.
  - assert (Hxw : (x < w)%Qc).
    { destruct (Qcle_lt_or_eq _ _ Hlow) as [H|H]; [exact H|congruence]. }
    destruct (bracket_exists (y :: l) x w) as (pre & a & b & post & E & Ha & Hb);
      [discriminate|exact Hxw|exact Hwhi|].
    rewrite E in *.
    destruct (increasing_split _ _ _ _ Hinc) as [_ Hab].
    exists pre, a, b, post. split; [reflexivity|]. split; [exact Hab|].
    split; [now apply Qclt_le_weak|]. split; [exact Hb|].
    now apply findWave_between.
Qed.

(** X2.  In a grid of at least two wavelengths, none repeated, [_findWave]
    succeeds at every wavelength from the smallest to the largest of the
    grid: the index it returns and the next one are indices of the grid, the
    grid value at the next index is the larger of the two, the wavelength
    lies between them, and the fraction, the quotient of the distance from
    the lower grid value by the distance between the two, lies between 0
    and 1. *)
Theorem findWave_brackets (grid : list Qc) (w lo hi : Qc) :
  increasing grid -> (2 <= List.length grid)%nat ->
  np_min grid = Ok lo -> np_max grid = Ok hi ->
  (lo <= w)%Qc -> (w <= hi)%Qc ->
  exists i frac below above,
    _findWave grid w = Ok (i, frac)
    /\ 0 <= i <= Z.of_nat (List.length grid) - 2
    /\ item grid i = Ok below /\ item grid (i + 1) = Ok above
    /\ (below < above)%Qc /\ (below <= w)%Qc /\ (w <= above)%Qc
    /\ frac = ((w - below) / (above - below))%Qc
    /\ (0 <= frac)%Qc /\ (frac <= 1)%Qc.
Proof.
  intros Hinc Hlen Hlo Hhi Hlow Hwhi.
  destruct (bracket_in_grid grid w lo hi Hinc Hlen Hlo Hhi Hlow Hwhi)
    as (pre & a & b & post & -> & Hab & Haw & Hwb & Hfind).
  destruct (frac_between a b w Hab Haw Hwb) as (F0 & F1).
  exists (Z.of_nat (List.length pre)), ((w - a) / (b - a))%Qc, a, b.
  rewrite item_app_mid, item_app_mid_next, length_app. cbn [List.length].
  split; [exact Hfind|]. split; [lia|]. auto 10.
Qed.

End Brackets.

(** The statement at the grid [[500; 600]] and the wavelength 550. *)
Lemma findWave_brackets_witness :
  let grid := [qz 500; qz 600] in
  let w := qz 550 in
  increasing grid /\ (2 <= List.length grid)%nat
  /\ np_min grid = Ok (qz 500) /\ np_max grid = Ok (qz 600)
  /\ (qz 500 <= w)%Qc /\ (w <= qz 600)%Qc
  /\ exists i frac below above,
      _findWave grid w = Ok (i, frac)
      /\ (0 <= i <= Z.of_nat (List.length grid) - 2)%Z
      /\ item grid i = Ok below /\ item grid (i + 1) = Ok above
      /\ (below < above)%Qc /\ (below <= w)%Qc /\ (w <= above)%Qc
      /\ frac = ((w - below) / (above - below))%Qc
      /\ (0 <= frac)%Qc /\ (frac <= 1)%Qc.
Proof.
  cbv zeta.
  refine ((fun H1 H2 H3 H4 H5 H6 =>
             conj H1 (conj H2 (conj H3 (conj H4 (conj H5 (conj H6
               (findWave_brackets [qz 500; qz 600] (qz 550) (qz 500) (qz 600)
                  H1 H2 H3 H4 H5 H6))))))) _ _ _ _ _ _).
  all: first [ reflexivity
             | cbn; lia
             | vm_compute; discriminate
             | repeat constructor; vm_compute; reflexivity ].
Defined.

Section OnTheGrid.
Local Open Scope Z_scope.

Lemma increasing_le_last x l y :
  increasing (x :: l) -> In y (x :: l) -> (y <= last l x)%Qc.
Proof.
  revert x y. induction l as [|z l IH]; intros x y H Hin.
  - destruct Hin as [->|[]]. apply Qcle_refl.
  - apply StronglySorted_inv in H. destruct H as [Hs Hf].
    rewrite (last_cons_default z l x z).
    assert (El : last (z :: l) z = last l z) by (destruct l; reflexivity).
    rewrite El.
    destruct Hin as [->|Hin].
    + apply Qcle_trans with z.
      * apply Qclt_le_weak. now inversion Hf.
      * apply IH; [assumption|now left].
    + now apply IH.
Qed.

Lemma two_neighbours {A} (l : list A) k a b :
  nth_error l k = Some a -> nth_error l (S k) = Some b ->
  exists pre post, l = pre ++ a :: b :: post /\ List.length pre = k.
Proof.
  intros Ha Hb. destruct (nth_error_split l k Ha) as (pre & rest & -> & Hlen).
  exists pre. rewrite nth_error_app2 in Hb by lia.
  replace (S k - List.length pre)%nat with 1%nat in Hb by lia.
  destruct rest as [|b' post]; [discriminate|]. injection Hb as ->.
  now exists post.
Qed.

Lemma float_interp_next (pre : list Qc) a b post :
  _linearInterp Qcmult float_add (pre ++ a :: b :: post) 1%Qc (Z.of_nat (List.length pre))
  = Ok b.
Proof.
  unfold _linearInterp. rewrite item_app_mid, item_app_mid_next. cbn [rbind].
  unfold float_add. f_equal. ring.
Qed.

(** At the upper one of two neighbours of the grid, the interpolation
    returns what is stored there. *)
Lemma imageAtWavelength_at_neighbour tab pre a b post ipre ia ib ipost
  spre sa sb spost mpre ma mb mpost :
  waves tab = pre ++ a :: b :: post -> increasing (waves tab) ->
  ims tab = ipre ++ ia :: ib :: ipost -> List.length ipre = List.length pre ->
  List.length ib = List.length ia ->
  stepK_vals tab = spre ++ sa :: sb :: spost -> List.length spre = List.length pre ->
  maxK_vals tab = mpre ++ ma :: mb :: mpost -> List.length mpre = List.length pre ->
  _imageAtWavelength tab b = Ok (ib, sb, mb).
Proof.
  intros Hw Hinc Hi Hil Hshape Hs Hsl Hm Hml. unfold _imageAtWavelength.
  destruct (increasing_split pre a b post) as [_ Hab]; [now rewrite <- Hw|].
  assert (Hin : In b (waves tab)).
  { rewrite Hw. apply in_or_app. right. right. now left. }
  destruct (waves tab) as [|x l] eqn:Ew; [destruct pre; discriminate|].
  rewrite np_min_increasing by assumption. cbn [rbind].
  assert (Qcltb b x = false) as ->.
  { apply Qcltb_ge. now apply (increasing_head_le x l). }
  cbn [np_max rbind]. rewrite fold_max_sorted by assumption.
  assert (Qcltb (last l x) b = false) as ->.
  { apply Qcltb_ge. now apply increasing_le_last. }
  rewrite Hw in *.
  rewrite findWave_between; [|assumption|assumption|apply Qcle_refl].
  cbn [rbind].
  assert (Hone : ((b - a) / (b - a))%Qc = 1%Qc).
  { field. now apply Qclt_minus_neq. }
  rewrite Hone.
  rewrite Hi. unfold _linearInterp at 1. rewrite <- Hil.
  rewrite item_app_mid, item_app_mid_next. cbn [rbind].
  rewrite img_interp_1 by assumption. cbn [rbind].
  rewrite Hil, <- Hsl, Hs, float_interp_next. cbn [rbind].
  rewrite Hsl, <- Hml, Hm, float_interp_next. reflexivity.
Qed.

(** X3.  An interpolated object evaluated at a wavelength of its grid returns
    the image stored for that wavelength, with the [stepK] and [maxK] stored
    for it, whichever grid point it is (the grid has at least two
    wavelengths, none repeated, and the table one image of one shape, one
    [stepK] and one [maxK] per wavelength). *)
Theorem interpolation_is_exact_on_the_grid (a : Attrs) (original : ChromaticObject)
  (tab : Interpolation) (j : nat) (w : Qc) (im : Image) (stepk maxk : Qc) :
  increasing (waves tab) -> (2 <= List.length (waves tab))%nat -> table_ok tab ->
  nth_error (waves tab) j = Some w ->
  nth_error (ims tab) j = Some im ->
  nth_error (stepK_vals tab) j = Some stepk ->
  nth_error (maxK_vals tab) j = Some maxk ->
  evaluateAtWavelength (InterpolatedChromaticObject a original tab) w
  = Ok (GSInterpolatedImage im (Some stepk) (Some maxk) None).
Proof.
  intros Hinc Hlen [Hi Hs Hm Hshape] Hw Him Hsk Hmk.
  cbn [evaluateAtWavelength]. unfold Interpolated_evaluateAtWavelength.
  assert (Hres : _imageAtWavelength tab w = Ok (im, stepk, maxk)); [|now rewrite Hres].
  destruct j as [|k].
  - (* the first wavelength *)
    destruct (waves tab) as [|w0 [|w1 rest]] eqn:Ew; try (cbn in Hlen; lia).
    destruct (ims tab) as [|i0 [|i1 irest]] eqn:Ei; try discriminate.
    destruct (stepK_vals tab) as [|s0 [|s1 srest]] eqn:Es; try discriminate.
    destruct (maxK_vals tab) as [|m0 [|m1 mrest]] eqn:Em; try discriminate.
    injection Hw as <-. injection Him as <-. injection Hsk as <-. injection Hmk as <-.
    eapply imageAtWavelength_at_min; try eassumption.
    + now rewrite Ew.
    + apply Hshape; simpl; auto.
  - (* a later wavelength, and the one before it *)
    assert (Hk : (k < List.length (waves tab))%nat).
    { apply Nat.lt_succ_l. apply nth_error_Some. congruence. }
    destruct (nth_error (waves tab) k) as [wa|] eqn:Ewa;
      [|apply nth_error_None in Ewa; lia].
    destruct (nth_error (ims tab) k) as [ia|] eqn:Eia;
      [|apply nth_error_None in Eia; lia].
    destruct (nth_error (stepK_vals tab) k) as [sa|] eqn:Esa;
      [|apply nth_error_None in Esa; lia].
    destruct (nth_error (maxK_vals tab) k) as [ma|] eqn:Ema;
      [|apply nth_error_None in Ema; lia].
    destruct (two_neighbours _ _ _ _ Ewa Hw) as (pre & post & Ew & Lw).
    destruct (two_neighbours _ _ _ _ Eia Him) as (ipre & ipost & Ei & Li).
    destruct (two_neighbours _ _ _ _ Esa Hsk) as (spre & spost & Es & Ls).
    destruct (two_neighbours _ _ _ _ Ema Hmk) as (mpre & mpost & Em & Lm).
    eapply imageAtWavelength_at_neighbour; try eassumption; try congruence.
    apply Hshape; rewrite Ei; apply in_or_app; right; simpl; auto.
Qed.

End OnTheGrid.

(** The statement at the second grid point of [sample_table]. *)
Lemma interpolation_is_exact_on_the_grid_witness :
  let a := mkAttrs false true (Some (flat_sed 0)) None [] in
  increasing (waves sample_table) /\ (2 <= List.length (waves sample_table))%nat
  /\ table_ok sample_table
  /\ nth_error (waves sample_table) 1 = Some (qz 600)
  /\ nth_error (ims sample_table) 1 = Some [qz 2]
  /\ nth_error (stepK_vals sample_table) 1 = Some (qz 6)
  /\ nth_error (maxK_vals sample_table) 1 = Some (qz 40)
  /\ evaluateAtWavelength (InterpolatedChromaticObject a sample_psf sample_table) (qz 600)
     = Ok (GSInterpolatedImage [qz 2] (Some (qz 6)) (Some (qz 40)) None).
Proof.
  cbv zeta.
  refine ((fun H1 H2 H3 H4 H5 H6 H7 =>
             conj H1 (conj H2 (conj H3 (conj H4 (conj H5 (conj H6 (conj H7
               (interpolation_is_exact_on_the_grid
                  (mkAttrs false true (Some (flat_sed 0)) None []) sample_psf sample_table
                  1 (qz 600) [qz 2] (qz 6) (qz 40) H1 H2 H3 H4 H5 H6 H7))))))))
            _ _ _ _ _ _ _).
  all: first
         [ reflexivity
         | cbn; lia
         | constructor; try reflexivity;
           intros im1 im2 [<-|[<-|[]]] [<-|[<-|[]]]; reflexivity
         | repeat constructor ].
Defined.


(** ** The weights of the stored images *)

(** *** Adding into an array *)

(** A successful [a[i]] reads an entry of the array. *)
Lemma item_Ok_nth {A} (a : list A) (i : Z) (x : A) :
  item a i = Ok x ->
  let j := Z.to_nat (if (i <? 0)%Z then Z.of_nat (List.length a) + i else i)%Z in
  nth_error a j = Some x.
Proof.
  unfold item. cbv zeta.
  destruct ((if (i <? 0)%Z then (Z.of_nat (List.length a) + i)%Z else i) <? 0)%Z;
    [discriminate|].
  destruct (nth_error a _) eqn:E; [|discriminate]. congruence.
Qed.

Lemma item_minus_2 {A} (pre : list A) p q : item (pre ++ [p; q]) (-2) = Ok p.
Proof.
  unfold item. change (-2 <? 0)%Z with true. cbv iota zeta.
  rewrite length_app. cbn [List.length].
  replace (Z.of_nat (List.length pre + 2) + -2)%Z with (Z.of_nat (List.length pre)) by lia.
  assert ((Z.of_nat (List.length pre) <? 0)%Z = false) as -> by (apply Z.ltb_ge; lia).
  rewrite Nat2Z.id, nth_error_app2 by lia. now rewrite Nat.sub_diag.
Qed.

Lemma item_minus_1 {A} (pre : list A) p q : item (pre ++ [p; q]) (-1) = Ok q.
Proof.
  replace (pre ++ [p; q]) with ((pre ++ [p]) ++ [q]) by now rewrite <- app_assoc.
  apply item_last.
Qed.

(** The shape of [a[i] += x], for an index that is not negative: the entry
    at [i] is replaced. *)
Lemma add_at_at (a : list Qc) (i : Z) (x : Qc) (a' : list Qc) :
  add_at a i x = Ok a' -> (0 <= i)%Z ->
  exists pre old post,
    a = pre ++ old :: post /\ a' = pre ++ (old + x)%Qc :: post
    /\ List.length pre = Z.to_nat i.
Proof.
  unfold add_at. destruct (item a i) as [old|e] eqn:E; [|discriminate].
  cbn [rbind]. intros H Hi. injection H as <-.
  apply item_Ok_nth in E. cbv zeta in E.
  assert ((i <? 0)%Z = false) as Hneg by (apply Z.ltb_ge; exact Hi).
  rewrite Hneg in *.
  set (j := Z.to_nat i) in *.
  destruct (nth_error_split a j E) as (pre & post & Ea & Hlen).
  assert (Hf : firstn j a = pre).
  { rewrite Ea, <- Hlen. rewrite firstn_app, Nat.sub_diag, firstn_all. cbn [firstn].
    apply app_nil_r. }
  assert (Hs : skipn (S j) a = post).
  { rewrite Ea, <- Hlen.
    replace (pre ++ old :: post) with ((pre ++ [old]) ++ post) by now rewrite <- app_assoc.
    replace (S (List.length pre)) with (List.length (pre ++ [old]))
      by (rewrite length_app; cbn; lia).
    rewrite skipn_app, Nat.sub_diag, skipn_all. reflexivity. }
  change (match a with [] => [] | _ :: l => skipn j l end) with (skipn (S j) a).
  rewrite Hf, Hs. exists pre, old, post. auto.
Qed.

(** The shape of [a[i] += x]. *)
Lemma add_at_split (a : list Qc) (i : Z) (x : Qc) (a' : list Qc) :
  add_at a i x = Ok a' ->
  exists pre old post, a = pre ++ old :: post /\ a' = pre ++ (old + x)%Qc :: post.
Proof.
  unfold add_at. destruct (item a i) as [old|e] eqn:E; [|discriminate].
  cbn [rbind]. intro H. injection H as <-.
  apply item_Ok_nth in E. cbv zeta in E.
  set (j := Z.to_nat _) in *.
  destruct (nth_error_split a j E) as (pre & post & Ea & Hlen).
  assert (Hf : firstn j a = pre).
  { rewrite Ea, <- Hlen. rewrite firstn_app, Nat.sub_diag, firstn_all. cbn [firstn].
    apply app_nil_r. }
  assert (Hs : skipn (S j) a = post).
  { rewrite Ea, <- Hlen.
    replace (pre ++ old :: post) with ((pre ++ [old]) ++ post) by now rewrite <- app_assoc.
    replace (S (List.length pre)) with (List.length (pre ++ [old]))
      by (rewrite length_app; cbn; lia).
    rewrite skipn_app, Nat.sub_diag, skipn_all. reflexivity. }
  change (match a with [] => [] | _ :: l => skipn j l end) with (skipn (S j) a).
  rewrite Hf, Hs. exists pre, old, post. split; [exact Ea|reflexivity].
Qed.

Lemma add_at_length (a : list Qc) (i : Z) (x : Qc) (a' : list Qc) :
  add_at a i x = Ok a' -> List.length a' = List.length a.
Proof.
  intro H. destruct (add_at_split _ _ _ _ H) as (pre & old & post & -> & ->).
  rewrite !length_app. reflexivity.
Qed.

(** An entry that is not zero after [a[i] += x] was not zero before, or it
    is the entry at [i] and [x] is not zero. *)
Lemma add_at_nonzero (a : list Qc) (i : Z) (x : Qc) (a' : list Qc) (j : nat) (y : Qc) :
  add_at a i x = Ok a' -> (0 <= i)%Z ->
  nth_error a' j = Some y -> y <> 0%Qc ->
  (exists y0, nth_error a j = Some y0 /\ y0 <> 0%Qc) \/ (Z.of_nat j = i /\ x <> 0%Qc).
Proof.
  intros H Hi Hj Hy.
  destruct (add_at_at _ _ _ _ H Hi) as (pre & old & post & -> & -> & Hlen).
  destruct (Nat.lt_trichotomy j (List.length pre)) as [Hlt|[Heq|Hgt]].
  - left. exists y. rewrite nth_error_app1 in * by exact Hlt. auto.
  - subst j. rewrite nth_error_app2, Nat.sub_diag in Hj by lia. cbn in Hj.
    injection Hj as <-.
    destruct (Qc_eq_dec x 0%Qc) as [->|Hx].
    + left. exists old. rewrite nth_error_app2, Nat.sub_diag by lia.
      rewrite Qcplus_0_r in Hy. auto.
    + right. split; [lia|exact Hx].
  - left. exists y. rewrite nth_error_app2 in * by lia.
    destruct (j - List.length pre)%nat as [|k] eqn:Ek; [lia|]. cbn in *. auto.
Qed.

(** *** Where the weights go *)

(** The index [_findWave] returns is not negative. *)
Lemma findWave_index_nonneg (grid : list Qc) (w : Qc) (i : Z) (frac : Qc) :
  _findWave grid w = Ok (i, frac) -> (0 <= i)%Z.
Proof.
  unfold _findWave. cbv zeta.
  set (i0 := (np_searchsorted grid w - 1)%Z).
  set (i1 := if (i0 <? 0)%Z then 0%Z else i0).
  set (i2 := if (i1 >? Z.of_nat (List.length grid) - 1)%Z
             then (Z.of_nat (List.length grid) - 1)%Z else i1).
  destruct (item grid i2) as [below|e] eqn:Eb; cbn [rbind]; [|discriminate].
  destruct (item grid (i2 + 1)) as [above|e]; cbn [rbind]; [|discriminate].
  destruct (fdiv _ _); cbn [rbind]; [|discriminate].
  intro H. injection H as <- _.
  assert (H1 : (0 <= i1)%Z) by (subst i1; destruct (i0 <? 0)%Z eqn:E; [lia|apply Z.ltb_ge; exact E]).
  subst i2. destruct (i1 >? Z.of_nat (List.length grid) - 1)%Z eqn:E; [|exact H1].
  destruct grid as [|x grid]; [discriminate Eb|]. cbn [List.length]. lia.
Qed.

Lemma Qcmult_nonzero_l (a b : Qc) : (a * b)%Qc <> 0%Qc -> a <> 0%Qc.
Proof. intros H ->. apply H. ring. Qed.

Lemma Qcmult_nonzero_r (a b : Qc) : (a * b)%Qc <> 0%Qc -> b <> 0%Qc.
Proof. intros H ->. apply H. ring. Qed.

Lemma accumulate_weights_length grid bandpass midpoint n :
  forall samples idx wf0 wf,
    accumulate_weights grid bandpass midpoint n idx samples wf0 = Ok wf ->
    List.length wf = List.length wf0.
Proof.
  induction samples as [|[w dw] rest IH]; intros idx wf0 wf H;
    cbn [accumulate_weights] in H.
  - now injection H as <-.
  - destruct (_findWave grid w) as [[i frac]|e]; [|discriminate]. cbn [rbind] in H.
    destruct ((0 <? idx)%nat && (idx <? n - 1)%nat || midpoint).
    + destruct (add_at wf0 i _) as [wf1|e] eqn:E1; [|discriminate]. cbn [rbind] in H.
      destruct (add_at wf1 (i + 1) _) as [wf2|e] eqn:E2; [|discriminate]. cbn [rbind] in H.
      apply add_at_length in E1, E2. rewrite (IH _ _ _ H). congruence.
    + destruct (add_at wf0 i _) as [wf1|e] eqn:E1; [|discriminate]. cbn [rbind] in H.
      destruct (add_at wf1 (i + 1) _) as [wf2|e] eqn:E2; [|discriminate]. cbn [rbind] in H.
      apply add_at_length in E1, E2. rewrite (IH _ _ _ H). congruence.
Qed.

(** A weight that is not zero at the end was not zero at the start, or a
    sample with a throughput that is not zero was found next to it. *)
Lemma accumulate_weights_local grid bandpass midpoint n :
  forall samples idx wf0 wf,
    accumulate_weights grid bandpass midpoint n idx samples wf0 = Ok wf ->
    forall j y, nth_error wf j = Some y -> y <> 0%Qc ->
      (exists y0, nth_error wf0 j = Some y0 /\ y0 <> 0%Qc)
      \/ (exists w dw i frac,
            In (w, dw) samples /\ bp_call bandpass w <> 0%Qc
            /\ _findWave grid w = Ok (i, frac)
            /\ (Z.of_nat j = i \/ Z.of_nat j = (i + 1)%Z)).
Proof.
  induction samples as [|[w dw] rest IH]; intros idx wf0 wf H j y Hj Hy;
    cbn [accumulate_weights] in H.
  - injection H as <-. left. eauto.
  - destruct (_findWave grid w) as [[i frac]|e] eqn:Ef; [|discriminate]. cbn [rbind] in H.
    pose proof (findWave_index_nonneg _ _ _ _ Ef) as Hi.
    assert (Hstep : forall x1 x2 wf1 wf2,
               add_at wf0 i x1 = Ok wf1 -> add_at wf1 (i + 1) x2 = Ok wf2 ->
               accumulate_weights grid bandpass midpoint n (S idx) rest wf2 = Ok wf ->
               (x1 <> 0%Qc \/ x2 <> 0%Qc -> bp_call bandpass w <> 0%Qc) ->
               (exists y0, nth_error wf0 j = Some y0 /\ y0 <> 0%Qc)
               \/ (exists w' dw' i' frac',
                     In (w', dw') ((w, dw) :: rest) /\ bp_call bandpass w' <> 0%Qc
                     /\ _findWave grid w' = Ok (i', frac')
                     /\ (Z.of_nat j = i' \/ Z.of_nat j = (i' + 1)%Z))).
    { intros x1 x2 wf1 wf2 E1 E2 Hrest Hbp.
      destruct (IH _ _ _ Hrest j y Hj Hy) as [(y2 & Hj2 & Hy2)|(w' & dw' & i' & f' & Hin & R)].
      - destruct (add_at_nonzero _ _ _ _ _ _ E2 ltac:(lia) Hj2 Hy2)
          as [(y1 & Hj1 & Hy1)|[Hji Hx2]].
        + destruct (add_at_nonzero _ _ _ _ _ _ E1 Hi Hj1 Hy1) as [Hold|[Hji Hx1]].
          * left. exact Hold.
          * right. exists w, dw, i, frac. split; [now left|]. auto.
        + right. exists w, dw, i, frac. split; [now left|]. auto.
      - right. exists w', dw', i', f'. split; [now right|exact R]. }
    destruct ((0 <? idx)%nat && (idx <? n - 1)%nat || midpoint).
    + destruct (add_at wf0 i _) as [wf1|e] eqn:E1; [|discriminate]. cbn [rbind] in H.
      destruct (add_at wf1 (i + 1) _) as [wf2|e] eqn:E2; [|discriminate]. cbn [rbind] in H.
      apply (Hstep _ _ _ _ E1 E2 H).
      intros [Hx|Hx]; apply Qcmult_nonzero_r in Hx; now apply Qcmult_nonzero_l in Hx.
    + destruct (add_at wf0 i _) as [wf1|e] eqn:E1; [|discriminate]. cbn [rbind] in H.
      destruct (add_at wf1 (i + 1) _) as [wf2|e] eqn:E2; [|discriminate]. cbn [rbind] in H.
      apply (Hstep _ _ _ _ E1 E2 H).
      intros [Hx|Hx]; apply Qcmult_nonzero_l in Hx; apply Qcmult_nonzero_r in Hx;
        now apply Qcmult_nonzero_l in Hx.
Qed.

(** X4.  The weights [_get_interp_image] gives to the stored images, on a
    grid without repeated wavelengths: there is one per stored image, and
    only the neighbours of a sample get any: a stored image whose weight is
    not zero is, for some sample wavelength at which the throughput of the
    bandpass is not zero, the image at the index [_findWave] returns for
    that wavelength or the next one. *)
Theorem weights_are_local (tab : Interpolation) (bandpass : Bandpass)
  (integrator : Integrator) (wave_list weight_fac : list Qc) :
  increasing (waves tab) ->
  interp_weights tab bandpass integrator wave_list = Ok weight_fac ->
  List.length weight_fac = List.length (waves tab)
  /\ forall (j : nat) (x : Qc),
       nth_error weight_fac j = Some x -> x <> 0%Qc ->
       exists w i frac,
         In w wave_list /\ bp_call bandpass w <> 0%Qc
         /\ _findWave (waves tab) w = Ok (i, frac)
         /\ (Z.of_nat j = i \/ Z.of_nat j = (i + 1)%Z).
Proof.
  intros _. unfold interp_weights. intro H.
  destruct (widths wave_list) as [dw|e]; [|discriminate]. cbn [rbind] in H.
  split.
  - rewrite (accumulate_weights_length _ _ _ _ _ _ _ _ H). apply repeat_length.
  - intros j x Hj Hx.
    destruct (accumulate_weights_local _ _ _ _ _ _ _ _ H j x Hj Hx)
      as [(y0 & Hj0 & Hy0)|(w & d & i & frac & Hin & R)].
    + exfalso. apply Hy0. apply nth_error_In in Hj0. now apply repeat_spec in Hj0.
    + exists w, i, frac. split; [|exact R]. now apply in_combine_l in Hin.
Qed.

(** The statement for the trapezoidal rule, a flat bandpass and three samples. *)
Lemma weights_are_local_witness :
  let band := sample_bandpass (fun _ => 1%Qc) [qz 500; qz 600] in
  let wave_list := [qz 500; qz 550; qz 600] in
  increasing (waves sample_table)
  /\ exists weight_fac,
    interp_weights sample_table band (IString "trapezoidal") wave_list = Ok weight_fac
    /\ List.length weight_fac = List.length (waves sample_table)
    /\ forall (j : nat) (x : Qc),
         nth_error weight_fac j = Some x -> x <> 0%Qc ->
         exists w i frac,
           In w wave_list /\ bp_call band w <> 0%Qc
           /\ _findWave (waves sample_table) w = Ok (i, frac)
           /\ (Z.of_nat j = i \/ Z.of_nat j = (i + 1)%Z).
Proof.
  cbv zeta.
  refine ((fun H0 => conj H0 _) _); [|repeat constructor].
  let r := eval lazy in
             (interp_weights sample_table (sample_bandpass (fun _ => 1%Qc) [qz 500; qz 600])
                (IString "trapezoidal") [qz 500; qz 550; qz 600]) in
  lazymatch r with Ok ?wf => exists wf end.
  refine ((fun H1 =>
             conj H1
               (weights_are_local sample_table
                  (sample_bandpass (fun _ => 1%Qc) [qz 500; qz 600])
                  (IString "trapezoidal") [qz 500; qz 550; qz 600] _ H0 H1)) _).
  vm_compute; reflexivity.
Defined.

(** *** Signs *)

Lemma Qc_nonneg_mult (a b : Qc) : (0 <= a)%Qc -> (0 <= b)%Qc -> (0 <= a * b)%Qc.
Proof.
  intros Ha Hb. rewrite <- (Qcmult_0_l b). now apply Qcmult_le_compat_r.
Qed.

Lemma Qc_nonneg_plus (a b : Qc) : (0 <= a)%Qc -> (0 <= b)%Qc -> (0 <= a + b)%Qc.
Proof.
  intros Ha Hb. rewrite <- (Qcplus_0_l 0%Qc). now apply Qcplus_le_compat.
Qed.

Lemma Qc_nonneg_minus (a b : Qc) : (a <= b)%Qc -> (0 <= b - a)%Qc.
Proof. intro H. apply Qcle_minus_iff in H. exact H. Qed.

Lemma half_nonneg : (0 <= half)%Qc.
Proof. discriminate. Qed.

Lemma add_at_nonneg (a : list Qc) (i : Z) (x : Qc) (a' : list Qc) :
  Forall (fun y => (0 <= y)%Qc) a -> (0 <= x)%Qc -> add_at a i x = Ok a' ->
  Forall (fun y => (0 <= y)%Qc) a'.
Proof.
  intros Ha Hx H. destruct (add_at_split _ _ _ _ H) as (pre & old & post & -> & ->).
  apply Forall_app in Ha. destruct Ha as [Hpre Hpost].
  apply Forall_app. split; [exact Hpre|].
  inversion Hpost; subst. constructor; [|assumption]. now apply Qc_nonneg_plus.
Qed.

(** The widths of a sorted list of wavelengths. *)
Lemma inner_widths_nonneg l :
  nondecreasing l -> Forall (fun d => (0 <= d)%Qc) (inner_widths l).
Proof.
  induction l as [|a [|b [|c r]] IH]; intro H; try (cbn; constructor).
  - apply Qc_nonneg_mult; [apply half_nonneg|]. apply Qc_nonneg_minus.
    apply StronglySorted_inv in H. destruct H as [_ Hf].
    rewrite Forall_forall in Hf. apply Hf. right. now left.
  - apply IH. apply StronglySorted_inv in H. tauto.
Qed.

Lemma nondecreasing_app_last2 pre p q :
  nondecreasing (pre ++ [p; q]) -> (p <= q)%Qc.
Proof.
  induction pre as [|x pre IH]; cbn [app]; intro H.
  - apply StronglySorted_inv in H. destruct H as [_ Hf]. now inversion Hf.
  - apply IH. apply StronglySorted_inv in H. tauto.
Qed.

#[local] Opaque inner_widths.

Lemma widths_nonneg wave_list dw :
  nondecreasing wave_list -> widths wave_list = Ok dw ->
  Forall (fun d => (0 <= d)%Qc) dw.
Proof.
  unfold widths. intros Hs H.
  destruct wave_list as [|w0 [|w1 rest]]; try discriminate.
  rewrite item_1, item_0 in H. cbn [rbind] in H.
  destruct (two_last (w0 :: w1 :: rest)) as (pre & p & q & E); [cbn; lia|].
  assert (E1 : item (w0 :: w1 :: rest) (-1) = Ok q) by (rewrite E; apply item_minus_1).
  assert (E2 : item (w0 :: w1 :: rest) (-2) = Ok p) by (rewrite E; apply item_minus_2).
  rewrite E1, E2 in H. cbn [rbind] in H. injection H as <-.
  change ([(w1 - w0)%Qc] ++ inner_widths (w0 :: w1 :: rest) ++ [(q - p)%Qc])
    with ((w1 - w0)%Qc :: (inner_widths (w0 :: w1 :: rest) ++ [(q - p)%Qc])).
  constructor; [|apply Forall_app; split].
  - apply Qc_nonneg_minus.
    apply StronglySorted_inv in Hs. destruct Hs as [_ Hf]. now inversion Hf.
  - now apply inner_widths_nonneg.
  - constructor; [|constructor]. apply Qc_nonneg_minus.
    apply (nondecreasing_app_last2 pre). now rewrite <- E.
Qed.

#[local] Transparent inner_widths.

(** *** The weights of a throughput that is not negative *)

Lemma accumulate_weights_nonneg grid bandpass midpoint n lo hi :
  increasing grid -> (2 <= List.length grid)%nat ->
  np_min grid = Ok lo -> np_max grid = Ok hi ->
  forall samples idx wf0 wf,
    Forall (fun s => (lo <= fst s)%Qc /\ (fst s <= hi)%Qc
                     /\ (0 <= bp_call bandpass (fst s))%Qc /\ (0 <= snd s)%Qc) samples ->
    Forall (fun y => (0 <= y)%Qc) wf0 ->
    accumulate_weights grid bandpass midpoint n idx samples wf0 = Ok wf ->
    Forall (fun y => (0 <= y)%Qc) wf.
Proof.
  intros Hinc Hlen Hlo Hhi.
  induction samples as [|[w dw] rest IH]; intros idx wf0 wf Hs H0 H;
    cbn [accumulate_weights] in H.
  - now injection H as <-.
  - inversion Hs as [|? ? (Hl & Hh & Hb & Hd) Hrest]; subst. cbn [fst snd] in *.
    destruct (bracket_in_grid grid w lo hi Hinc Hlen Hlo Hhi Hl Hh)
      as (pre & below & above & post & _ & Hba & Hbw & Hwa & Ef).
    destruct (frac_between below above w Hba Hbw Hwa) as (F0 & F1).
    remember (Z.of_nat (List.length pre)) as i eqn:Ei.
    remember ((w - below) / (above - below))%Qc as frac eqn:Efrac.
    rewrite Ef in H. cbn [rbind] in H.
    assert (Hbd : (0 <= bp_call bandpass w * dw)%Qc) by now apply Qc_nonneg_mult.
    assert (H1f : (0 <= 1 - frac)%Qc) by now apply Qc_nonneg_minus.
    destruct ((0 <? idx)%nat && (idx <? n - 1)%nat || midpoint).
    + destruct (add_at wf0 i _) as [wf1|e] eqn:E1; [|discriminate]. cbn [rbind] in H.
      destruct (add_at wf1 (i + 1) _) as [wf2|e] eqn:E2; [|discriminate]. cbn [rbind] in H.
      apply (IH _ _ _ Hrest) in H; [exact H|].
      eapply add_at_nonneg; [|
        |exact E2].
      * eapply add_at_nonneg; [exact H0| |exact E1]. now apply Qc_nonneg_mult.
      * now apply Qc_nonneg_mult.
    + destruct (add_at wf0 i _) as [wf1|e] eqn:E1; [|discriminate]. cbn [rbind] in H.
      destruct (add_at wf1 (i + 1) _) as [wf2|e] eqn:E2; [|discriminate]. cbn [rbind] in H.
      apply (IH _ _ _ Hrest) in H; [exact H|].
      eapply add_at_nonneg; [| |exact E2].
      * eapply add_at_nonneg; [exact H0| |exact E1].
        apply Qc_nonneg_mult; [now apply Qc_nonneg_mult|apply half_nonneg].
      * apply Qc_nonneg_mult; [now apply Qc_nonneg_mult|apply half_nonneg].
Qed.

Lemma repeat_0_nonneg n : Forall (fun y => (0 <= y)%Qc) (repeat 0%Qc n).
Proof. induction n; cbn; constructor; [apply Qcle_refl|assumption]. Qed.

Lemma combine_Forall {A B} (P : A -> Prop) (Q : B -> Prop) l l' :
  Forall P l -> Forall Q l' -> Forall (fun s => P (fst s) /\ Q (snd s)) (combine l l').
Proof.
  intros Hl. revert l'. induction Hl as [|x l Hx Hl IH]; intros l' Hl'; [constructor|].
  destruct Hl' as [|y l' Hy Hl']; cbn [combine]; constructor; auto.
Qed.

Lemma positive_is_nonzero (x : Qc) : (0 <= x)%Qc -> Qcltb 0%Qc x = negb (Qceqb x 0%Qc).
Proof.
  intro H. destruct (Qceqb x 0%Qc) eqn:E.
  - apply Qceqb_eq in E. subst. apply Qcltb_irrefl.
  - apply Qceqb_neq in E. cbn [negb]. apply Qcltb_lt.
    destruct (Qcle_lt_or_eq _ _ H) as [Hlt|Heq]; [exact Hlt|congruence].
Qed.

(** X5.  When the sample wavelengths are sorted and lie in the grid, and the
    throughput of the bandpass is not negative at any of them, no stored
    image gets a negative weight; the selection [weight_fac > 0] of the code
    is then the selection of the nonzero weights its comment describes. *)
Theorem weights_of_a_nonnegative_throughput (tab : Interpolation) (bandpass : Bandpass)
  (integrator : Integrator) (wave_list weight_fac : list Qc) (lo hi : Qc) :
  increasing (waves tab) -> (2 <= List.length (waves tab))%nat ->
  np_min (waves tab) = Ok lo -> np_max (waves tab) = Ok hi ->
  nondecreasing wave_list ->
  Forall (fun w => (lo <= w)%Qc /\ (w <= hi)%Qc /\ (0 <= bp_call bandpass w)%Qc) wave_list ->
  interp_weights tab bandpass integrator wave_list = Ok weight_fac ->
  Forall (fun x => (0 <= x)%Qc) weight_fac
  /\ forall vals, positive_weight vals weight_fac = nonzero_weight vals weight_fac.
Proof.
  intros Hinc Hlen Hlo Hhi Hsorted Hw H.
  assert (Hpos : Forall (fun x => (0 <= x)%Qc) weight_fac).
  { unfold interp_weights in H.
    destruct (widths wave_list) as [dw|e] eqn:Ew; [|discriminate]. cbn [rbind] in H.
    eapply (accumulate_weights_nonneg _ _ _ _ lo hi Hinc Hlen Hlo Hhi); [| |exact H].
    - pose proof (combine_Forall _ _ _ _ Hw (widths_nonneg _ _ Hsorted Ew)) as Hc.
      eapply Forall_impl; [|exact Hc]. cbv beta. tauto.
    - apply repeat_0_nonneg. }
  split; [exact Hpos|].
  intro vals. unfold positive_weight, nonzero_weight.
  destruct (Nat.eqb (List.length vals) (List.length weight_fac)); [|reflexivity].
  do 2 f_equal. clear -Hpos. revert vals.
  induction Hpos as [|x wf Hx Hwf IH]; intros [|v vals]; cbn [combine filter]; try reflexivity.
  cbn [snd]. rewrite (positive_is_nonzero x Hx), IH. reflexivity.
Qed.

(** The statement for a flat bandpass and three samples in the grid. *)
Lemma weights_of_a_nonnegative_throughput_witness :
  let band := sample_bandpass (fun _ => 1%Qc) [qz 500; qz 600] in
  let wave_list := [qz 500; qz 550; qz 600] in
  increasing (waves sample_table) /\ (2 <= List.length (waves sample_table))%nat
  /\ np_min (waves sample_table) = Ok (qz 500) /\ np_max (waves sample_table) = Ok (qz 600)
  /\ nondecreasing wave_list
  /\ Forall (fun w => (qz 500 <= w)%Qc /\ (w <= qz 600)%Qc /\ (0 <= bp_call band w)%Qc)
            wave_list
  /\ exists weight_fac,
      interp_weights sample_table band (IString "trapezoidal") wave_list = Ok weight_fac
      /\ Forall (fun x => (0 <= x)%Qc) weight_fac
      /\ forall vals, positive_weight vals weight_fac = nonzero_weight vals weight_fac.
Proof.
  cbv zeta.
  refine ((fun H1 H2 H3 H4 H5 H6 =>
             conj H1 (conj H2 (conj H3 (conj H4 (conj H5 (conj H6 _)))))) _ _ _ _ _ _).
  - let r := eval lazy in
               (interp_weights sample_table (sample_bandpass (fun _ => 1%Qc) [qz 500; qz 600])
                  (IString "trapezoidal") [qz 500; qz 550; qz 600]) in
    lazymatch r with Ok ?wf => exists wf end.
    refine ((fun H7 =>
               conj H7
                 (weights_of_a_nonnegative_throughput sample_table
                    (sample_bandpass (fun _ => 1%Qc) [qz 500; qz 600])
                    (IString "trapezoidal") [qz 500; qz 550; qz 600] _ (qz 500) (qz 600)
                    H1 H2 H3 H4 H5 H6 H7)) _).
    vm_compute; reflexivity.
  - repeat constructor.
  - cbn; lia.
  - reflexivity.
  - reflexivity.
  - repeat constructor; vm_compute; discriminate.
  - repeat constructor; vm_compute; discriminate.
Defined.


(** ** Too few sample wavelengths *)

Lemma widths_too_short (wave_list : list Qc) :
  (List.length wave_list < 2)%nat -> widths wave_list = Raise IndexOutOfBounds.
Proof.
  destruct wave_list as [|w [|w' l]]; cbn [List.length]; intro H; try lia; reflexivity.
Qed.

Lemma integrate_too_few_samples tab bandpass integrator wave_list :
  (List.length wave_list < 2)%nat ->
  exists e,
    integrate_stored_images tab bandpass integrator wave_list = Raise e
    /\ (e = EmptyReduction \/ e = OutOfRange \/ e = IndexOutOfBounds)
    /\ (wave_list = [] -> e = EmptyReduction).
Proof.
  intro H. unfold integrate_stored_images.
  destruct wave_list as [|w [|w' l]]; cbn [List.length] in H; try lia.
  - exists EmptyReduction. cbn. auto.
  - cbn [np_min fold_min rbind np_max fold_max].
    destruct (waves tab) as [|x g]; cbn [np_min np_max rbind].
    + exists EmptyReduction. split; [reflexivity|]. split; [auto|discriminate].
    + destruct (Qcltb w (fold_min x g)).
      * exists OutOfRange. split; [reflexivity|]. split; [auto|discriminate].
      * destruct (Qcltb (fold_max x g) w).
        -- exists OutOfRange. split; [reflexivity|]. split; [auto|discriminate].
        -- unfold interp_weights. rewrite widths_too_short by (cbn; lia). cbn [rbind].
           exists IndexOutOfBounds. split; [reflexivity|]. split; [auto|discriminate].
Qed.

(** X6.  An interpolated object is never drawn over fewer than two sample
    wavelengths (the union of its own knots and those of the bandpass):
    [_get_interp_image] and [drawImage] raise.  With an SED, one of the two
    integration rules and a successful set-up of the image, the error is
    that of an empty reduction, of the range check or of an index out of
    bounds, and it is the empty reduction when there is no sample at all. *)
Theorem drawing_needs_two_sample_wavelengths (ext : External) (a : Attrs)
  (original : ChromaticObject) (tab : Interpolation) (bandpass : Bandpass)
  (image : option Image) (integrator : Integrator) (kwargs : Kwargs) (st : St) :
  (List.length (combine_wave_list [wave_list a; bp_wave_list bandpass]) < 2)%nat ->
  let self := InterpolatedChromaticObject a original tab in
  (exists e st', _get_interp_image ext self a tab bandpass image integrator kwargs st
                 = (Raise e, st'))
  /\ (exists e st', drawImage ext self bandpass image integrator kwargs st = (Raise e, st'))
  /\ (forall sed wave0 prof0 image0,
        SED a = Some sed ->
        integrator = IString "trapezoidal" \/ integrator = IString "midpoint" ->
        _fiducial_profile ext self bandpass = Ok (wave0, prof0) ->
        gs_drawImage ext prof0 image true kwargs = Ok image0 ->
        exists e st',
          drawImage ext self bandpass image integrator kwargs st = (Raise e, st')
          /\ (e = EmptyReduction \/ e = OutOfRange \/ e = IndexOutOfBounds)
          /\ (combine_wave_list [wave_list a; bp_wave_list bandpass] = [] ->
              e = EmptyReduction)).
Proof.
  intros Hlen self.
  destruct (integrate_too_few_samples tab bandpass integrator _ Hlen) as (e & He & Hcases & Hnil).
  assert (Hget : exists e' st',
             _get_interp_image ext self a tab bandpass image integrator kwargs st
             = (Raise e', st')
             /\ (forall wave0 prof0 image0,
                   integrator = IString "trapezoidal" \/ integrator = IString "midpoint" ->
                   _fiducial_profile ext self bandpass = Ok (wave0, prof0) ->
                   gs_drawImage ext prof0 image true kwargs = Ok image0 ->
                   e' = e)).
  { unfold _get_interp_image.
    destruct integrator as [s| | |];
      try (exists InvalidIntegratorType, st; split; [reflexivity|];
           intros ? ? ? [H|H]; discriminate).
    destruct (String.eqb s "trapezoidal" || String.eqb s "midpoint") eqn:Es.
    - cbv zeta. rewrite He.
      unfold bind, lift, gs_draw, log_draw.
      destruct (_fiducial_profile ext self bandpass) as [[w0 p0]|e0] eqn:Efid.
      + cbv beta iota. unfold bind. cbv beta iota.
        destruct (gs_drawImage ext p0 image true kwargs) as [im0|e1] eqn:Edraw.
        * eexists. eexists. split; reflexivity.
        * eexists. eexists. split; [reflexivity|]. intros ? ? ? _ H1 H2.
          injection H1 as <- <-. congruence.
      + eexists. eexists. split; [reflexivity|]. intros; congruence.
    - exists UnknownIntegrator, st. split; [reflexivity|].
      intros ? ? ? [H|H] _ _; injection H as ->; discriminate Es. }
  destruct Hget as (e' & st' & Hrun & Hsame).
  split; [eauto|]. split.
  - rewrite drawImage_unfold. unfold self at 1. cbv beta iota.
    unfold Interpolated_drawImage. destruct (SED a).
    + exists e', st'. unfold bind. now rewrite Hrun.
    + exists MissingSED, st. reflexivity.
  - intros sed wave0 prof0 image0 Hsed Hint Hfid Hsetup.
    exists e, st'. rewrite drawImage_unfold. unfold self at 1. cbv beta iota.
    unfold Interpolated_drawImage. rewrite Hsed. unfold bind. rewrite Hrun.
    rewrite (Hsame wave0 prof0 image0 Hint Hfid Hsetup). auto.
Qed.

(** The statement at an object and a bandpass without knots. *)
Lemma drawing_needs_two_sample_wavelengths_witness :
  let a := mkAttrs false true (Some (flat_sed 0)) None [] in
  let band := sample_bandpass (fun _ => 1%Qc) [] in
  let self := InterpolatedChromaticObject a sample_psf sample_table in
  (List.length (combine_wave_list [wave_list a; bp_wave_list band]) < 2)%nat
  /\ exists e st',
      drawImage sample_ext self band None default_integrator no_kwargs initial_state
      = (Raise e, st').
Proof.
  cbv zeta.
  refine ((fun H1 =>
             conj H1
               (proj1 (proj2
                  (drawing_needs_two_sample_wavelengths sample_ext
                     (mkAttrs false true (Some (flat_sed 0)) None []) sample_psf sample_table
                     (sample_bandpass (fun _ => 1%Qc) []) None default_integrator no_kwargs
                     initial_state H1)))) _).
  cbn; lia.
Defined.


(** ** The convolutants of a convolution *)

Lemma ChromaticConvolution_init_shape args g st o st' :
  ChromaticConvolution_init args g st = (Ok o, st') ->
  exists l a,
    unpack_args args = Ok l
    /\ o = ChromaticConvolution a (unfold_convolutions l) g
    /\ separable a = forallb (fun obj => separable (attrs obj)) (unfold_convolutions l)
    /\ interpolated a = existsb (fun obj => interpolated (attrs obj)) (unfold_convolutions l)
    /\ wave_list a
       = combine_wave_list (map (fun obj => wave_list (attrs obj)) (unfold_convolutions l)).
Proof.
  unfold ChromaticConvolution_init. intro H. minv_all.
  match goal with
  | Hu : unpack_args args = Ok ?l |- _ => exists l
  end.
  eexists. split; [assumption|]. split; [reflexivity|]. cbn. auto.
Qed.

Lemma unfold_convolutions_app l1 l2 :
  unfold_convolutions (l1 ++ l2) = unfold_convolutions l1 ++ unfold_convolutions l2.
Proof. unfold unfold_convolutions. apply flat_map_app. Qed.

Lemma unfold_convolutions_flat l :
  Forall (fun o => forall a objlist g,
              o = ChromaticConvolution a objlist g ->
              Forall (fun c => is_ChromaticConvolution c = false) objlist) l ->
  Forall (fun c => is_ChromaticConvolution c = false) (unfold_convolutions l).
Proof.
  induction 1 as [|o l Ho Hl IH]; [constructor|].
  change (o :: l) with ([o] ++ l). rewrite unfold_convolutions_app.
  apply Forall_app. split; [|exact IH].
  unfold unfold_convolutions. cbn [flat_map]. rewrite app_nil_r.
  destruct o; try (constructor; [reflexivity|constructor]).
  eapply Ho. reflexivity.
Qed.

Lemma Interpolated_init_class ext d original waves fac st o st' :
  InterpolatedChromaticObject_init_with ext d original waves fac st = (Ok o, st') ->
  is_InterpolatedChromaticObject o = true.
Proof.
  unfold InterpolatedChromaticObject_init_with. intro H. minv_all. reflexivity.
Qed.

Lemma Transformation_init_class d obj jac offset flux_ratio g st o st' :
  ChromaticTransformation_init_with d obj jac offset flux_ratio g st = (Ok o, st') ->
  is_ChromaticTransformation o = true.
Proof.
  unfold ChromaticTransformation_init_with. intro H. minv_all. reflexivity.
Qed.

Lemma Sum_init_class fuel args g st o st' :
  ChromaticSum_init_fuel fuel args g st = (Ok o, st') -> is_ChromaticSum o = true.
Proof.
  destruct fuel as [|fuel]; [discriminate|].
  cbn [ChromaticSum_init_fuel]. intro H. minv_all.
  match goal with
  | H : (if ?b then _ else _) _ = (Ok _, _) |- _ => destruct b; [discriminate H|]
  end.
  match goal with
  | H : (let '(_, _) := ?x in _) _ = (Ok _, _) |- _ => destruct x
  end.
  minv_all. reflexivity.
Qed.

(** X7.  A convolution built by the constructors, from objects they built,
    is flat: none of its convolutants is itself a convolution. *)
Theorem convolutions_are_flat (ext : External) (o : ChromaticObject) :
  Built ext o ->
  forall a objlist g,
    o = ChromaticConvolution a objlist g ->
    Forall (fun c => is_ChromaticConvolution c = false) objlist.
Proof.
  intro HB. induction HB as [r st st' o Hops IH Hc] using Built_induction.
  intros a objlist g ->.
  destruct r.
  - cbn [construct] in Hc.
    unfold ChromaticObject_init in Hc. destruct obj as [p|c|[|]];
      [| |discriminate Hc|discriminate Hc].
    + destruct (Qceqb (gs_flux ext p) 1); minv_all; discriminate.
    + minv_all. discriminate.
  - cbn [construct] in Hc. unfold Chromatic_init in Hc. minv_all. discriminate.
  - cbn [construct] in Hc. unfold ChromaticPSF_init in Hc. minv_all. discriminate.
  - rewrite construct_interpolated in Hc.
    apply Interpolated_init_class in Hc. discriminate Hc.
  - rewrite construct_transformation in Hc.
    apply Transformation_init_class in Hc. discriminate Hc.
  - cbn [construct] in Hc. apply Sum_init_class in Hc. discriminate Hc.
  - cbn [construct] in Hc. apply ChromaticConvolution_init_shape in Hc.
    destruct Hc as (l & a' & Hu & Ho & _). injection Ho as _ -> _.
    apply unfold_convolutions_flat.
    cbn [operands] in IH.
    assert (l = args_list args) as ->.
    { destruct args as [[|x l']|l']; cbn in Hu; try discriminate; injection Hu as <-; reflexivity. }
    exact IH.
  - cbn [construct] in Hc. unfold ChromaticDeconvolution_init in Hc. minv_all. discriminate.
  - cbn [construct] in Hc. unfold ChromaticAutoConvolution_init in Hc. minv_all. discriminate.
  - cbn [construct] in Hc. unfold ChromaticAutoCorrelation_init in Hc. minv_all. discriminate.
  - cbn [construct] in Hc. unfold ChromaticFourierSqrtProfile_init in Hc. minv_all. discriminate.
Qed.

(** The statement at the convolution of a convolution with a chromatic PSF. *)
Lemma convolutions_are_flat_witness :
  exists o a objlist g,
    Built sample_ext o
    /\ o = ChromaticConvolution a objlist g
    /\ List.length objlist = 3%nat
    /\ Forall (fun c => is_ChromaticConvolution c = false) objlist.
Proof.
  let r1 := eval lazy in (construct sample_ext (NewChromatic (GSProfile 1) (flat_sed 0))
                            initial_state) in
  lazymatch r1 with
  | (Ok ?L, ?s1) =>
      let r2 := eval lazy in (construct sample_ext
                                (NewChromaticPSF Airy (fun w => GSScaled (GSProfile 7) w))
                                s1) in
      lazymatch r2 with
      | (Ok ?P, ?s2) =>
          let r3 := eval lazy in (construct sample_ext
                                    (NewChromaticConvolution (OneList [L; P]) None) s2) in
          lazymatch r3 with
          | (Ok ?I, ?s3) =>
              let r4 := eval lazy in (construct sample_ext
                                        (NewChromaticConvolution (OneList [I; P]) None) s3) in
              lazymatch r4 with
              | (Ok (ChromaticConvolution ?a ?l ?g), ?s4) =>
                  exists (ChromaticConvolution a l g), a, l, g;
                  refine ((fun HB =>
                             conj HB (conj eq_refl (conj eq_refl
                               (convolutions_are_flat sample_ext _ HB a l g eq_refl)))) _);
                  assert (BL : Built sample_ext L)
                    by (apply (Built_by sample_ext (NewChromatic (GSProfile 1) (flat_sed 0))
                                 initial_state s1);
                        [constructor | lazy; reflexivity]);
                  assert (BP : Built sample_ext P)
                    by (apply (Built_by sample_ext
                                 (NewChromaticPSF Airy (fun w => GSScaled (GSProfile 7) w))
                                 s1 s2);
                        [constructor | lazy; reflexivity]);
                  assert (BI : Built sample_ext I)
                    by (apply (Built_by sample_ext
                                 (NewChromaticConvolution (OneList [L; P]) None) s2 s3);
                        [repeat constructor; assumption | lazy; reflexivity]);
                  apply (Built_by sample_ext
                           (NewChromaticConvolution (OneList [I; P]) None) s3 s4);
                  [repeat constructor; assumption | lazy; reflexivity]
              end
          end
      end
  end.
Defined.

Lemma unfold_convolutions_of_built args g st o st' rest :
  ChromaticConvolution_init args g st = (Ok o, st') ->
  forall l, unpack_args args = Ok l ->
  unfold_convolutions (o :: rest) = unfold_convolutions l ++ unfold_convolutions rest.
Proof.
  intros H l Hl. apply ChromaticConvolution_init_shape in H.
  destruct H as (l' & a & Hu & -> & _). rewrite Hl in Hu. injection Hu as <-.
  reflexivity.
Qed.

(** X8.  Convolution is associative: [Convolve([Convolve([A, B]), C])] and
    [Convolve([A, Convolve([B, C])])], when they are built, have the same
    list of convolutants, that of [Convolve([A, B, C])]; the same flags
    [separable] and [interpolated], the same knots, and the same evaluation
    at every wavelength. *)
Theorem convolution_is_associative (A B C AB BC D1 D2 : ChromaticObject)
  (g1 g2 g : GSParams) (s1 s1' s2 s2' s3 s3' s4 s4' : St) :
  ChromaticConvolution_init (OneList [A; B]) g1 s1 = (Ok AB, s1') ->
  ChromaticConvolution_init (OneList [AB; C]) g s2 = (Ok D1, s2') ->
  ChromaticConvolution_init (OneList [B; C]) g2 s3 = (Ok BC, s3') ->
  ChromaticConvolution_init (OneList [A; BC]) g s4 = (Ok D2, s4') ->
  exists a1 a2,
    D1 = ChromaticConvolution a1 (unfold_convolutions [A; B; C]) g
    /\ D2 = ChromaticConvolution a2 (unfold_convolutions [A; B; C]) g
    /\ separable a1 = separable a2
    /\ interpolated a1 = interpolated a2
    /\ wave_list a1 = wave_list a2
    /\ forall w, evaluateAtWavelength D1 w = evaluateAtWavelength D2 w.
Proof.
  intros HAB HD1 HBC HD2.
  assert (E1 : unfold_convolutions [AB; C] = unfold_convolutions [A; B; C]).
  { rewrite (unfold_convolutions_of_built _ _ _ _ _ [C] HAB [A; B] eq_refl).
    change [A; B; C] with ([A; B] ++ [C]). now rewrite unfold_convolutions_app. }
  assert (E2 : unfold_convolutions [A; BC] = unfold_convolutions [A; B; C]).
  { change [A; BC] with ([A] ++ [BC]). rewrite unfold_convolutions_app.
    rewrite (unfold_convolutions_of_built _ _ _ _ _ [] HBC [B; C] eq_refl).
    change (unfold_convolutions []) with (@nil ChromaticObject). rewrite app_nil_r.
    change [A; B; C] with ([A] ++ [B; C]). now rewrite unfold_convolutions_app. }
  apply ChromaticConvolution_init_shape in HD1, HD2.
  destruct HD1 as (l1 & a1 & Hu1 & -> & Hs1 & Hi1 & Hw1).
  destruct HD2 as (l2 & a2 & Hu2 & -> & Hs2 & Hi2 & Hw2).
  injection Hu1 as <-. injection Hu2 as <-.
  rewrite E1 in *. rewrite E2 in *.
  exists a1, a2. repeat split; try congruence.
Qed.

(** The statement at a leaf and two chromatic PSFs. *)
Lemma convolution_is_associative_witness :
  let A := leaf 1 (flat_sed 0) in
  let B := sample_psf in
  let C := ChromaticPSF (mkAttrs false false None (Some (WConst 1%Qc)) [qz 500]) Airy
             (fun w => GSScaled (GSProfile 8) w) in
  exists AB s1 D1 s2 BC s3 D2 s4,
    ChromaticConvolution_init (OneList [A; B]) None initial_state = (Ok AB, s1)
    /\ ChromaticConvolution_init (OneList [AB; C]) None s1 = (Ok D1, s2)
    /\ ChromaticConvolution_init (OneList [B; C]) None s2 = (Ok BC, s3)
    /\ ChromaticConvolution_init (OneList [A; BC]) None s3 = (Ok D2, s4)
    /\ exists a1 a2,
        D1 = ChromaticConvolution a1 (unfold_convolutions [A; B; C]) None
        /\ D2 = ChromaticConvolution a2 (unfold_convolutions [A; B; C]) None
        /\ separable a1 = separable a2
        /\ interpolated a1 = interpolated a2
        /\ wave_list a1 = wave_list a2
        /\ forall w, evaluateAtWavelength D1 w = evaluateAtWavelength D2 w.
Proof.
  cbv zeta.
  set (A := leaf 1 (flat_sed 0)).
  set (B := sample_psf).
  set (C := ChromaticPSF (mkAttrs false false None (Some (WConst 1%Qc)) [qz 500]) Airy
              (fun w => GSScaled (GSProfile 8) w)).
  let r1 := eval lazy in (ChromaticConvolution_init (OneList [A; B]) None initial_state) in
  lazymatch r1 with
  | (Ok ?AB, ?s1) =>
      let r2 := eval lazy in (ChromaticConvolution_init (OneList [AB; C]) None s1) in
      lazymatch r2 with
      | (Ok ?D1, ?s2) =>
          let r3 := eval lazy in (ChromaticConvolution_init (OneList [B; C]) None s2) in
          lazymatch r3 with
          | (Ok ?BC, ?s3) =>
              let r4 := eval lazy in (ChromaticConvolution_init (OneList [A; BC]) None s3) in
              lazymatch r4 with
              | (Ok ?D2, ?s4) => exists AB, s1, D1, s2, BC, s3, D2, s4
              end
          end
      end
  end.
  refine ((fun H1 H2 H3 H4 =>
             conj H1 (conj H2 (conj H3 (conj H4
               (convolution_is_associative A B C _ _ _ _ None None None _ _ _ _ _ _ _ _
                  H1 H2 H3 H4))))) _ _ _ _).
  all: lazy; reflexivity.
Defined.

Lemma accumulate_one_SED (l : list ChromaticObject) :
  Forall SED_xor_norm l ->
  forall sed norm st,
    ((match sed with Some _ => 1 | None => 0 end) + List.length (filter has_SED l) <= 1)%nat ->
    exists sed' norm' st',
      mfold (fun (acc : option galsim_SED * WFun Qc) obj =>
             let '(sed, norm) := acc in
             match SED (attrs obj) with
             | Some s =>
                 match sed with
                 | None => ret (Some s, norm)
                 | Some _ => raise (InvalidComposition TwoSEDsConvolved)
                 end
             | None =>
                 match _norm (attrs obj) with
                 | Some n => (norm' <- functionize2 Qcmult norm n;; ret (sed, norm'))
                 | None => raise NoneOperand
                 end
             end%monad) l (sed, norm) st
      = (Ok (sed', norm'), st')
      /\ (match sed' with Some _ => true | None => false end
          = (match sed with Some _ => true | None => false end) || existsb has_SED l).
Proof.
  induction 1 as [|obj l Hx Hl IH]; intros sed norm st Hc.
  - exists sed, norm, st. split; [reflexivity|]. cbn. now rewrite orb_false_r.
  - cbn [mfold]. unfold bind at 1.
    cbn [filter existsb] in *. unfold has_SED at 1 in Hc. unfold has_SED at 1.
    unfold SED_xor_norm, has_SED, has_norm in Hx.
    destruct (SED (attrs obj)) as [s|] eqn:Es.
    + destruct sed as [s0|]; [cbn in Hc; lia|].
      cbn [ret].
      destruct (IH (Some s) norm st) as (sed' & norm' & st' & Hr & Hb);
        [cbn [List.length] in Hc; lia|].
      exists sed', norm', st'. split; [exact Hr|]. rewrite Hb. reflexivity.
    + destruct (_norm (attrs obj)) as [n|] eqn:En; [|discriminate].
      unfold bind at 1.
      destruct (functionize2_ok Qcmult norm n st) as [v [st1 ->]].
      cbn [ret].
      destruct (IH sed v st1) as (sed' & norm' & st' & Hr & Hb); [exact Hc|].
      exists sed', norm', st'. split; [exact Hr|]. rewrite Hb. reflexivity.
Qed.

(** X9.  A convolution of objects that have exactly one of [SED] and [_norm]
    is built exactly when at most one of them has an SED; the convolution
    then has an SED exactly when one of them has, and a [_norm] otherwise. *)
Theorem convolution_is_built_iff (args : Args) (l : list ChromaticObject) (g : GSParams)
  (st : St) :
  unpack_args args = Ok l ->
  Forall SED_xor_norm l ->
  ((List.length (filter has_SED l) <= 1)%nat
   <-> exists o st', ChromaticConvolution_init args g st = (Ok o, st'))
  /\ (forall o st', ChromaticConvolution_init args g st = (Ok o, st') ->
                    has_SED o = existsb has_SED l /\ has_norm o = negb (existsb has_SED l)).
Proof.
  intros Hu Hx.
  destruct (le_lt_dec (List.length (filter has_SED l)) 1) as [Hle|Hgt].
  - destruct (accumulate_one_SED l Hx None (WConst 1%Qc) st) as (sed' & norm' & st1 & Hr & Hb);
      [cbn; lia|].
    assert (Hrun : exists o st',
               ChromaticConvolution_init args g st = (Ok o, st')
               /\ has_SED o = existsb has_SED l /\ has_norm o = negb (existsb has_SED l)).
    { unfold ChromaticConvolution_init. rewrite Hu.
      unfold bind at 1. unfold lift. cbv beta iota.
      unfold bind at 1. unfold accumulate_norms. rewrite Hr. cbv beta iota.
      cbn [orb] in Hb. rewrite <- Hb.
      destruct sed' as [s|].
      - unfold bind, sed_mul, fresh, ret. cbn. eauto.
      - unfold bind, ret. cbn. eauto. }
    destruct Hrun as (o & st' & Hrun & Hprops).
    split.
    + split; [eauto|intros _; exact Hle].
    + intros o' st'' H'. rewrite Hrun in H'. injection H' as <- <-. exact Hprops.
  - destruct (accumulate_two_SEDs l Hx None (WConst 1%Qc) st) as [st1 Hr]; [cbn; lia|].
    assert (Hrun : ChromaticConvolution_init args g st
                   = (Raise (InvalidComposition TwoSEDsConvolved), st1)).
    { unfold ChromaticConvolution_init. rewrite Hu.
      unfold bind at 1. unfold lift. cbv beta iota.
      unfold bind at 1. unfold accumulate_norms. rewrite Hr. reflexivity. }
    split.
    + split; [lia|]. intros (o & st' & H'). rewrite Hrun in H'. discriminate.
    + intros o st' H'. rewrite Hrun in H'. discriminate.
Qed.

(** The statement at a leaf and a chromatic PSF. *)
Lemma convolution_is_built_iff_witness :
  let l := [leaf 1 (flat_sed 0); sample_psf] in
  unpack_args (OneList l) = Ok l
  /\ Forall SED_xor_norm l
  /\ ((List.length (filter has_SED l) <= 1)%nat
      <-> exists o st', ChromaticConvolution_init (OneList l) None initial_state = (Ok o, st'))
  /\ (forall o st', ChromaticConvolution_init (OneList l) None initial_state = (Ok o, st') ->
                    has_SED o = existsb has_SED l /\ has_norm o = negb (existsb has_SED l)).
Proof.
  cbv zeta.
  refine ((fun H1 H2 =>
             conj H1 (conj H2
               (convolution_is_built_iff (OneList [leaf 1 (flat_sed 0); sample_psf])
                  [leaf 1 (flat_sed 0); sample_psf] None initial_state H1 H2))) _ _).
  - reflexivity.
  - repeat constructor.
Defined.


(** ** Sums that are built *)

(** *** Every unmixed sum is built *)

Lemma norm_dict_append_ok b c d :
  summand_ok b c -> separable (attrs c) = true ->
  Forall (entry_ok b) d -> Forall (entry_ok b) (norm_dict_append (norm_key b c) c d).
Proof.
  intros Hc Hs. induction 1 as [|[k v] d [Hne Hv] Hd IH]; cbn [norm_dict_append].
  - constructor; [|constructor]. split; [discriminate|].
    constructor; [|constructor]. cbn. auto using NormKey_eqb_refl.
  - destruct (NormKey_eqb (norm_key b c) k) eqn:Ek.
    + constructor; [|exact Hd]. split; cbn [fst snd] in *.
      * destruct v; discriminate.
      * apply Forall_app. split; [exact Hv|]. constructor; [|constructor]. auto.
    + constructor; [|exact IH]. split; assumption.
Qed.

Lemma sort_summands_ok b l :
  Forall (summand_ok b) l ->
  forall d acc, Forall (entry_ok b) d -> Forall (entry_ok b) (fst (sort_summands b l d acc)).
Proof.
  induction 1 as [|c l Hc Hl IH]; intros d acc Hd; cbn [sort_summands]; [exact Hd|].
  destruct (separable (attrs c)) eqn:Es; [|apply IH; exact Hd].
  apply IH. apply norm_dict_append_ok; assumption.
Qed.

Lemma sort_summands_head b l :
  forall k0 v0 d acc,
    exists v0' d', fst (sort_summands b l ((k0, v0) :: d) acc) = (k0, v0') :: d'.
Proof.
  induction l as [|c l IH]; intros k0 v0 d acc; cbn [sort_summands]; [cbn; eauto|].
  destruct (separable (attrs c)); [|apply IH].
  cbn [norm_dict_append]. destruct (NormKey_eqb (norm_key b c) k0); apply IH.
Qed.

Lemma sort_summands_nonempty b c l d acc :
  fst (sort_summands b (c :: l) d acc) <> [] \/ snd (sort_summands b (c :: l) d acc) <> [].
Proof.
  cbn [sort_summands]. destruct (separable (attrs c)).
  - left. pose proof (sort_summands_length b l (norm_dict_append (norm_key b c) c d) acc) as H.
    pose proof (norm_dict_append_nonempty (norm_key b c) c d) as H0.
    destruct (norm_dict_append (norm_key b c) c d); [congruence|].
    intro E. rewrite E in H. cbn in H. lia.
  - right. destruct (sort_summands b l d (acc ++ [c])) as [d' acc'] eqn:E.
    apply sort_summands_spec in E. subst. cbn. destruct acc; discriminate.
Qed.

Lemma summands_unmixed (l : list ChromaticObject) :
  Forall SED_xor_norm l ->
  existsb has_SED l && existsb has_norm l = false ->
  Forall (summand_ok (existsb has_SED l)) l.
Proof.
  intros Hx Hmix. rewrite Forall_forall in *. intros c Hin. split; [auto|].
  destruct (existsb has_SED l) eqn:Es.
  - cbn in Hmix. pose proof (existsb_false_all _ _ c Hmix Hin) as Hn.
    specialize (Hx c Hin). unfold SED_xor_norm in Hx. rewrite Hn in Hx.
    destruct (has_SED c); [reflexivity|discriminate].
  - exact (existsb_false_all _ _ c Es Hin).
Qed.

Lemma existsb_all_true {A} (f : A -> bool) (b : bool) l :
  l <> [] -> Forall (fun x => f x = b) l -> existsb f l = b.
Proof.
  intros Hne H. destruct l as [|x l]; [congruence|]. clear Hne.
  destruct b.
  - inversion H; subst. cbn. now rewrite H2.
  - induction H as [|y l' Hy Hl IH]; [reflexivity|]. cbn. now rewrite Hy.
Qed.

Lemma the_one_key b c k :
  summand_ok b c -> NormKey_eqb (norm_key b c) k = true ->
  if b then exists s, k = KSED s else exists x, k = KNorm x.
Proof.
  intros [Hx Hb] Hk. unfold SED_xor_norm in Hx. rewrite Hb in Hx.
  unfold norm_key, has_SED, has_norm in *. destruct b.
  - destruct (SED (attrs c)); [|discriminate].
    destruct k; try discriminate. eauto.
  - destruct (_norm (attrs c)) as [x|]; [|discriminate].
    destruct k as [| |y]; try (destruct x; discriminate). eauto.
Qed.

(** The separable branch of the constructor, which makes no further call. *)
Lemma separable_sum_attrs (b : bool) (k : NormKey) (v : list ChromaticObject) (st : St) :
  (if b then exists s, k = KSED s else exists x, k = KNorm x) ->
  exists sed norm st',
    (let n := qz (Z.of_nat (List.length v)) in
     if b
     then match k with
          | KSED s => (sed <- sed_mul s (WConst n);; ret (v, Some sed, None))
          | _ => raise NoneOperand
          end
     else match k with
          | KNorm (WCall _ f) =>
              (norm <- lambda (fun w => (try x <- f w; Ok (x * n)%Qc)%result);;
               ret (v, None, Some norm))
          | KNorm (WConst x) => ret (v, None, Some (WConst (x * n)%Qc))
          | _ => raise NoneOperand
          end)%monad st = (Ok (v, sed, norm), st')
    /\ (match sed with Some _ => true | None => false end) = b
    /\ (match norm with Some _ => true | None => false end) = negb b.
Proof.
  destruct b; intros [x ->]; cbv zeta.
  - unfold bind, sed_mul, fresh, ret. cbn. eauto 10.
  - destruct x as [x|i f].
    + unfold ret. eauto 10.
    + unfold bind, lambda, fresh, ret. cbn. eauto 10.
Qed.

Lemma mmap_ok {A B} (f : A -> M B) (P : A -> Prop) (Q : B -> Prop) :
  (forall x st, P x -> exists y st', f x st = (Ok y, st') /\ Q y) ->
  forall l st, Forall P l ->
    exists ys st', mmap f l st = (Ok ys, st') /\ Forall Q ys.
Proof.
  intros Hf. induction l as [|x l IH]; intros st Hl.
  - exists [], st. split; [reflexivity|constructor].
  - inversion Hl as [|? ? Hx Hl']; subst.
    destruct (Hf x st Hx) as (y & st1 & Hy & Qy).
    destruct (IH st1 Hl') as (ys & st2 & Hys & Qys).
    exists (y :: ys), st2. split; [|constructor; assumption].
    cbn [mmap]. unfold bind. rewrite Hy, Hys. reflexivity.
Qed.

Lemma sum_of_SEDs_ok objlist st :
  objlist <> [] -> Forall (fun c => has_SED c = true) objlist ->
  exists s st', sum_of_SEDs objlist st = (Ok (Some s), st').
Proof.
  intros Hne H. destruct objlist as [|first rest]; [congruence|]. clear Hne.
  inversion H as [|? ? Hf Hr]; subst. unfold sum_of_SEDs.
  unfold has_SED in Hf. destruct (SED (attrs first)) as [s0|]; [|discriminate]. clear Hf H.
  revert s0 st. induction Hr as [|c rest Hc Hr IH]; intros s0 st.
  - exists s0, st. reflexivity.
  - cbn [mfold]. unfold has_SED in Hc. destruct (SED (attrs c)) as [s2|]; [|discriminate].
    unfold bind at 1. unfold bind at 1. unfold sed_add at 1. unfold bind at 1.
    unfold fresh, ret. cbv beta iota. apply IH.
Qed.

Lemma sum_of_norms_ok objlist st :
  Forall (fun c => has_norm c = true) objlist ->
  exists n st', sum_of_norms objlist st = (Ok n, st').
Proof.
  intro H. unfold sum_of_norms.
  destruct (existsb _ objlist) eqn:Ecall.
  - unfold lambda, bind, fresh, ret. cbn. eauto.
  - assert (G : exists norms,
               rmap (fun obj => match _norm (attrs obj) with
                                | Some (WConst x) => Ok x
                                | _ => Raise NoneOperand
                                end) objlist = Ok norms).
    { induction H as [|c l Hc Hl IH]; [exists []; reflexivity|].
      cbn [existsb] in Ecall. apply orb_false_elim in Ecall. destruct Ecall as [Ec El].
      destruct (IH El) as [norms Hn]. cbn [rmap]. unfold has_norm in Hc.
      destruct (_norm (attrs c)) as [[x|i f]|]; try discriminate.
      cbn [rbind]. rewrite Hn. cbn. eauto. }
    destruct G as [norms ->]. unfold bind, lift, ret. eauto.
Qed.

(** A group of separable summands with one key is summed without a further
    nested sum. *)
Lemma group_sum_ok b k v g st :
  entry_ok b (k, v) ->
  exists o st', ChromaticSum_init_fuel 1 (OneList v) g st = (Ok o, st') /\ summand_ok b o.
Proof.
  intros [Hne Hv]. cbn [fst snd] in *.
  assert (Hsed : existsb has_SED v = b).
  { apply existsb_all_true; [exact Hne|]. eapply Forall_impl; [|exact Hv].
    intros c [[_ Hc] _]. exact Hc. }
  assert (Hnorm : existsb has_norm v = negb b).
  { apply existsb_all_true; [exact Hne|]. eapply Forall_impl; [|exact Hv].
    intros c [[Hx Hc] _]. unfold SED_xor_norm in Hx. rewrite Hc in Hx.
    destruct b, (has_norm c); try discriminate; reflexivity. }
  destruct v as [|c0 v']; [congruence|].
  apply Forall_cons_iff in Hv. destruct Hv as [[Hc0 [Hs0 Hk0]] Hv'].
  cbn [ChromaticSum_init_fuel unpack_args]. unfold bind at 1. unfold lift. cbv beta iota zeta.
  change (existsb (fun a => match SED (attrs a) with Some _ => true | None => false end)
            (c0 :: v')) with (existsb has_SED (c0 :: v')).
  change (existsb (fun a => match _norm (attrs a) with Some _ => true | None => false end)
            (c0 :: v')) with (existsb has_norm (c0 :: v')).
  rewrite Hsed, Hnorm.
  replace (b && negb b) with false by (destruct b; reflexivity).
  cbn [sort_summands]. rewrite Hs0. cbn [norm_dict_append].
  destruct (sort_summands b v' [(norm_key b c0, [c0])] []) as [nd ol] eqn:Esort.
  assert (Hol : ol = []).
  { apply sort_summands_spec in Esort. subst. cbn [app]. apply filter_nil_all.
    eapply Forall_impl; [|exact Hv']. intros c [_ [Hs _]]. cbn. now rewrite Hs. }
  assert (Hlen : List.length nd = 1%nat).
  { change nd with (fst (nd, ol)). rewrite <- Esort. apply sort_summands_one_key.
    intros c Hin _. rewrite Forall_forall in Hv'. destruct (Hv' c Hin) as [_ [_ Hk]].
    eapply NormKey_eqb_trans; [exact Hk|]. apply NormKey_eqb_sym. exact Hk0. }
  destruct (sort_summands_head b v' (norm_key b c0) [c0] [] []) as (v0' & d' & Hhead).
  rewrite Esort in Hhead. cbn [fst] in Hhead. subst nd ol.
  destruct d'; [|discriminate Hlen]. cbn [List.length Nat.eqb andb].
  destruct (separable_sum_attrs b (norm_key b c0) v0' st) as (sed & norm & st' & Hrun & Hs & Hn).
  { eapply the_one_key; [exact Hc0|apply NormKey_eqb_refl]. }
  cbv zeta in Hrun. unfold bind at 1. rewrite Hrun. cbv beta iota.
  unfold ret. eexists. eexists. split; [reflexivity|].
  unfold summand_ok, SED_xor_norm, has_SED, has_norm. cbn [attrs SED _norm].
  rewrite Hs, Hn. split; [destruct b; reflexivity|reflexivity].
Qed.

Lemma filter_Forall {A} (P : A -> Prop) f (l : list A) :
  Forall P l -> Forall P (filter f l).
Proof.
  induction 1 as [|x l Hx Hl IH]; cbn; [constructor|].
  destruct (f x); [constructor; assumption|assumption].
Qed.

(** X10.  A sum of objects that have exactly one of [SED] and [_norm] is
    built exactly when the summands do not mix the two: the partial sums of
    the summands that share a normalisation need one nested call only.  The
    sum has an SED exactly when a summand has one, and exactly one of [SED]
    and [_norm]. *)
Theorem sum_is_built_iff (args : Args) (l : list ChromaticObject) (g : GSParams) (st : St) :
  unpack_args args = Ok l ->
  Forall SED_xor_norm l ->
  (existsb has_SED l && existsb has_norm l = false
   <-> exists o st', ChromaticSum_init args g st = (Ok o, st'))
  /\ (forall o st', ChromaticSum_init args g st = (Ok o, st') ->
                    has_SED o = existsb has_SED l /\ SED_xor_norm o).
Proof.
  intros Hu Hx.
  destruct (existsb has_SED l && existsb has_norm l) eqn:Hmix.
  - assert (Hrun : ChromaticSum_init args g st = (Raise (InvalidComposition MixedSum), st)).
    { unfold ChromaticSum_init. cbn [ChromaticSum_init_fuel]. rewrite Hu.
      unfold bind at 1. unfold lift. cbv beta iota zeta.
      change (existsb (fun a => match SED (attrs a) with Some _ => true | None => false end) l)
        with (existsb has_SED l).
      change (existsb (fun a => match _norm (attrs a) with Some _ => true | None => false end) l)
        with (existsb has_norm l).
      rewrite Hmix. reflexivity. }
    split.
    + split; [discriminate|]. intros (o & st' & H). rewrite Hrun in H. discriminate.
    + intros o st' H. rewrite Hrun in H. discriminate.
  - pose proof (summands_unmixed l Hx Hmix) as Hall.
    set (b := existsb has_SED l) in *.
    assert (Hrun : exists o st',
               ChromaticSum_init args g st = (Ok o, st') /\ summand_ok b o).
    { unfold ChromaticSum_init.
      remember 1%nat as fuel1 eqn:Efuel.
      cbn [ChromaticSum_init_fuel]. rewrite Hu.
      unfold bind at 1. unfold lift. cbv beta iota zeta.
      change (existsb (fun a => match SED (attrs a) with Some _ => true | None => false end) l)
        with b.
      change (existsb (fun a => match _norm (attrs a) with Some _ => true | None => false end) l)
        with (existsb has_norm l).
      rewrite Hmix.
      destruct (sort_summands b l [] []) as [nd ol] eqn:Esort.
      assert (Hnd : Forall (entry_ok b) nd).
      { change nd with (fst (nd, ol)). rewrite <- Esort.
        apply sort_summands_ok; [exact Hall|constructor]. }
      assert (Hol : Forall (summand_ok b) ol).
      { apply sort_summands_spec in Esort. subst ol. cbn [app].
        apply filter_Forall. exact Hall. }
      destruct (Nat.eqb (List.length ol) 0 && Nat.eqb (List.length nd) 1) eqn:Esep.
      - destruct nd as [|[k v] nd']; [apply andb_prop in Esep; destruct Esep; discriminate|].
        apply Forall_cons_iff in Hnd. destruct Hnd as [[Hne Hv] _]. cbn [fst snd] in *.
        destruct v as [|c0 v']; [congruence|].
        apply Forall_cons_iff in Hv. destruct Hv as [[Hc0 [_ Hk0]] _].
        destruct (separable_sum_attrs b k (c0 :: v') st) as (sed & norm & st' & Hr & Hs & Hn).
        { eapply the_one_key; eassumption. }
        cbv zeta in Hr. unfold bind at 1. rewrite Hr. cbv beta iota.
        unfold ret. eexists. eexists. split; [reflexivity|].
        unfold summand_ok, SED_xor_norm, has_SED, has_norm. cbn [attrs SED _norm].
        rewrite Hs, Hn. split; [destruct b; reflexivity|reflexivity].
      - destruct (mmap_ok
                    (fun kv : NormKey * list ChromaticObject =>
                       match snd kv with
                       | [v0] => ret v0
                       | v => ChromaticSum_init_fuel fuel1 (OneList v) None
                       end)
                    (entry_ok b) (summand_ok b)) with (l := nd) (st := st)
          as (partial & st1 & Hpartial & Hp).
        { intros [k v] st0 Hkv. cbn [snd].
          destruct v as [|v0 [|v1 v']].
          - destruct Hkv as [Hne _]. cbn in Hne. congruence.
          - exists v0, st0. split; [reflexivity|].
            destruct Hkv as [_ Hv]. cbn [snd] in Hv.
            apply Forall_cons_iff in Hv. tauto.
          - subst fuel1. eapply group_sum_ok. exact Hkv. }
        { exact Hnd. }
        unfold bind at 1. unfold bind at 1. rewrite Hpartial. cbv beta iota.
        assert (Hobjs : Forall (summand_ok b) (ol ++ partial)).
        { apply Forall_app. split; assumption. }
        destruct b eqn:Eb.
        + assert (Hne : ol ++ partial <> []).
          { destruct l as [|c l'].
            - subst b. discriminate Eb.
            - pose proof (sort_summands_nonempty true c l' [] []) as Hor.
              rewrite Esort in Hor. cbn [fst snd] in Hor.
              apply mmap_length in Hpartial.
              destruct Hor as [Hor|Hor].
              + destruct nd; [congruence|]. destruct partial; [discriminate|].
                destruct ol; discriminate.
              + destruct ol; [congruence|discriminate]. }
          destruct (sum_of_SEDs_ok (ol ++ partial) st1 Hne) as (s & st2 & Hsum).
          { eapply Forall_impl; [|exact Hobjs]. intros c [_ Hc]. exact Hc. }
          unfold bind at 1. rewrite Hsum. cbv beta iota.
          unfold ret. eexists. eexists. split; [reflexivity|].
          split; reflexivity.
        + destruct (sum_of_norms_ok (ol ++ partial) st1) as (n & st2 & Hsum).
          { eapply Forall_impl; [|exact Hobjs]. intros c [Hxc Hc].
            unfold SED_xor_norm in Hxc. rewrite Hc in Hxc. exact Hxc. }
          unfold bind at 1. rewrite Hsum. cbv beta iota.
          unfold ret. eexists. eexists. split; [reflexivity|].
          split; reflexivity. }
    destruct Hrun as (o & st' & Hrun & Hx' & Hb).
    split.
    + split; [eauto|reflexivity].
    + intros o' st'' H. rewrite Hrun in H. injection H as <- <-. auto.
Qed.

(** The statement at three leaves, two of them with the same spectrum. *)
Lemma sum_is_built_iff_witness :
  let l := [leaf 1 (flat_sed 0); leaf 2 (flat_sed 1); leaf 3 (flat_sed 0)] in
  unpack_args (OneList l) = Ok l
  /\ Forall SED_xor_norm l
  /\ (existsb has_SED l && existsb has_norm l = false
      <-> exists o st', ChromaticSum_init (OneList l) None initial_state = (Ok o, st'))
  /\ (forall o st', ChromaticSum_init (OneList l) None initial_state = (Ok o, st') ->
                    has_SED o = existsb has_SED l /\ SED_xor_norm o).
Proof.
  cbv zeta.
  refine ((fun H1 H2 =>
             conj H1 (conj H2
               (sum_is_built_iff
                  (OneList [leaf 1 (flat_sed 0); leaf 2 (flat_sed 1); leaf 3 (flat_sed 0)])
                  [leaf 1 (flat_sed 0); leaf 2 (flat_sed 1); leaf 3 (flat_sed 0)]
                  None initial_state H1 H2))) _ _).
  - reflexivity.
  - repeat constructor.
Defined.

Lemma Sum_drawImage_summands draw a sed objlist bandpass image integrator kwargs :
  SED a = Some sed ->
  Sum_drawImage draw a objlist bandpass image integrator kwargs
  = draw_summands draw bandpass objlist image kwargs.
Proof.
  intro Hsed. unfold Sum_drawImage, draw_summands. rewrite Hsed.
  destruct objlist as [|first rest]; reflexivity.
Qed.

(** X18.  [ChromaticSum.drawImage] never looks at its argument [integrator]:
    whatever is passed, the drawing is the one with the default,
    ["trapezoidal"].  And an image it returns is the image of the summands
    drawn one after the other by [drawImage] itself with that default: the
    first as the caller asks, every later one added onto the image so
    far. *)
Theorem sum_is_drawn_summand_by_summand (ext : External) (a : Attrs)
  (objlist : list ChromaticObject) (g : GSParams) (bandpass : Bandpass)
  (image : option Image) (integrator : Integrator) (kwargs : Kwargs) :
  drawImage ext (ChromaticSum a objlist g) bandpass image integrator kwargs
  = drawImage ext (ChromaticSum a objlist g) bandpass image default_integrator kwargs
  /\ (forall st im st',
        drawImage ext (ChromaticSum a objlist g) bandpass image integrator kwargs st
        = (Ok im, st') ->
        draw_summands (drawImage ext) bandpass objlist image kwargs st = (Ok im, st')).
Proof.
  split.
  - rewrite !drawImage_unfold. reflexivity.
  - intros st im st' H. rewrite drawImage_is_fuel in *. rewrite drawImage_fuel_S in H.
    destruct (SED a) as [sed|] eqn:Hsed.
    + rewrite <- (Sum_drawImage_summands _ a sed _ _ _ integrator _ Hsed).
      revert H. apply Sum_drawImage_le, drawImage_fuel_le.
    + unfold Sum_drawImage in H. rewrite Hsed in H. discriminate H.
Qed.

(** The statement at a sum of two leaves, drawn with an integrator of no known type. *)
Lemma sum_is_drawn_summand_by_summand_witness :
  let summands := [leaf 1 (flat_sed 0); leaf 2 (flat_sed 1)] in
  let self := ChromaticSum (mkAttrs false false (Some (flat_sed 2)) None []) summands None in
  let band := sample_bandpass (fun _ => 1%Qc) [qz 500; qz 600] in
  exists im st',
    drawImage sample_ext self band None (IOther 0) no_kwargs initial_state = (Ok im, st')
    /\ draw_summands (drawImage sample_ext) band summands None no_kwargs initial_state
       = (Ok im, st').
Proof.
  cbv zeta.
  let r := eval lazy in
             (drawImage sample_ext
                (ChromaticSum (mkAttrs false false (Some (flat_sed 2)) None [])
                   [leaf 1 (flat_sed 0); leaf 2 (flat_sed 1)] None)
                (sample_bandpass (fun _ => 1%Qc) [qz 500; qz 600]) None (IOther 0)
                no_kwargs initial_state) in
  lazymatch r with (Ok ?im, ?st') => exists im, st' end.
  refine ((fun H1 =>
             conj H1
               (proj2 (sum_is_drawn_summand_by_summand sample_ext
                         (mkAttrs false false (Some (flat_sed 2)) None [])
                         [leaf 1 (flat_sed 0); leaf 2 (flat_sed 1)] None
                         (sample_bandpass (fun _ => 1%Qc) [qz 500; qz 600]) None (IOther 0)
                         no_kwargs) initial_state _ _ H1)) _).
  lazy; reflexivity.
Defined.



(** ** Transformations and changes of size *)

(** *** Transformations with constant parameters *)

Lemma Transformation_of_plain d obj jac offset x g st :
  is_ChromaticTransformation obj = false -> SED_xor_norm obj ->
  exists a st',
    ChromaticTransformation_init_with d obj (WConst jac) (WConst offset)
      (FRValue (WConst x)) g st
    = (Ok (ChromaticTransformation a false obj (WConst jac) (WConst offset)
             (FRValue (WConst x))
             (match g with None => gsparams_of obj | Some _ => g end)), st')
    /\ separable a = separable (attrs obj)
    /\ interpolated a = interpolated (attrs obj)
    /\ has_SED (ChromaticTransformation a false obj (WConst jac) (WConst offset)
                  (FRValue (WConst x)) g) = has_SED obj
    /\ has_norm (ChromaticTransformation a false obj (WConst jac) (WConst offset)
                   (FRValue (WConst x)) g) = has_norm obj.
Proof.
  intros Hcls Hx. unfold ChromaticTransformation_init_with.
  cbn [is_callable fr_as_wfun orb negb]. rewrite !andb_false_r, andb_true_r.
  unfold SED_xor_norm, has_SED, has_norm in *. cbn [attrs].
  destruct (SED (attrs obj)) as [s|] eqn:Es.
  - unfold bind at 1. unfold bind at 1. unfold sed_mul, bind, fresh, ret. cbv beta iota.
    destruct obj; try discriminate Hcls; cbv beta iota;
      (eexists; eexists; split; [reflexivity|]; cbn; rewrite ?Es; auto).
    all: destruct (_norm _); [discriminate Hx|auto].
  - destruct (_norm (attrs obj)) as [n|] eqn:En; [|discriminate Hx].
    unfold bind at 1. unfold bind at 1.
    destruct (functionize2_ok Qcmult n (WConst x) st) as (v & st1 & ->). cbv beta iota.
    unfold bind, ret.
    destruct obj; try discriminate Hcls; cbv beta iota;
      (eexists; eexists; split; [reflexivity|]; cbn; rewrite ?Es; auto).
Qed.

Lemma constant_Transformation_inv d obj jac offset x g st T st' :
  ChromaticTransformation_init_with d obj (WConst jac) (WConst offset)
    (FRValue (WConst x)) g st = (Ok T, st') ->
  exists a,
    separable a = separable (attrs obj)
    /\ interpolated a = interpolated (attrs obj)
    /\ match obj with
       | ChromaticTransformation _ _ original1 (WConst jac1) (WConst off1)
           (FRValue (WConst x1)) _ =>
           T = ChromaticTransformation a false original1
                 (WConst (jac_dot jac jac1))
                 (WConst (offset_add (jac_apply jac off1) offset))
                 (FRValue (WConst (x1 * x)%Qc))
                 (match g with None => gsparams_of original1 | Some _ => g end)
       | ChromaticTransformation _ _ _ _ _ _ _ => True
       | _ =>
           T = ChromaticTransformation a false obj (WConst jac) (WConst offset)
                 (FRValue (WConst x))
                 (match g with None => gsparams_of obj | Some _ => g end)
       end.
Proof.
  unfold ChromaticTransformation_init_with.
  cbn [is_callable fr_as_wfun orb negb]. rewrite !andb_false_r, andb_true_r.
  intro H. apply bind_Ok_inv in H. destruct H as ([sed norm] & st1 & _ & H).
  apply bind_Ok_inv in H. destruct H as (obj' & st2 & Hobj & H).
  apply ret_Ok_inv in Hobj. destruct Hobj as [-> ->].
  apply bind_Ok_inv in H. destruct H as ([[[original _jac] _offset] _flux_ratio] & st3 & Hm & H).
  apply ret_Ok_inv in H. destruct H as [-> ->].
  exists (mkAttrs (separable (attrs obj)) (interpolated (attrs obj)) sed norm
            (match sed with
             | Some s => combine_wave_list [wave_list (attrs original); sed_wave_list s]
             | None => wave_list (attrs original)
             end)).
  split; [|split].
  3: { destruct obj as [| | | | |a0 c0 orig0 jac0 off0 fr0 g0| | | | | |];
         try (apply ret_Ok_inv in Hm; destruct Hm as [Hm _]; injection Hm as <- <- <- <-;
              reflexivity).
       destruct jac0 as [jac1|]; [|exact I].
       destruct off0 as [off1|]; [|exact I].
       destruct fr0 as [[x1|]|]; try exact I.
       cbn in Hm. injection Hm as <- <- <- <- _. reflexivity. }
  all: try reflexivity.
Qed.

(** X11.  Two transformations with constant parameters compose into one: a
    transformation (jac2, off2, x2) of a transformation (jac1, off1, x1) of
    an object [X] that is not itself a transformation is stored as a single
    transformation of [X], with Jacobian [jac2 . jac1], offset
    [jac2 . off1 + off2] and flux ratio [x1 * x2]; it keeps the flags of
    [X], and takes the [gsparams] of [X] unless the outer call gives some:
    those given to the inner transformation are not kept.  It evaluates to
    one [galsim.Transformation] of the evaluation of [X]. *)
Theorem constant_transformations_compose (ext : External) (X T1 T2 : ChromaticObject)
  (jac1 jac2 : Jac) (off1 off2 : Offset) (x1 x2 : Qc) (g1 g2 : GSParams)
  (st1 st1' st2 st2' : St) :
  is_ChromaticTransformation X = false ->
  ChromaticTransformation_init ext X (WConst jac1) (WConst off1) (FRValue (WConst x1)) g1 st1
  = (Ok T1, st1') ->
  ChromaticTransformation_init ext T1 (WConst jac2) (WConst off2) (FRValue (WConst x2)) g2 st2
  = (Ok T2, st2') ->
  let jac := jac_dot jac2 jac1 in
  let offset := offset_add (jac_apply jac2 off1) off2 in
  let gsparams := match g2 with None => gsparams_of X | Some _ => g2 end in
  exists a,
    T2 = ChromaticTransformation a false X (WConst jac) (WConst offset)
           (FRValue (WConst (x1 * x2)%Qc)) gsparams
    /\ separable a = separable (attrs X)
    /\ interpolated a = interpolated (attrs X)
    /\ forall w,
        evaluateAtWavelength T2 w
        = (try p <- evaluateAtWavelength X w;
           Ok (GSTransformation p jac offset (x1 * x2)%Qc gsparams))%result.
Proof.
  unfold ChromaticTransformation_init. generalize (deinterpolated ext) as d.
  intros d HX H1 H2.
  apply constant_Transformation_inv in H1. destruct H1 as (a1 & Hs1 & Hi1 & HT1).
  assert (E1 : T1 = ChromaticTransformation a1 false X (WConst jac1) (WConst off1)
                      (FRValue (WConst x1))
                      (match g1 with None => gsparams_of X | Some _ => g1 end)).
  { destruct X; try exact HT1. discriminate HX. }
  subst T1. apply constant_Transformation_inv in H2. destruct H2 as (a2 & Hs2 & Hi2 & HT2).
  cbn [attrs] in Hs2, Hi2. exists a2.
  split; [exact HT2|]. split; [congruence|]. split; [congruence|].
  intro w. rewrite HT2. cbn [evaluateAtWavelength _getTransformations at_wave flux_ratio_at rbind].
  destruct (evaluateAtWavelength X w); reflexivity.
Qed.

(** The statement at a leaf, an expansion and a shifted exchange of the axes. *)
Lemma constant_transformations_compose_witness :
  let X := leaf 1 (flat_sed 0) in
  let jac1 := diag2 (qz 2) in
  let off1 := (qz 1, qz 0) in
  let jac2 := ((qz 0, qz 1), qz 1, qz 0) in
  let off2 := (qz 0, qz 3) in
  exists T1 s1 T2 s2,
    is_ChromaticTransformation X = false
    /\ ChromaticTransformation_init sample_ext X (WConst jac1) (WConst off1)
         (FRValue (WConst (qz 2))) None initial_state = (Ok T1, s1)
    /\ ChromaticTransformation_init sample_ext T1 (WConst jac2) (WConst off2)
         (FRValue (WConst (qz 5))) None s1 = (Ok T2, s2)
    /\ exists a,
        T2 = ChromaticTransformation a false X (WConst (jac_dot jac2 jac1))
               (WConst (offset_add (jac_apply jac2 off1) off2))
               (FRValue (WConst (qz 2 * qz 5)%Qc)) (gsparams_of X)
        /\ separable a = separable (attrs X)
        /\ interpolated a = interpolated (attrs X)
        /\ forall w,
            evaluateAtWavelength T2 w
            = (try p <- evaluateAtWavelength X w;
               Ok (GSTransformation p (jac_dot jac2 jac1)
                     (offset_add (jac_apply jac2 off1) off2) (qz 2 * qz 5)%Qc
                     (gsparams_of X)))%result.
Proof.
  cbv zeta.
  let r1 := eval lazy in
              (ChromaticTransformation_init sample_ext (leaf 1 (flat_sed 0))
                 (WConst (diag2 (qz 2))) (WConst (qz 1, qz 0)) (FRValue (WConst (qz 2)))
                 None initial_state) in
  lazymatch r1 with
  | (Ok ?T1, ?s1) =>
      let r2 := eval lazy in
                  (ChromaticTransformation_init sample_ext T1
                     (WConst ((qz 0, qz 1), qz 1, qz 0)) (WConst (qz 0, qz 3))
                     (FRValue (WConst (qz 5))) None s1) in
      lazymatch r2 with
      | (Ok ?T2, ?s2) => exists T1, s1, T2, s2
      end
  end.
  refine ((fun H1 H2 H3 =>
             conj H1 (conj H2 (conj H3
               (constant_transformations_compose sample_ext (leaf 1 (flat_sed 0)) _ _
                  (diag2 (qz 2)) ((qz 0, qz 1), qz 1, qz 0) (qz 1, qz 0) (qz 0, qz 3)
                  (qz 2) (qz 5) None None _ _ _ _ H1 H2 H3)))) _ _ _).
  all: lazy; reflexivity.
Defined.

Lemma functionize3_ok {A B C D} (f : A -> B -> C -> D) x y z st :
  exists v st', functionize3 f x y z st = (Ok v, st').
Proof.
  unfold functionize3, bind, fresh, ret. destruct x, y, z; cbn; eauto.
Qed.

Lemma constant_Transformation_ok d obj jac offset x g st :
  SED_xor_norm obj ->
  exists T st',
    ChromaticTransformation_init_with d obj (WConst jac) (WConst offset)
      (FRValue (WConst x)) g st = (Ok T, st')
    /\ has_SED T = has_SED obj /\ has_norm T = has_norm obj.
Proof.
  intros Hx. unfold ChromaticTransformation_init_with.
  cbn [is_callable fr_as_wfun orb negb]. rewrite !andb_false_r, andb_true_r.
  unfold SED_xor_norm, has_SED, has_norm in *.
  assert (Hattrs : exists sed norm st1,
             (match SED (attrs obj) with
              | Some s => (sed' <- sed_mul s (WConst x);; ret (Some sed', None))
              | None =>
                  match _norm (attrs obj) with
                  | Some n => (n' <- functionize2 Qcmult n (WConst x);; ret (None, Some n'))
                  | None => raise NoneOperand
                  end
              end)%monad st = (Ok (sed, norm), st1)
             /\ match sed with Some _ => true | None => false end
                = match SED (attrs obj) with Some _ => true | None => false end
             /\ match norm with Some _ => true | None => false end
                = match _norm (attrs obj) with Some _ => true | None => false end).
  { destruct (SED (attrs obj)) as [s|].
    - destruct (_norm (attrs obj)); [discriminate Hx|].
      unfold bind, sed_mul, fresh, ret. cbn. eauto 10.
    - destruct (_norm (attrs obj)) as [n|]; [|discriminate Hx].
      unfold bind at 1.
      destruct (functionize2_ok Qcmult n (WConst x) st) as (v & st1 & ->).
      unfold ret. eauto 10. }
  destruct Hattrs as (sed & norm & st1 & Hrun & Hs & Hn).
  unfold bind at 1. rewrite Hrun. cbv beta iota.
  unfold bind at 1. unfold ret at 1. cbv beta iota.
  destruct obj as [| | | | |a0 c0 orig0 jac0 off0 fr0 g0| | | | | |];
    try (unfold bind, ret; cbv beta iota; eexists; eexists;
         split; [reflexivity|]; cbn [attrs SED _norm]; auto).
  unfold bind at 1. unfold bind at 1.
  destruct (functionize2_ok (fun j1 j2 => jac_dot j2 j1) jac0 (WConst jac) st1)
    as (vj & st2 & ->).
  cbv beta iota. unfold bind at 1.
  destruct (functionize3_ok (fun j2 o1 o2 => offset_add (jac_apply j2 o1) o2)
              (WConst jac) off0 (WConst offset) st2) as (vo & st3 & ->).
  cbv beta iota. unfold bind at 1.
  destruct (functionize2_ok Qcmult (fr_as_wfun fr0) (WConst x) st3) as (vf & st4 & ->).
  cbv beta iota. unfold ret. eexists. eexists.
  split; [reflexivity|]. cbn [attrs SED _norm]. auto.
Qed.

Lemma withScaledFlux_Transformation ext a c original jac offset fr g flux_ratio :
  withScaledFlux ext (ChromaticTransformation a c original jac offset fr g) flux_ratio
  = ChromaticTransformation_init_with (deinterpolated ext)
      (ChromaticTransformation a c original jac offset fr g)
      (WConst identity2) (WConst origin) flux_ratio None.
Proof. reflexivity. Qed.

Lemma jac_dot_identity_l j : jac_dot identity2 j = j.
Proof.
  destruct j as [[[e f] g] h]. unfold jac_dot, identity2.
  repeat f_equal; ring.
Qed.

Lemma offset_at_origin : offset_add (jac_apply identity2 origin) origin = origin.
Proof.
  unfold offset_add, jac_apply, identity2, origin. cbn [fst snd]. f_equal; ring.
Qed.

(** X12.  [dilate] by a constant [s], of an object that is not a
    transformation and has exactly one of [SED] and [_norm], whatever the
    arithmetic of [1./scale**2] does at [s]: when it raises, [dilate] raises
    that error, after the expansion has been built; when it returns [r], the
    result is a single transformation of the object, with Jacobian
    [diag(s, s)], no offset and flux ratio [r], the flags of the object, and
    an SED exactly when the object has one. *)
Theorem dilate_by_a_constant (ext : External) (inverse_square : Qc -> Result Qc)
  (self : ChromaticObject) (s : Qc) (st : St) :
  is_ChromaticTransformation self = false ->
  SED_xor_norm self ->
  (forall e, inverse_square s = Raise e ->
     exists st', dilate ext inverse_square self (WConst s) st = (Raise e, st'))
  /\ (forall r, inverse_square s = Ok r ->
      exists a st',
        dilate ext inverse_square self (WConst s) st
        = (Ok (ChromaticTransformation a false self (WConst (diag2 s)) (WConst origin)
                 (FRValue (WConst r)) (gsparams_of self)), st')
        /\ separable a = separable (attrs self)
        /\ interpolated a = interpolated (attrs self)
        /\ has_SED (ChromaticTransformation a false self (WConst (diag2 s)) (WConst origin)
                      (FRValue (WConst r)) (gsparams_of self))
           = has_SED self).
Proof.
  intros Hcls Hx.
  assert (Hexp : exists T1 st1,
             expand ext self (WConst s) st = (Ok T1, st1)
             /\ SED_xor_norm T1 /\ has_SED T1 = has_SED self
             /\ exists a1, T1 = ChromaticTransformation a1 false self (WConst (diag2 s))
                                  (WConst origin) (FRValue (WConst 1%Qc)) (gsparams_of self)
                           /\ separable a1 = separable (attrs self)
                           /\ interpolated a1 = interpolated (attrs self)).
  { unfold expand, ChromaticTransformation_init. generalize (deinterpolated ext) as d. intro d.
    unfold bind at 1. unfold ret at 1. cbv beta iota.
    destruct (constant_Transformation_ok d self (diag2 s) origin 1%Qc None st Hx)
      as (T1 & st1 & Hrun & Hs & Hn).
    exists T1, st1. split; [exact Hrun|].
    split; [unfold SED_xor_norm in *; now rewrite Hs, Hn|]. split; [exact Hs|].
    apply constant_Transformation_inv in Hrun. destruct Hrun as (a1 & Es & Ei & HT1).
    exists a1. split; [|auto].
    destruct self; try exact HT1. discriminate Hcls. }
  destruct Hexp as (T1 & st1 & Hrun1 & Hx1 & Hs1 & a1 & -> & Es1 & Ei1).
  split.
  - intros e He. exists st1. unfold dilate. unfold bind at 1. rewrite Hrun1. cbv beta iota.
    unfold bind at 1. unfold bind at 1. unfold lift at 1. rewrite He. reflexivity.
  - intros r Hr. unfold dilate. unfold bind at 1. rewrite Hrun1. cbv beta iota.
    unfold bind at 1. unfold bind at 1. unfold lift at 1. rewrite Hr. cbv beta iota.
    unfold ret at 1. cbv beta iota.
    rewrite withScaledFlux_Transformation. generalize (deinterpolated ext) as d. intro d.
    destruct (constant_Transformation_ok d _ identity2 origin r None st1 Hx1)
      as (T2 & st2 & Hrun2 & Hs2 & Hn2).
    rewrite Hrun2.
    apply constant_Transformation_inv in Hrun2. destruct Hrun2 as (a2 & Es2 & Ei2 & HT2).
    rewrite jac_dot_identity_l, offset_at_origin in HT2.
    replace (1 * r)%Qc with r in HT2 by ring.
    subst T2. exists a2, st2. split; [reflexivity|].
    cbn [attrs] in Es2, Ei2. split; [congruence|]. split; [congruence|].
    rewrite <- Hs1. exact Hs2.
Qed.

(** The statement at a leaf, for the scales 0 and 2 and exact arithmetic. *)
Lemma dilate_by_a_constant_witness :
  let self := leaf 1 (flat_sed 0) in
  let r := (1 / (qz 2 * qz 2))%Qc in
  is_ChromaticTransformation self = false
  /\ SED_xor_norm self
  /\ exact_inverse_square 0%Qc = Raise NotFinite
  /\ exact_inverse_square (qz 2) = Ok r
  /\ (exists st', dilate sample_ext exact_inverse_square self (WConst 0%Qc) initial_state
                  = (Raise NotFinite, st'))
  /\ (exists a st',
        dilate sample_ext exact_inverse_square self (WConst (qz 2)) initial_state
        = (Ok (ChromaticTransformation a false self (WConst (diag2 (qz 2))) (WConst origin)
                 (FRValue (WConst r)) (gsparams_of self)), st')
        /\ separable a = separable (attrs self)
        /\ interpolated a = interpolated (attrs self)
        /\ has_SED (ChromaticTransformation a false self (WConst (diag2 (qz 2)))
                      (WConst origin) (FRValue (WConst r)) (gsparams_of self))
           = has_SED self).
Proof.
  cbv zeta.
  refine ((fun H1 H2 H3 H4 =>
             conj H1 (conj H2 (conj H3 (conj H4
               (conj (proj1 (dilate_by_a_constant sample_ext exact_inverse_square
                               (leaf 1 (flat_sed 0)) 0%Qc initial_state H1 H2)
                        NotFinite H3)
                     (proj2 (dilate_by_a_constant sample_ext exact_inverse_square
                               (leaf 1 (flat_sed 0)) (qz 2) initial_state H1 H2)
                        (1 / (qz 2 * qz 2))%Qc H4)))))) _ _ _ _).
  - reflexivity.
  - reflexivity.
  - reflexivity.
  - vm_compute; reflexivity.
Defined.


(** ** The fiducial profile *)

(** *** The fiducial wavelength *)

Lemma insert_by_distance_In c x l z :
  In z (insert_by_distance c x l) <-> z = x \/ In z l.
Proof.
  induction l as [|y l IH]; cbn [insert_by_distance].
  - cbn. intuition.
  - destruct (Qcltb (Qcabs (y - c)) (Qcabs (x - c))); cbn [In]; [|intuition].
    rewrite IH. intuition.
Qed.

Lemma sort_by_distance_In c a z : In z (sort_by_distance c a) <-> In z a.
Proof.
  unfold sort_by_distance. induction a as [|x a IH]; cbn [fold_right]; [reflexivity|].
  rewrite insert_by_distance_In, IH. cbn. intuition.
Qed.

Lemma insert_by_distance_sorted c x l :
  StronglySorted (fun a b => (Qcabs (a - c) <= Qcabs (b - c))%Qc) l ->
  StronglySorted (fun a b => (Qcabs (a - c) <= Qcabs (b - c))%Qc) (insert_by_distance c x l).
Proof.
  induction 1 as [|y l Hl IH Hy]; cbn [insert_by_distance].
  - constructor; constructor.
  - destruct (Qcltb (Qcabs (y - c)) (Qcabs (x - c))) eqn:E.
    + apply Qcltb_lt in E. constructor; [exact IH|].
      rewrite Forall_forall. intros b Hb. apply insert_by_distance_In in Hb.
      destruct Hb as [->|Hb]; [apply Qclt_le_weak; exact E|].
      rewrite Forall_forall in Hy. auto.
    + apply Qcltb_ge in E. constructor; [constructor; assumption|].
      constructor; [exact E|].
      eapply Forall_impl; [|exact Hy]. intros b Hb.
      eapply Qcle_trans; [exact E|exact Hb].
Qed.

Lemma sort_by_distance_sorted c a :
  StronglySorted (fun a b => (Qcabs (a - c) <= Qcabs (b - c))%Qc) (sort_by_distance c a).
Proof.
  unfold sort_by_distance. induction a as [|x a IH]; cbn [fold_right]; [constructor|].
  apply insert_by_distance_sorted. exact IH.
Qed.

Lemma first_nonzero_spec ext self l w0 prof0 :
  first_nonzero ext self l = Ok (w0, prof0) ->
  exists pre post,
    l = pre ++ w0 :: post
    /\ evaluateAtWavelength self w0 = Ok prof0
    /\ gs_flux ext prof0 <> 0%Qc
    /\ Forall (fun w => exists p, evaluateAtWavelength self w = Ok p /\ gs_flux ext p = 0%Qc)
              pre.
Proof.
  induction l as [|w l IH]; cbn [first_nonzero]; [discriminate|].
  destruct (evaluateAtWavelength self w) as [p|e] eqn:Ev; cbn [rbind]; [|discriminate].
  destruct (Qceqb (gs_flux ext p) 0%Qc) eqn:Ef; cbn [negb].
  - intro H. destruct (IH H) as (pre & post & -> & Hev & Hfl & Hpre).
    exists (w :: pre), post. split; [reflexivity|]. split; [exact Hev|]. split; [exact Hfl|].
    constructor; [|exact Hpre]. exists p. split; [exact Ev|]. now apply Qceqb_eq.
  - intro H. injection H as <- <-. exists [], l.
    split; [reflexivity|]. split; [exact Ev|]. split; [|constructor].
    now apply Qceqb_neq.
Qed.

Lemma first_nonzero_none ext self l :
  Forall (fun w => exists p, evaluateAtWavelength self w = Ok p /\ gs_flux ext p = 0%Qc) l ->
  first_nonzero ext self l = Raise NoFiducialWavelength.
Proof.
  induction 1 as [|w l (p & Hev & Hfl) Hl IH]; cbn [first_nonzero]; [reflexivity|].
  rewrite Hev. cbn [rbind]. rewrite Hfl, Qceqb_refl. cbn [negb]. exact IH.
Qed.

Lemma sorted_split_before {A} (R : A -> A -> Prop) pre x post :
  StronglySorted R (pre ++ x :: post) -> Forall (R x) post.
Proof.
  induction pre as [|y pre IH]; cbn [app]; intro H.
  - now inversion H.
  - inversion H; subst. auto.
Qed.

(** X13.  [_fiducial_profile] returns a wavelength and the evaluation of the
    object there, of nonzero flux.  The wavelength is the effective
    wavelength of the bandpass, or else one of the candidates (the middle of
    the band, the knots of the bandpass and of the object); in that case the
    profile at the effective wavelength has no flux, and neither has the
    profile at any candidate strictly nearer to the effective wavelength.
    When the profile has no flux at the effective wavelength nor at any
    candidate, [_fiducial_profile] raises. *)
Theorem fiducial_profile_is_nearest (ext : External) (self : ChromaticObject)
  (bandpass : Bandpass) :
  let bpwave := effective_wavelength bandpass in
  let candidates := [(half * (blue_limit bandpass + red_limit bandpass))%Qc]
                      ++ bp_wave_list bandpass ++ wave_list (attrs self) in
  let dark w := exists p, evaluateAtWavelength self w = Ok p /\ gs_flux ext p = 0%Qc in
  (forall w0 prof0,
      _fiducial_profile ext self bandpass = Ok (w0, prof0) ->
      evaluateAtWavelength self w0 = Ok prof0
      /\ gs_flux ext prof0 <> 0%Qc
      /\ (w0 = bpwave
          \/ (In w0 candidates /\ dark bpwave
              /\ forall w, In w candidates ->
                           (Qcabs (w - bpwave) < Qcabs (w0 - bpwave))%Qc -> dark w)))
  /\ (dark bpwave -> (forall w, In w candidates -> dark w) ->
      _fiducial_profile ext self bandpass = Raise NoFiducialWavelength).
Proof.
  intros bpwave candidates dark. unfold _fiducial_profile. cbv zeta.
  fold bpwave. fold candidates.
  split.
  - intros w0 prof0.
    destruct (evaluateAtWavelength self bpwave) as [p|e] eqn:Ev; cbn [rbind]; [|discriminate].
    destruct (Qceqb (gs_flux ext p) 0%Qc) eqn:Ef; cbn [negb].
    + intro H. apply first_nonzero_spec in H.
      destruct H as (pre & post & Hl & Hev & Hfl & Hpre).
      split; [exact Hev|]. split; [exact Hfl|]. right.
      assert (Hin : forall w, In w (pre ++ w0 :: post) <-> In w candidates).
      { intro w. rewrite <- Hl. apply sort_by_distance_In. }
      split; [apply Hin, in_elt|].
      split; [exists p; split; [exact Ev|now apply Qceqb_eq]|].
      intros w Hw Hnear. apply Hin in Hw. apply in_app_or in Hw.
      destruct Hw as [Hw|Hw].
      * rewrite Forall_forall in Hpre. exact (Hpre w Hw).
      * exfalso. pose proof (sort_by_distance_sorted bpwave candidates) as Hs.
        rewrite Hl in Hs. apply sorted_split_before in Hs.
        destruct Hw as [<-|Hw]; [exact (Qclt_not_le _ _ Hnear (Qcle_refl _))|].
        rewrite Forall_forall in Hs. specialize (Hs w Hw).
        exact (Qclt_not_le _ _ Hnear Hs).
    + intro H. injection H as <- <-. split; [exact Ev|].
      split; [now apply Qceqb_neq|]. now left.
  - intros (p & Hev & Hfl) Hall. rewrite Hev. cbn [rbind]. rewrite Hfl, Qceqb_refl.
    cbn [negb]. apply first_nonzero_none. rewrite Forall_forall. intros w Hw.
    apply Hall. now apply sort_by_distance_In in Hw.
Qed.

(** The statement at a leaf whose spectrum vanishes at the effective wavelength. *)
Lemma fiducial_profile_is_nearest_witness :
  let sed := mkSED 4 (fun w => Ok (if Qceqb w (qz 550) then 0%Qc else 1%Qc)) [] in
  let self := leaf 1 sed in
  let band := sample_bandpass (fun _ => 1%Qc) [qz 500; qz 600] in
  exists w0 prof0,
    _fiducial_profile sample_ext self band = Ok (w0, prof0)
    /\ w0 <> effective_wavelength band
    /\ evaluateAtWavelength self w0 = Ok prof0
    /\ gs_flux sample_ext prof0 <> 0%Qc.
Proof.
  cbv zeta.
  let r := eval lazy in
             (_fiducial_profile sample_ext
                (leaf 1 (mkSED 4 (fun w => Ok (if Qceqb w (qz 550) then 0%Qc else 1%Qc)) []))
                (sample_bandpass (fun _ => 1%Qc) [qz 500; qz 600])) in
  lazymatch r with Ok (?w0, ?prof0) => exists w0, prof0 end.
  refine ((fun H1 H2 =>
             conj H1 (conj H2
               ((fun C => conj (proj1 C) (proj1 (proj2 C)))
                  (proj1 (fiducial_profile_is_nearest sample_ext
                            (leaf 1 (mkSED 4 (fun w => Ok (if Qceqb w (qz 550) then 0%Qc
                                                           else 1%Qc)) []))
                            (sample_bandpass (fun _ => 1%Qc) [qz 500; qz 600]))
                         _ _ H1)))) _ _).
  - lazy; reflexivity.
  - vm_compute; discriminate.
Defined.


(** ** Interpolation and its inverse *)

(** *** The table an interpolation builds *)

Lemma Qcleb_le x y : Qcleb x y = true <-> (x <= y)%Qc.
Proof.
  unfold Qcleb. rewrite negb_true_iff. apply Qcltb_ge.
Qed.

Lemma insert_sorted_perm x l : Permutation (insert_sorted x l) (x :: l).
Proof.
  induction l as [|y l IH]; cbn [insert_sorted]; [reflexivity|].
  destruct (Qcleb x y); [reflexivity|].
  rewrite IH. apply perm_swap.
Qed.

Lemma np_sort_perm a : Permutation (np_sort a) a.
Proof.
  unfold np_sort. induction a as [|x a IH]; cbn [fold_right]; [reflexivity|].
  rewrite insert_sorted_perm. now constructor.
Qed.

Lemma insert_sorted_sorted x l : nondecreasing l -> nondecreasing (insert_sorted x l).
Proof.
  unfold nondecreasing. induction 1 as [|y l Hl IH Hy]; cbn [insert_sorted].
  - constructor; constructor.
  - destruct (Qcleb x y) eqn:E.
    + apply Qcleb_le in E. constructor; [constructor; assumption|].
      constructor; [exact E|].
      eapply Forall_impl; [|exact Hy]. intros b Hb. eapply Qcle_trans; eassumption.
    + assert (Hyx : (y <= x)%Qc).
      { unfold Qcleb in E. apply negb_false_iff in E. apply Qcltb_lt in E.
        now apply Qclt_le_weak. }
      constructor; [exact IH|].
      rewrite Forall_forall. intros b Hb.
      apply (Permutation_in _ (insert_sorted_perm x l)) in Hb.
      destruct Hb as [<-|Hb]; [exact Hyx|].
      rewrite Forall_forall in Hy. auto.
Qed.

Lemma np_sort_sorted a : nondecreasing (np_sort a).
Proof.
  unfold np_sort. induction a as [|x a IH]; cbn [fold_right]; [constructor|].
  apply insert_sorted_sorted. exact IH.
Qed.

Lemma rmap_Forall2 {A B} (f : A -> Result B) l r :
  rmap f l = Ok r -> Forall2 (fun x y => f x = Ok y) l r.
Proof.
  revert r. induction l as [|x l IH]; intros r; cbn [rmap].
  - intro H. injection H as <-. constructor.
  - destruct (f x) as [y|e] eqn:Ex; cbn [rbind]; [|discriminate].
    destruct (rmap f l) as [ys|e]; cbn [rbind]; [|discriminate].
    intro H. injection H as <-. constructor; auto.
Qed.

Lemma mmap_Forall2 {A B} (f : A -> M B) l :
  forall st r st',
    mmap f l st = (Ok r, st') ->
    Forall2 (fun x y => exists s s', f x s = (Ok y, s')) l r.
Proof.
  induction l as [|x l IH]; intros st r st' H; cbn [mmap] in H.
  - apply ret_Ok_inv in H. destruct H as [-> _]. constructor.
  - apply bind_Ok_inv in H. destruct H as (y & st1 & Hy & H).
    apply bind_Ok_inv in H. destruct H as (ys & st2 & Hys & H).
    apply ret_Ok_inv in H. destruct H as [-> _].
    constructor; eauto.
Qed.

Lemma Forall2_nth_error {A B} (R : A -> B -> Prop) l r i x :
  Forall2 R l r -> nth_error l i = Some x -> exists y, nth_error r i = Some y /\ R x y.
Proof.
  intro H. revert i. induction H as [|a b l r Hab Hlr IH]; intros [|i]; cbn; try discriminate.
  - intro E. injection E as <-. eauto.
  - apply IH.
Qed.

Lemma interpolate_unfold ext self ws fac :
  interpolate ext self ws fac
  = InterpolatedChromaticObject_init_with ext (deinterpolated ext) self ws fac.
Proof. reflexivity. Qed.

Lemma Interpolated_init_inv ext d self ws fac st o st' :
  InterpolatedChromaticObject_init_with ext d self ws fac st = (Ok o, st') ->
  exists original st1 objs scale size imgs,
    d self st = (Ok original, st1)
    /\ rmap (evaluateAtWavelength self) (np_sort ws) = Ok objs
    /\ Forall2 (fun p im =>
                  gs_drawImage ext p None false
                    (mkKwargs None None (Some scale) None (Some size) (Some size)
                       None None (Some "no_pixel"%string) None []) = Ok im) objs imgs
    /\ o = InterpolatedChromaticObject
             (mkAttrs (separable (attrs self)) true (SED (attrs self))
                (_norm (attrs self)) (wave_list (attrs self)))
             original
             (mkInterpolation (np_sort ws) fac (map (gs_stepK ext) objs)
                (map (gs_maxK ext) objs) imgs).
Proof.
  unfold InterpolatedChromaticObject_init_with. intro H.
  apply bind_Ok_inv in H. destruct H as (original & st1 & Hd & H).
  apply bind_Ok_inv in H. destruct H as (objs & st2 & Hobjs & H).
  apply lift_Ok_inv in Hobjs. destruct Hobjs as [Hobjs ->].
  apply bind_Ok_inv in H. destruct H as (smallest & st3 & Hmin & H).
  apply lift_Ok_inv in Hmin. destruct Hmin as [Hmin ->].
  apply bind_Ok_inv in H. destruct H as (scale & st4 & Hscale & H).
  apply lift_Ok_inv in Hscale. destruct Hscale as [Hscale ->].
  apply bind_Ok_inv in H. destruct H as (size & st5 & Hsize & H).
  apply lift_Ok_inv in Hsize. destruct Hsize as [Hsize ->].
  apply bind_Ok_inv in H. destruct H as (imgs & st6 & Himgs & H).
  apply ret_Ok_inv in H. destruct H as [-> ->].
  exists original, st1, objs, scale, size, imgs.
  split; [exact Hd|]. split; [exact Hobjs|].
  split; [|reflexivity].
  apply mmap_Forall2 in Himgs. eapply Forall2_impl; [|exact Himgs].
  intros p im (s & s' & Hdraw). cbv beta in Hdraw.
  apply bind_Ok_inv in Hdraw. destruct Hdraw as (u & s1 & _ & Hdraw).
  apply lift_Ok_inv in Hdraw. tauto.
Qed.

(** X14.  What [interpolate] builds, when it returns, for an oversampling
    factor that is not zero: an interpolated object with the attributes of
    the object it was called on, on a list of wavelengths that is not empty.
    The table holds the wavelengths given, sorted, and for each of them the
    [stepK] and [maxK] of the evaluation of the object there and the
    drawing of that evaluation, all images drawn with one scale and one
    size and without pixel. *)
Theorem interpolate_builds_a_table (ext : External) (self : ChromaticObject) (ws : list Qc)
  (fac : Qc) (st : St) (o : ChromaticObject) (st' : St) :
  fac <> 0%Qc ->
  interpolate ext self ws fac st = (Ok o, st') ->
  exists a original tab,
    o = InterpolatedChromaticObject a original tab
    /\ a = mkAttrs (separable (attrs self)) true (SED (attrs self)) (_norm (attrs self))
             (wave_list (attrs self))
    /\ ws <> []
    /\ Permutation (waves tab) ws /\ nondecreasing (waves tab)
    /\ List.length (ims tab) = List.length (waves tab)
    /\ List.length (stepK_vals tab) = List.length (waves tab)
    /\ List.length (maxK_vals tab) = List.length (waves tab)
    /\ exists scale size,
        forall i w, nth_error (waves tab) i = Some w ->
          exists p im,
            evaluateAtWavelength self w = Ok p
            /\ nth_error (stepK_vals tab) i = Some (gs_stepK ext p)
            /\ nth_error (maxK_vals tab) i = Some (gs_maxK ext p)
            /\ nth_error (ims tab) i = Some im
            /\ gs_drawImage ext p None false
                 (mkKwargs None None (Some scale) None (Some size) (Some size)
                    None None (Some "no_pixel"%string) None []) = Ok im.
Proof.
  intro Hfac. rewrite interpolate_unfold. generalize (deinterpolated ext) as d. intros d H.
  pose proof H as H0.
  apply Interpolated_init_inv in H.
  destruct H as (original & st1 & objs & scale & size & imgs & Hd & Hobjs & Himgs & ->).
  apply rmap_Forall2 in Hobjs.
  pose proof (Forall2_length Hobjs) as Lobjs. pose proof (Forall2_length Himgs) as Limgs.
  eexists. exists original. eexists. split; [reflexivity|]. split; [reflexivity|].
  cbn [waves ims stepK_vals maxK_vals].
  split.
  { intros ->. clear - H0. unfold InterpolatedChromaticObject_init_with in H0.
    apply bind_Ok_inv in H0. destruct H0 as (orig' & s1 & _ & H).
    cbn in H. discriminate H. }
  split; [apply np_sort_perm|]. split; [apply np_sort_sorted|].
  rewrite !length_map. split; [lia|]. split; [lia|]. split; [lia|].
  exists scale, size. intros i w Hw.
  destruct (Forall2_nth_error _ _ _ _ _ Hobjs Hw) as (p & Hp & Hev).
  destruct (Forall2_nth_error _ _ _ _ _ Himgs Hp) as (im & Him & Hdraw).
  exists p, im. split; [exact Hev|].
  rewrite !nth_error_map, Hp. cbn. auto.
Qed.

(** The statement at the interpolation of a chromatic PSF on [[600; 500]]. *)
Lemma interpolate_builds_a_table_witness :
  1%Qc <> 0%Qc
  /\ exists o st',
    interpolate sample_ext sample_psf [qz 600; qz 500] 1%Qc initial_state = (Ok o, st')
    /\ exists a original tab,
        o = InterpolatedChromaticObject a original tab
        /\ waves tab = [qz 500; qz 600]
        /\ Permutation (waves tab) [qz 600; qz 500] /\ nondecreasing (waves tab)
        /\ List.length (ims tab) = List.length (waves tab)
        /\ List.length (stepK_vals tab) = List.length (waves tab)
        /\ List.length (maxK_vals tab) = List.length (waves tab).
Proof.
  refine ((fun H0 => conj H0 _) _); [|discriminate].
  let r := eval lazy in (interpolate sample_ext sample_psf [qz 600; qz 500] 1%Qc
                           initial_state) in
  lazymatch r with (Ok ?o, ?st') => exists o, st' end.
  refine ((fun H1 => conj H1 _) _); [|lazy; reflexivity].
  destruct (interpolate_builds_a_table sample_ext sample_psf [qz 600; qz 500] 1%Qc
              initial_state _ _ H0 H1)
    as (a & original & tab & E & _ & _ & P & S & L1 & L2 & L3 & _).
  exists a, original, tab.
  split; [exact E|]. split; [injection E as _ _ <-; reflexivity|].
  auto.
Defined.

Lemma deinterpolated_Interpolated ext a original tab :
  deinterpolated ext (InterpolatedChromaticObject a original tab) = ret original.
Proof. unfold deinterpolated. rewrite recursion_limit_S. reflexivity. Qed.

Lemma deinterpolated_Chromatic ext a obj :
  deinterpolated ext (Chromatic a obj) = ret (Chromatic a obj).
Proof. unfold deinterpolated. rewrite recursion_limit_S. reflexivity. Qed.

Lemma deinterpolated_ChromaticPSF ext a cls mono :
  deinterpolated ext (ChromaticPSF a cls mono) = ret (ChromaticPSF a cls mono).
Proof. unfold deinterpolated. rewrite recursion_limit_S. reflexivity. Qed.

(** X15.  Interpolation is undone by [deinterpolated]: the interpolation of
    an object deinterpolates to what the object deinterpolates to (for a
    [Chromatic] or a chromatic PSF, the object itself), and so does the
    interpolation of an interpolation: interpolations do not stack. *)
Theorem interpolation_is_undone (ext : External) (self : ChromaticObject) (ws : list Qc)
  (fac : Qc) (st : St) (o : ChromaticObject) (st' : St) :
  interpolate ext self ws fac st = (Ok o, st') ->
  exists d st1,
    deinterpolated ext self st = (Ok d, st1)
    /\ deinterpolated ext o = ret d
    /\ (forall ws2 fac2 st2 o2 st2',
          interpolate ext o ws2 fac2 st2 = (Ok o2, st2') ->
          deinterpolated ext o2 = ret d)
    /\ (match self with Chromatic _ _ | ChromaticPSF _ _ _ => d = self | _ => True end).
Proof.
  intro H. rewrite interpolate_unfold in H.
  assert (Hd : exists d st1 a tab,
             deinterpolated ext self st = (Ok d, st1)
             /\ o = InterpolatedChromaticObject a d tab).
  { revert H. generalize (deinterpolated ext) as dd. intros dd H.
    apply Interpolated_init_inv in H.
    destruct H as (original & st1 & objs & scale & size & imgs & Hd & _ & _ & ->).
    eauto 10. }
  destruct Hd as (d & st1 & a & tab & Hd & ->).
  exists d, st1. split; [exact Hd|]. split; [apply deinterpolated_Interpolated|]. split.
  - intros ws2 fac2 st2 o2 st2' H2. rewrite interpolate_unfold in H2.
    assert (Hd2 : exists d2 s a2 tab2,
               deinterpolated ext (InterpolatedChromaticObject a d tab) st2 = (Ok d2, s)
               /\ o2 = InterpolatedChromaticObject a2 d2 tab2).
    { revert H2. generalize (deinterpolated ext) as dd. intros dd H2.
      apply Interpolated_init_inv in H2.
      destruct H2 as (original & s & objs & scale & size & imgs & Hd2 & _ & _ & ->).
      eauto 10. }
    destruct Hd2 as (d2 & s & a2 & tab2 & Hd2 & ->).
    rewrite deinterpolated_Interpolated in Hd2. injection Hd2 as <- _.
    apply deinterpolated_Interpolated.
  - destruct self; try exact I.
    + rewrite deinterpolated_ChromaticPSF in Hd. injection Hd as <- _. reflexivity.
    + rewrite deinterpolated_Chromatic in Hd. injection Hd as <- _. reflexivity.
Qed.

(** The statement at the interpolation of a chromatic PSF. *)
Lemma interpolation_is_undone_witness :
  exists o st',
    interpolate sample_ext sample_psf [qz 600; qz 500] 1%Qc initial_state = (Ok o, st')
    /\ deinterpolated sample_ext o = ret sample_psf.
Proof.
  let r := eval lazy in (interpolate sample_ext sample_psf [qz 600; qz 500] 1%Qc
                           initial_state) in
  lazymatch r with (Ok ?o, ?st') => exists o, st' end.
  refine ((fun H1 => conj H1 _) _); [|lazy; reflexivity].
  destruct (interpolation_is_undone sample_ext sample_psf [qz 600; qz 500] 1%Qc
              initial_state _ _ H1) as (d & st1 & _ & Hd & _ & Hself).
  cbv beta iota in Hself. rewrite <- Hself. exact Hd.
Defined.


(** ** Between two stored images *)

Section InsideTheGrid.
Local Open Scope Z_scope.

Lemma img_add_same_length (a b : Image) :
  List.length a = List.length b -> exists r, img_add a b = Ok r.
Proof.
  revert b. induction a as [|x a IH]; intros [|y b] H; cbn in H; try discriminate.
  - exists []. reflexivity.
  - destruct (IH b) as [r Hr]; [congruence|]. cbn [img_add]. rewrite Hr. eauto.
Qed.

Lemma same_length_split {A B} (l : list A) (pre : list B) (a b : B) (post : list B) :
  List.length l = List.length (pre ++ a :: b :: post) ->
  exists lpre la lb lpost,
    l = lpre ++ la :: lb :: lpost /\ List.length lpre = List.length pre.
Proof.
  intro H. rewrite length_app in H. cbn [List.length] in H.
  destruct (nth_error l (List.length pre)) as [la|] eqn:Ea;
    [|apply nth_error_None in Ea; lia].
  destruct (nth_error l (S (List.length pre))) as [lb|] eqn:Eb;
    [|apply nth_error_None in Eb; lia].
  destruct (two_neighbours _ _ _ _ Ea Eb) as (lpre & lpost & -> & Hl).
  exists lpre, la, lb, lpost. auto.
Qed.

Lemma nth_error_mid {A} (pre : list A) x post :
  nth_error (pre ++ x :: post) (List.length pre) = Some x.
Proof. rewrite nth_error_app2 by lia. now rewrite Nat.sub_diag. Qed.

Lemma nth_error_mid_next {A} (pre : list A) x y post :
  nth_error (pre ++ x :: y :: post) (S (List.length pre)) = Some y.
Proof.
  rewrite nth_error_app2 by lia.
  now replace (S (List.length pre) - List.length pre)%nat with 1%nat by lia.
Qed.

Lemma float_interp_mid (pre : list Qc) a b post frac :
  _linearInterp Qcmult float_add (pre ++ a :: b :: post) frac (Z.of_nat (List.length pre))
  = Ok (frac * b + (1 - frac) * a)%Qc.
Proof.
  unfold _linearInterp. rewrite item_app_mid, item_app_mid_next. reflexivity.
Qed.

(** X16.  Inside its grid an interpolated object always evaluates, with the
    same assumptions on the table: at a wavelength [w] from the smallest to
    the largest grid wavelength there are two neighbouring grid points
    [w_lo < w_hi] around [w], and the result is the image
    [frac * im_hi + (1 - frac) * im_lo] with [frac = (w - w_lo) / (w_hi -
    w_lo)], the [stepK] and the [maxK] being interpolated in the same way. *)
Theorem evaluation_inside_the_grid (a : Attrs) (original : ChromaticObject)
  (tab : Interpolation) (w lo hi : Qc) :
  increasing (waves tab) -> (2 <= List.length (waves tab))%nat -> table_ok tab ->
  np_min (waves tab) = Ok lo -> np_max (waves tab) = Ok hi ->
  (lo <= w)%Qc -> (w <= hi)%Qc ->
  exists (i : nat) (frac w_lo w_hi : Qc) (im_lo im_hi : Image) (s_lo s_hi m_lo m_hi : Qc)
         (im : Image),
    nth_error (waves tab) i = Some w_lo /\ nth_error (waves tab) (S i) = Some w_hi
    /\ (w_lo < w_hi)%Qc /\ (w_lo <= w)%Qc /\ (w <= w_hi)%Qc
    /\ frac = ((w - w_lo) / (w_hi - w_lo))%Qc
    /\ nth_error (ims tab) i = Some im_lo /\ nth_error (ims tab) (S i) = Some im_hi
    /\ nth_error (stepK_vals tab) i = Some s_lo /\ nth_error (stepK_vals tab) (S i) = Some s_hi
    /\ nth_error (maxK_vals tab) i = Some m_lo /\ nth_error (maxK_vals tab) (S i) = Some m_hi
    /\ img_add (img_scale frac im_hi) (img_scale (1 - frac) im_lo) = Ok im
    /\ evaluateAtWavelength (InterpolatedChromaticObject a original tab) w
       = Ok (GSInterpolatedImage im
               (Some (frac * s_hi + (1 - frac) * s_lo)%Qc)
               (Some (frac * m_hi + (1 - frac) * m_lo)%Qc) None).
Proof.
  intros Hinc Hlen [Hi Hs Hm Hshape] Hlo Hhi Hlow Hwhi.
  destruct (bracket_in_grid _ _ _ _ Hinc Hlen Hlo Hhi Hlow Hwhi)
    as (pre & wa & wb & post & Ew & Hab & Haw & Hwb & Hfind).
  rewrite Ew in Hi, Hs, Hm.
  destruct (same_length_split _ _ _ _ _ Hi) as (ipre & ia & ib & ipost & Ei & Li).
  destruct (same_length_split _ _ _ _ _ Hs) as (spre & sa & sb & spost & Es & Ls).
  destruct (same_length_split _ _ _ _ _ Hm) as (mpre & ma & mb & mpost & Em & Lm).
  set (frac := ((w - wa) / (wb - wa))%Qc) in *.
  destruct (img_add_same_length (img_scale frac ib) (img_scale (1 - frac)%Qc ia))
    as [im Him].
  { unfold img_scale. rewrite !length_map.
    apply Hshape; rewrite Ei; apply in_or_app; right; simpl; auto. }
  exists (List.length pre), frac, wa, wb, ia, ib, sa, sb, ma, mb, im.
  split; [rewrite Ew; apply nth_error_mid|].
  split; [rewrite Ew; apply nth_error_mid_next|].
  split; [exact Hab|]. split; [exact Haw|]. split; [exact Hwb|]. split; [reflexivity|].
  split; [rewrite Ei, <- Li; apply nth_error_mid|].
  split; [rewrite Ei, <- Li; apply nth_error_mid_next|].
  split; [rewrite Es, <- Ls; apply nth_error_mid|].
  split; [rewrite Es, <- Ls; apply nth_error_mid_next|].
  split; [rewrite Em, <- Lm; apply nth_error_mid|].
  split; [rewrite Em, <- Lm; apply nth_error_mid_next|].
  split; [exact Him|].
  cbn [evaluateAtWavelength]. unfold Interpolated_evaluateAtWavelength, _imageAtWavelength.
  rewrite Hlo. cbn [rbind].
  assert (Qcltb w lo = false) as -> by now apply Qcltb_ge.
  rewrite Hhi. cbn [rbind].
  assert (Qcltb hi w = false) as -> by now apply Qcltb_ge.
  rewrite Hfind. cbn [rbind]. fold frac.
  rewrite Ei. unfold _linearInterp at 1. rewrite <- Li.
  rewrite item_app_mid, item_app_mid_next. cbn [rbind]. rewrite Him. cbn [rbind].
  rewrite Li, <- Ls, Es, float_interp_mid. cbn [rbind].
  rewrite Ls, <- Lm, Em, float_interp_mid. reflexivity.
Qed.

End InsideTheGrid.

(** The statement at [sample_table] and the wavelength 525. *)
Lemma evaluation_inside_the_grid_witness :
  let a := mkAttrs false true (Some (flat_sed 0)) None [] in
  increasing (waves sample_table) /\ (2 <= List.length (waves sample_table))%nat
  /\ table_ok sample_table
  /\ np_min (waves sample_table) = Ok (qz 500) /\ np_max (waves sample_table) = Ok (qz 600)
  /\ (qz 500 <= qz 525)%Qc /\ (qz 525 <= qz 600)%Qc
  /\ exists im stepk maxk,
      evaluateAtWavelength (InterpolatedChromaticObject a sample_psf sample_table) (qz 525)
      = Ok (GSInterpolatedImage im (Some stepk) (Some maxk) None).
Proof.
  cbv zeta.
  refine ((fun H1 H2 H3 H4 H5 H6 H7 =>
             conj H1 (conj H2 (conj H3 (conj H4 (conj H5 (conj H6 (conj H7 _)))))))
            _ _ _ _ _ _ _).
  - destruct (evaluation_inside_the_grid (mkAttrs false true (Some (flat_sed 0)) None [])
                sample_psf sample_table (qz 525) (qz 500) (qz 600) H1 H2 H3 H4 H5 H6 H7)
      as (i & frac & w_lo & w_hi & im_lo & im_hi & s_lo & s_hi & m_lo & m_hi & im & H).
    exists im, (frac * s_hi + (1 - frac) * s_lo)%Qc, (frac * m_hi + (1 - frac) * m_lo)%Qc.
    apply H.
  - repeat constructor.
  - cbn; lia.
  - constructor; try reflexivity.
    intros im1 im2 [<-|[<-|[]]] [<-|[<-|[]]]; reflexivity.
  - reflexivity.
  - reflexivity.
  - vm_compute; discriminate.
  - vm_compute; discriminate.
Defined.


(** ** Weights that vanish *)

(** *** A bandpass that lets nothing through *)

Lemma add_at_zero (a : list Qc) (i : Z) (x : Qc) (a' : list Qc) :
  x = 0%Qc -> add_at a i x = Ok a' -> a' = a.
Proof.
  intros -> H. destruct (add_at_split _ _ _ _ H) as (pre & old & post & -> & ->).
  now rewrite Qcplus_0_r.
Qed.

Lemma accumulate_weights_dark grid bandpass midpoint n :
  forall samples idx wf0 wf,
    Forall (fun s => bp_call bandpass (fst s) = 0%Qc) samples ->
    accumulate_weights grid bandpass midpoint n idx samples wf0 = Ok wf ->
    wf = wf0.
Proof.
  induction samples as [|[w dw] rest IH]; intros idx wf0 wf Hs H;
    cbn [accumulate_weights] in H.
  - now injection H as <-.
  - inversion Hs as [|? ? Hb Hrest]; subst. cbn [fst] in Hb.
    destruct (_findWave grid w) as [[i frac]|e]; [|discriminate]. cbn [rbind] in H.
    rewrite Hb in H.
    destruct ((0 <? idx)%nat && (idx <? n - 1)%nat || midpoint).
    + destruct (add_at wf0 i _) as [wf1|e] eqn:E1; [|discriminate]. cbn [rbind] in H.
      destruct (add_at wf1 (i + 1) _) as [wf2|e] eqn:E2; [|discriminate]. cbn [rbind] in H.
      apply add_at_zero in E1; [|ring]. apply add_at_zero in E2; [|ring]. subst.
      eapply IH; eassumption.
    + destruct (add_at wf0 i _) as [wf1|e] eqn:E1; [|discriminate]. cbn [rbind] in H.
      destruct (add_at wf1 (i + 1) _) as [wf2|e] eqn:E2; [|discriminate]. cbn [rbind] in H.
      apply add_at_zero in E1; [|ring]. apply add_at_zero in E2; [|ring]. subst.
      eapply IH; eassumption.
Qed.

Lemma combine_fst_Forall {A B} (P : A -> Prop) (l : list A) (l' : list B) :
  Forall P l -> Forall (fun s => P (fst s)) (combine l l').
Proof.
  intro H. revert l'. induction H as [|x l Hx Hl IH]; intros [|y l']; cbn [combine];
    constructor; auto.
Qed.

Lemma positive_weight_of_zeros (vals : list Qc) n :
  List.length vals = n -> positive_weight vals (repeat 0%Qc n) = Ok [].
Proof.
  intros <-. unfold positive_weight. rewrite repeat_length, Nat.eqb_refl.
  f_equal. induction vals as [|v vals IH]; [reflexivity|].
  cbn [List.length repeat combine filter snd]. rewrite Qcltb_irrefl. exact IH.
Qed.

(** X17.  A bandpass whose throughput is zero at every sample wavelength: every
    weight is zero, and the integration of the stored images returns no
    profile.  When the steps before it succeed, the error is the one of the
    minimum of an empty array: no stored image has a positive weight. *)
Theorem dark_bandpass_is_not_drawn (tab : Interpolation) (bandpass : Bandpass)
  (integrator : Integrator) (wave_list : list Qc) :
  Forall (fun w => bp_call bandpass w = 0%Qc) wave_list ->
  (exists e, integrate_stored_images tab bandpass integrator wave_list = Raise e)
  /\ (forall weight_fac,
        interp_weights tab bandpass integrator wave_list = Ok weight_fac ->
        weight_fac = repeat 0%Qc (List.length (waves tab)))
  /\ (forall lo hi grid_lo grid_hi weight_fac integral,
        np_min wave_list = Ok lo -> np_min (waves tab) = Ok grid_lo ->
        np_max wave_list = Ok hi -> np_max (waves tab) = Ok grid_hi ->
        (grid_lo <= lo)%Qc -> (hi <= grid_hi)%Qc ->
        interp_weights tab bandpass integrator wave_list = Ok weight_fac ->
        img_sum (map (fun wi => img_scale (fst wi) (snd wi)) (combine weight_fac (ims tab)))
        = Ok integral ->
        List.length (stepK_vals tab) = List.length (waves tab) ->
        integrate_stored_images tab bandpass integrator wave_list = Raise EmptyReduction).
Proof.
  intro Hdark.
  assert (Hw : forall weight_fac,
             interp_weights tab bandpass integrator wave_list = Ok weight_fac ->
             weight_fac = repeat 0%Qc (List.length (waves tab))).
  { intros wf H. unfold interp_weights in H.
    destruct (widths wave_list) as [dw|e]; [|discriminate]. cbn [rbind] in H.
    eapply accumulate_weights_dark; [|exact H].
    apply (combine_fst_Forall (fun w => bp_call bandpass w = 0%Qc)). exact Hdark. }
  split; [|split; [exact Hw|]].
  - unfold integrate_stored_images.
    destruct (np_min wave_list) as [lo|e]; cbn [rbind]; [|eauto].
    destruct (np_min (waves tab)) as [glo|e]; cbn [rbind]; [|eauto].
    destruct (Qcltb lo glo); [eauto|].
    destruct (np_max wave_list) as [hi|e]; cbn [rbind]; [|eauto].
    destruct (np_max (waves tab)) as [ghi|e]; cbn [rbind]; [|eauto].
    destruct (Qcltb ghi hi); [eauto|].
    destruct (interp_weights tab bandpass integrator wave_list) as [wf|e] eqn:Ewf;
      cbn [rbind]; [|eauto].
    rewrite (Hw wf eq_refl).
    destruct (img_sum _) as [integral|e]; cbn [rbind]; [|eauto].
    unfold positive_weight at 1. rewrite repeat_length.
    destruct (Nat.eqb (List.length (stepK_vals tab)) (List.length (waves tab))) eqn:El;
      cbn [rbind]; [|eauto].
    apply Nat.eqb_eq in El.
    pose proof (positive_weight_of_zeros (stepK_vals tab) _ El) as Hp.
    unfold positive_weight in Hp. rewrite repeat_length, El, Nat.eqb_refl in Hp.
    injection Hp as ->. cbn. eauto.
  - intros lo hi glo ghi wf integral Hlo Hglo Hhi Hghi Hl Hh Hwf Hsum Hlen.
    unfold integrate_stored_images.
    rewrite Hlo, Hglo. cbn [rbind].
    assert (Qcltb lo glo = false) as -> by now apply Qcltb_ge.
    rewrite Hhi, Hghi. cbn [rbind].
    assert (Qcltb ghi hi = false) as -> by now apply Qcltb_ge.
    rewrite Hwf. cbn [rbind]. rewrite Hsum. cbn [rbind].
    rewrite (Hw wf Hwf), positive_weight_of_zeros by exact Hlen. reflexivity.
Qed.

(** The statement at [sample_table] and a bandpass that lets nothing through. *)
Lemma dark_bandpass_is_not_drawn_witness :
  let band := sample_bandpass (fun _ => 0%Qc) [qz 500; qz 600] in
  let wave_list := [qz 500; qz 600] in
  Forall (fun w => bp_call band w = 0%Qc) wave_list
  /\ integrate_stored_images sample_table band (IString "trapezoidal") wave_list
     = Raise EmptyReduction.
Proof.
  cbv zeta.
  refine ((fun H1 => conj H1 _) _); [|repeat constructor].
  let w := eval lazy in
             (interp_weights sample_table (sample_bandpass (fun _ => 0%Qc) [qz 500; qz 600])
                (IString "trapezoidal") [qz 500; qz 600]) in
  lazymatch w with
  | Ok ?wf =>
      let s := eval lazy in
                 (img_sum (map (fun wi => img_scale (fst wi) (snd wi))
                               (combine wf (ims sample_table)))) in
      lazymatch s with
      | Ok ?integral =>
          refine (proj2 (proj2 (dark_bandpass_is_not_drawn sample_table
                                  (sample_bandpass (fun _ => 0%Qc) [qz 500; qz 600])
                                  (IString "trapezoidal") [qz 500; qz 600] H1))
                    (qz 500) (qz 600) (qz 500) (qz 600) wf integral _ _ _ _ _ _ _ _ _)
      end
  end.
  all: first [reflexivity | vm_compute; reflexivity | vm_compute; discriminate].
Defined.
